(** * Attestation aggregation by greedy maximum coverage

    Shallow embedding of [shared/aggregation/attestations/maxcover.go]:
    the two orchestrators [MaxCoverAttestationAggregation] and
    [optMaxCoverAttestationAggregation] with the helpers they call, followed
    by the properties of the engine.

    Go slices are views of a shared array: the writes that the source makes
    through [al[:0]], [append], [sort.Slice] and index assignment are modelled
    on an explicit array, and a Go run-time panic (index out of range, nil
    dereference, bitlists of different lengths) is the outcome [Panic]. *)

From stdpp Require Import base tactics option list numbers sorting.

Set Default Proof Using "Type".

(** ** Run-time panics *)

Inductive run (A : Type) : Type :=
| Ok (a : A)
| Panic.
Arguments Ok {A} a.
Arguments Panic {A}.

Global Instance run_ret : MRet run := λ A, Ok.
Global Instance run_bind : MBind run := λ A B f m,
  match m with Ok a => f a | Panic => Panic end.

(** [l[i]] with Go's bounds check. *)
Definition index {A} (l : list A) (i : nat) : run A :=
  match l !! i with
  | Some x => Ok x
  | None => Panic
  end.

(** A Go slice value seen from outside: nil, or a sequence of elements. *)
Inductive slice (A : Type) : Type :=
| nil_slice
| slice_of (l : list A).
Arguments nil_slice {A}.
Arguments slice_of {A} l.

Definition elems {A} (s : slice A) : list A :=
  match s with
  | nil_slice => []
  | slice_of l => l
  end.

Definition len {A} (s : slice A) : nat := length (elems s).

(** ** Bit vectors *)

(** Modelled from the spec: the bitfield package ([Bitlist], [Bitlist64]) is
    not part of the sources.  Following the data model, a bit vector is an
    ordered fixed-length sequence of boolean flags; popcount, OR/XOR with an
    equal-length vector (a length mismatch is a run-time panic), containment,
    enumeration of the set positions in ascending order. *)
Abbreviation Bitlist := (list bool).
Abbreviation Bitlist64 := (list bool).

Definition Len (b : Bitlist) : nat := length b.

Fixpoint Count (b : Bitlist) : nat :=
  match b with
  | [] => 0
  | x :: b' => (if x then 1 else 0) + Count b'
  end.

Definition BitAt (b : Bitlist) (i : nat) : bool :=
  match b !! i with
  | Some x => x
  | None => false
  end.

Definition zeros (n : nat) : Bitlist := replicate n false.

Definition bor (b c : Bitlist) : Bitlist := zip_with orb b c.
Definition bxor (b c : Bitlist) : Bitlist := zip_with xorb b c.
Definition band (b c : Bitlist) : Bitlist := zip_with andb b c.
Definition bnot (b : Bitlist) : Bitlist := negb <$> b.

Definition same_len (b c : Bitlist) : bool := Len b =? Len c.

Definition Or (b c : Bitlist) : run Bitlist :=
  if same_len b c then Ok (bor b c) else Panic.

Definition Xor (b c : Bitlist) : run Bitlist :=
  if same_len b c then Ok (bxor b c) else Panic.

(** [b.Contains(c)]: every bit of [c] is set in [b]. *)
Definition Contains (b c : Bitlist) : run bool :=
  if same_len b c then Ok (Count (band b c) =? Count c) else Panic.

Definition Overlaps (b c : Bitlist) : run bool :=
  if same_len b c then Ok (0 <? Count (band b c)) else Panic.

Definition NewBitlist64 (n : nat) : Bitlist64 := zeros n.

(** [coverage.Bytes()] of a [Bitlist64], stored in a field of type [Bitlist]
    (line 203).  The bytes of a [Bitlist] end with a length bit, their most
    significant set bit; the bytes of a [Bitlist64] carry none.  Read as a
    [Bitlist], the last set bit of the coverage is taken for the length bit:
    the value is the coverage below its last set bit, and the empty bitlist
    when no bit is set. *)
Fixpoint Bytes64 (b : Bitlist64) : Bitlist :=
  match b with
  | [] => []
  | x :: b' => if existsb id b' then x :: Bytes64 b' else []
  end.

Definition XorCount (b c : Bitlist64) : run nat :=
  x ← Xor b c; Ok (Count x).

(** [b.NoAllocOr(c, ret)]: the value stored in [ret]. *)
Definition NoAllocOr (b c : Bitlist64) : run Bitlist64 := Or b c.

(** Setting a bit beyond the size does nothing. *)
Definition SetBitAt (b : Bitlist64) (idx : nat) (val : bool) : Bitlist64 :=
  <[idx := val]> b.

Fixpoint BitIndices_from (i : nat) (b : Bitlist64) : list nat :=
  match b with
  | [] => []
  | x :: b' => if x then i :: BitIndices_from (S i) b'
               else BitIndices_from (S i) b'
  end.

Definition BitIndices (b : Bitlist64) : list nat := BitIndices_from 0 b.

(** ** Errors *)

(** Errors of package [aggregation]. *)
Inductive aggregation_error : Type :=
| ErrBitsDifferentLen
| ErrInvalidMaxCoverProblem.

(** Errors an orchestrator can see ([errors.Wrap] keeps the identity that
    [errors.Is] tests, so the message is left out). *)
Inductive error : Type :=
| AggregationError (e : aggregation_error)
| ErrNilList
| ErrInvalidAttestationCount
| ErrSignature.

Global Instance aggregation_error_eq_dec : EqDecision aggregation_error.
Proof. solve_decision. Defined.
Global Instance error_eq_dec : EqDecision error.
Proof. solve_decision. Defined.

(** ** The coverage solver's interface *)

(** [aggregation.MaxCoverCandidate]: the key and the bits (the score and the
    processed flag are scratch fields of the solver). *)
Record MaxCoverCandidate : Type := NewMaxCoverCandidate {
  key : nat;
  bits : Bitlist
}.

Abbreviation MaxCoverProblem := (list MaxCoverCandidate).

(** [aggregation.Aggregation]: the solution of one round. *)
Record Aggregation : Type := {
  Coverage : Bitlist;
  Keys : list nat
}.

(** The collaborators of the engine whose code is outside the sources: the
    vote payload, the signature scheme, the two entry points of the coverage
    solver, the conversion of a bit vector to a candidate of the optimized
    engine, and [sort.Slice]. *)
Class Collaborators : Type := {
  AttestationData : Type;
  bls_Signature : Type;
  signatureFromBytes : list Byte.byte → option bls_Signature;
  aggregateSignatures : list bls_Signature → bls_Signature;
  Marshal : bls_Signature → list Byte.byte;
  (** [(&MaxCoverProblem{Candidates}).Cover(k, allowOverlaps)] *)
  Cover : MaxCoverProblem → nat → bool → aggregation_error + Aggregation;
  (** [aggregation.MaxCover(candidates, k, allowOverlaps)], returning the
      selected positions (as a bit vector) and the coverage *)
  MaxCover : list (option Bitlist64) → nat → bool →
             aggregation_error + (Bitlist64 * Bitlist64);
  (** [bitfield.NewBitlist64FromBytes(b.Bytes())]: the [Bitlist64] made
      from the bytes of the bit vector [b] *)
  NewBitlist64FromBytes : Bitlist → Bitlist64;
  (** [sort.Slice(s, less)]: the order of [s] afterwards *)
  sort_Slice : ∀ A : Type, (A → A → bool) → list A → list A
}.

Section Engine.
Context `{!Collaborators}.

(** ** Attestations *)

(** [ethpb.Attestation].  [AggregationBits] and [Data] can be nil.  The
    slices that the callers pass hold pointers to attestations; the engines
    are modelled on slices whose pointers are not nil. *)
Record Attestation : Type := {
  AggregationBits : option Bitlist;
  Data : option AttestationData;
  Signature : list Byte.byte
}.

(** The bits of an attestation; a nil [Bitlist] has length 0 and no bit. *)
Definition bitsOf (att : Attestation) : Bitlist :=
  match AggregationBits att with
  | Some b => b
  | None => []
  end.

(** [stateTrie.CopyAttestationData]: a deep copy, nil for nil. *)
Definition CopyAttestationData (d : option AttestationData) :
  option AttestationData := d.

(** An [attList] together with the array it is a view of: the slice is the
    first [al_len] cells of [array]. *)
Record attList : Type := {
  array : list Attestation;
  al_len : nat
}.

Definition items (al : attList) : list Attestation :=
  take (al_len al) (array al).

(** What a call hands back: the returned slice, the returned error (None for
    nil), and the contents of the caller's array after the call. *)
Record returned : Type := {
  result : slice Attestation;
  err : option error;
  caller_array : list Attestation
}.

(** ** Validation *)

Fixpoint validate_rest (bitlistLen : nat) (rest : list Attestation) :
  option error :=
  match rest with
  | [] => None
  | att :: rest' =>
    match AggregationBits att with
    | None => Some (AggregationError ErrBitsDifferentLen)
    | Some b =>
      if bitlistLen =? Len b then validate_rest bitlistLen rest'
      else Some (AggregationError ErrBitsDifferentLen)
    end
  end.

(** [attList.validate] *)
Definition validate (al : slice Attestation) : option error :=
  match al with
  | nil_slice => Some ErrNilList
  | slice_of [] => Some (AggregationError ErrInvalidMaxCoverProblem)
  | slice_of (att0 :: rest) =>
    match AggregationBits att0 with
    | None => Some (AggregationError ErrInvalidMaxCoverProblem)
    | Some b0 =>
      if Len b0 =? 0 then Some (AggregationError ErrInvalidMaxCoverProblem)
      else validate_rest (Len b0) rest
    end
  end.

Definition validateAttestations (atts : slice Attestation) : option error :=
  validate atts.

(** ** Helpers of the straightforward engine *)

(** [NewMaxCover]: candidate [i] carries key [i] and the bits of [atts[i]]. *)
Definition NewMaxCover (atts : list Attestation) : MaxCoverProblem :=
  imap (λ i att, NewMaxCoverCandidate i (bitsOf att)) atts.

(** The signatures of [al], or None at the first one that does not decode. *)
Fixpoint decode_signatures (al : list Attestation) :
  option (list bls_Signature) :=
  match al with
  | [] => Some []
  | att :: al' =>
    match signatureFromBytes (Signature att) with
    | None => None
    | Some sig =>
      match decode_signatures al' with
      | None => None
      | Some signs => Some (sig :: signs)
      end
    end
  end.

(** [attList.aggregate] *)
Definition aggregate (al : list Attestation) (coverage : Bitlist) :
  error + Attestation :=
  match al with
  | att0 :: _ :: _ =>
    match decode_signatures al with
    | None => inl ErrSignature
    | Some signs =>
      inr {| AggregationBits := Some coverage;
             Data := CopyAttestationData (Data att0);
             Signature := Marshal (aggregateSignatures signs) |}
    end
  | _ => inl ErrInvalidAttestationCount
  end.

(** [attList.merge] *)
Definition merge (al al1 : list Attestation) : list Attestation := al ++ al1.

(** [attList.selectUsingKeys] *)
Fixpoint selectUsingKeys (al : list Attestation) (keys : list nat) :
  run (list Attestation) :=
  match keys with
  | [] => Ok []
  | k :: keys' =>
    att ← index al k;
    filtered ← selectUsingKeys al keys';
    Ok (att :: filtered)
  end.

Fixpoint index_of (k : nat) (keys : list nat) : option nat :=
  match keys with
  | [] => None
  | k' :: keys' => if k' =? k then Some 0 else S <$> index_of k keys'
  end.

(** The closure [foundInKeys] of [selectComplementUsingKeys]: a key that is
    found is overwritten by the last key and the list is cut by one. *)
Definition foundInKeys (keys : list nat) (k : nat) : bool * list nat :=
  match index_of k keys with
  | Some i =>
    (true, take (length keys - 1) (<[i := default 0 (last keys)]> keys))
  | None => (false, keys)
  end.

(** The loop of [selectComplementUsingKeys] at position [i], [todo] cells
    from the end of [al]; [filtered] is [arr[:flen]], in [al]'s own array. *)
Fixpoint selectComplement_loop (todo i : nat) (keys : list nat)
    (arr : list Attestation) (flen : nat) : run attList :=
  match todo with
  | 0 => Ok {| array := arr; al_len := flen |}
  | S todo' =>
    att ← index arr i;
    let '(found, keys') := foundInKeys keys i in
    if found then selectComplement_loop todo' (S i) keys' arr flen
    else selectComplement_loop todo' (S i) keys' (<[flen := att]> arr) (S flen)
  end.

(** [attList.selectComplementUsingKeys] *)
Definition selectComplementUsingKeys (al : attList) (keys : list nat) :
  run attList :=
  selectComplement_loop (al_len al) 0 keys (array al) 0.

(** [attList.hasCoverage] *)
Fixpoint hasCoverage (al : list Attestation) (coverage : Bitlist) : run bool :=
  match al with
  | [] => Ok false
  | att :: al' =>
    x ← Xor (bitsOf att) coverage;
    if Count x =? 0 then Ok true else hasCoverage al' coverage
  end.

(** The comparison given to [sort.Slice]: strictly more bits first. *)
Definition more_bits (a b : Attestation) : bool :=
  Count (bitsOf b) <? Count (bitsOf a).

(** The loop of [filterContained] at position [i]. *)
Fixpoint filterContained_loop (todo i : nat) (arr : list Attestation)
    (flen : nat) : run attList :=
  match todo with
  | 0 => Ok {| array := arr; al_len := flen |}
  | S todo' =>
    kept ← index (take flen arr) (flen - 1);
    att ← index arr i;
    c ← Contains (bitsOf kept) (bitsOf att);
    if c : bool then filterContained_loop todo' (S i) arr flen
    else filterContained_loop todo' (S i) (<[flen := att]> arr) (S flen)
  end.

(** [attList.filterContained] *)
Definition filterContained (al : attList) : run attList :=
  if al_len al <? 2 then Ok al
  else
    let arr := sort_Slice Attestation more_bits (items al)
               ++ drop (al_len al) (array al) in
    att0 ← index arr 0;
    filterContained_loop (al_len al - 1) 1 (<[0 := att0]> arr) 1.

(** ** The straightforward engine *)

(** The variables of the loop: [aggregated] has an array of its own,
    [unaggregated] is the first [ulen] cells of the caller's array. *)
Record state : Type := {
  aggregated : list Attestation;
  storage : list Attestation;
  ulen : nat
}.

Definition unaggregated (st : state) : list Attestation :=
  take (ulen st) (storage st).

Inductive round_result : Type :=
| Continue (st : state)
| Break
| Fail (e : error).

(** One pass through the body of the loop; [n] is [len(atts)]. *)
Definition round (n : nat) (st : state) : run round_result :=
  if ulen st <? 2 then Ok Break
  else
    match Cover (NewMaxCover (unaggregated st)) n false with
    | inl e => Ok (Fail (AggregationError e))
    | inr solution =>
      if length (Keys solution) <? 2 then Ok Break
      else
        has ← hasCoverage (aggregated st) (Coverage solution);
        r ← (if has : bool then Ok (inr (aggregated st))
             else
               selected ← selectUsingKeys (unaggregated st) (Keys solution);
               match aggregate selected (Coverage solution) with
               | inl e => Ok (inl e)
               | inr att => Ok (inr (aggregated st ++ [att]))
               end);
        match r with
        | inl e => Ok (Fail e)
        | inr aggregated' =>
          al ← selectComplementUsingKeys
                 {| array := storage st; al_len := ulen st |} (Keys solution);
          Ok (Continue {| aggregated := aggregated';
                          storage := array al;
                          ulen := al_len al |})
        end
    end.

(** The loop [for i := 0; i < len(atts)/2; i++], with [r] passes left.  The
    first component counts the passes made; the second is the state at the
    exit and the error, if the exit is an error return. *)
Fixpoint rounds (r n : nat) (st : state) : nat * run (state * option error) :=
  match r with
  | 0 => (0, Ok (st, None))
  | S r' =>
    match round n st with
    | Panic => (1, Panic)
    | Ok Break => (1, Ok (st, None))
    | Ok (Fail e) => (1, Ok (st, Some e))
    | Ok (Continue st') =>
      let '(c, out) := rounds r' n st' in (S c, out)
    end
  end.

Definition MaxCoverAttestationAggregation (atts : slice Attestation) :
  run returned :=
  if len atts <? 2
  then Ok {| result := atts; err := None; caller_array := elems atts |}
  else
    match validate atts with
    | Some e =>
      if decide (e = AggregationError ErrBitsDifferentLen)
      then Ok {| result := atts; err := None; caller_array := elems atts |}
      else Ok {| result := nil_slice; err := Some e;
                 caller_array := elems atts |}
    | None =>
      let st0 := {| aggregated := []; storage := elems atts;
                    ulen := len atts |} in
      '(st, e) ← (rounds (len atts / 2) (len atts) st0).2;
      match e with
      | Some e =>
        Ok {| result := slice_of (merge (aggregated st) (unaggregated st));
              err := Some e; caller_array := storage st |}
      | None =>
        al ← filterContained {| array := storage st; al_len := ulen st |};
        Ok {| result := slice_of (merge (aggregated st) (items al));
              err := None; caller_array := array al |}
      end
    end.

(** ** The optimized engine *)

(** [optMaxCoverAttestationAggregation] works on pointers, which its helper
    [rearrangeProcessedAttestations] sets to nil: a cell of its arrays is an
    optional value, None for nil. *)
Definition pointers (atts : slice Attestation) : slice (option Attestation) :=
  match atts with
  | nil_slice => nil_slice
  | slice_of l => slice_of (Some <$> l)
  end.

(** [l[i], l[j] = l[j], l[i]] *)
Definition swap {A} (l : list A) (i j : nat) : run (list A) :=
  x ← index l i;
  y ← index l j;
  Ok (<[j := x]> (<[i := y]> l)).

(** The same on the slice [arr[off : off+n]], whose bound is its length. *)
Definition swap_in {A} (arr : list A) (off n i j : nat) : run (list A) :=
  if (i <? n) && (j <? n) then swap arr (off + i) (off + j) else Panic.

(** [s[i] = x] on the slice [arr[off : off+n]]. *)
Definition store_in {A} (arr : list A) (off n i : nat) (x : A) :
  run (list A) :=
  if (i <? n) && (off + i <? length arr) then Ok (<[off + i := x]> arr)
  else Panic.

(** The loop of [aggregateAttestations] over the selected positions. *)
Fixpoint aggregateAttestations_loop (atts : list (option Attestation))
    (indices : list nat) (signs : list bls_Signature)
    (data : option AttestationData) (targetIdx : nat) :
  run (error + (list bls_Signature * option AttestationData * nat)) :=
  match indices with
  | [] => Ok (inr (signs, data, targetIdx))
  | idx :: indices' =>
    p ← index atts idx;
    match p with
    | None => Panic
    | Some att =>
      match signatureFromBytes (Signature att) with
      | None => Ok (inl ErrSignature)
      | Some sig =>
        match data with
        | None =>
          aggregateAttestations_loop atts indices' (signs ++ [sig])
            (CopyAttestationData (Data att)) idx
        | Some _ =>
          aggregateAttestations_loop atts indices' (signs ++ [sig])
            data targetIdx
        end
      end
    end
  end.

(** [aggregateAttestations]: the array after the call and [targetIdx]. *)
Definition aggregateAttestations (atts : list (option Attestation))
    (selectedKeys coverage : Bitlist64) :
  run (error + (list (option Attestation) * nat)) :=
  if Count selectedKeys <? 2 then Ok (inl ErrInvalidAttestationCount)
  else
    r ← aggregateAttestations_loop atts (BitIndices selectedKeys) [] None 0;
    match r with
    | inl e => Ok (inl e)
    | inr (signs, data, targetIdx) =>
      atts' ← store_in atts 0 (length atts) targetIdx
                (Some {| AggregationBits := Some (Bytes64 coverage);
                         Data := data;
                         Signature := Marshal (aggregateSignatures signs) |});
      Ok (inr (atts', targetIdx))
    end.

(** First loop of [rearrangeProcessedAttestations]: the processed cells of
    [atts] and of [candidates = cands[off : off+n]] are set to nil. *)
Fixpoint rearrange_clear (processedKeys : list nat)
    (atts : list (option Attestation)) (cands : list (option Bitlist64))
    (off n : nat) :
  run (list (option Attestation) * list (option Bitlist64)) :=
  match processedKeys with
  | [] => Ok (atts, cands)
  | idx :: keys' =>
    atts' ← store_in atts 0 (length atts) idx None;
    cands' ← store_in cands off n idx None;
    rearrange_clear keys' atts' cands' off n
  end.

(** [for idx1 > idx0 && atts[idx1] == nil { idx1-- }] *)
Fixpoint skip_nil (atts : list (option Attestation)) (idx0 idx1 : nat) :
  run nat :=
  match idx1 with
  | 0 => Ok 0
  | S idx1' =>
    if idx0 <? idx1 then
      p ← index atts idx1;
      match p with
      | None => skip_nil atts idx0 idx1'
      | Some _ => Ok idx1
      end
    else Ok idx1
  end.

(** Second loop: each processed cell is swapped with the last cell that is
    not nil. *)
Fixpoint rearrange_move (processedKeys : list nat)
    (atts : list (option Attestation)) (cands : list (option Bitlist64))
    (off n : nat) :
  run (list (option Attestation) * list (option Bitlist64)) :=
  match processedKeys with
  | [] => Ok (atts, cands)
  | idx0 :: keys' =>
    idx1 ← skip_nil atts idx0 (length atts - 1);
    if idx0 =? idx1 then rearrange_move keys' atts cands off n
    else
      atts' ← swap atts idx0 idx1;
      cands' ← swap_in cands off n idx0 idx1;
      rearrange_move keys' atts' cands' off n
  end.

(** [rearrangeProcessedAttestations]; its three arguments are never nil
    slices where the engine calls it. *)
Definition rearrangeProcessedAttestations (atts : list (option Attestation))
    (cands : list (option Bitlist64)) (off n : nat)
    (processedKeys : list nat) :
  run (list (option Attestation) * list (option Bitlist64)) :=
  '(atts', cands') ← rearrange_clear processedKeys atts cands off n;
  rearrange_move processedKeys atts' cands' off n.

Fixpoint deref_all (l : list (option Attestation)) :
  run (list Attestation) :=
  match l with
  | [] => Ok []
  | None :: _ => Panic
  | Some att :: l' => al ← deref_all l'; Ok (att :: al)
  end.

(** [filterContainedAttestations]: with two cells or more every cell is
    dereferenced by the comparison of [sort.Slice]. *)
Definition filterContainedAttestations (atts : list (option Attestation)) :
  run (list (option Attestation)) :=
  if length atts <? 2 then Ok atts
  else
    al ← deref_all atts;
    filtered ← filterContained {| array := al; al_len := length al |};
    Ok (Some <$> items filtered).

(** The variables of the loop.  All the slices are views of two arrays:
    [aggregated = atts[:agg_len]],
    [unaggregated = atts[unagg_off : unagg_off + unagg_len]] and
    [candidates = cand_array[cand_off : cand_off + cand_len]]. *)
Record opt_state : Type := {
  atts_array : list (option Attestation);
  cand_array : list (option Bitlist64);
  cand_off : nat;
  cand_len : nat;
  agg_len : nat;
  unagg_off : nat;
  unagg_len : nat;
  coveredBitsSoFar : Bitlist64
}.

Definition opt_aggregated (st : opt_state) : list (option Attestation) :=
  take (agg_len st) (atts_array st).

Definition opt_unaggregated (st : opt_state) : list (option Attestation) :=
  take (unagg_len st) (drop (unagg_off st) (atts_array st)).

Definition candidates (st : opt_state) : list (option Bitlist64) :=
  take (cand_len st) (drop (cand_off st) (cand_array st)).

Inductive opt_round_result : Type :=
| OptContinue (st : opt_state)
| OptBreak
| OptFail (e : error).

(** The part of the body that materializes the aggregate, taken when the
    coverage has a bit that is not covered so far. *)
Definition opt_materialize (st : opt_state)
    (selectedKeys coverage : Bitlist64) :
  run (error + (opt_state * Bitlist64)) :=
  r ← aggregateAttestations (atts_array st) selectedKeys coverage;
  match r with
  | inl e => Ok (inl e)
  | inr (atts1, aggIdx) =>
    let idx0 := agg_len st in
    '(atts2, cands2, agg_len2) ←
      (if idx0 <? aggIdx then
         a ← swap atts1 idx0 aggIdx;
         c ← swap_in (cand_array st) (cand_off st) (cand_len st) idx0 aggIdx;
         Ok (a, c, idx0 + 1)
       else Ok (atts1, cand_array st, agg_len st));
    if (1 <=? unagg_len st) && (1 <=? cand_len st) then
      covered ← NoAllocOr (coveredBitsSoFar st) coverage;
      Ok (inr ({| atts_array := atts2;
                  cand_array := cands2;
                  cand_off := cand_off st + 1;
                  cand_len := cand_len st - 1;
                  agg_len := agg_len2;
                  unagg_off := unagg_off st + 1;
                  unagg_len := unagg_len st - 1;
                  coveredBitsSoFar := covered |},
               SetBitAt selectedKeys aggIdx false))
    else Panic
  end.

(** The end of the body: the processed cells are moved to the end and the
    two slices are cut; a bound below zero or above the capacity panics. *)
Definition opt_remove_processed (st : opt_state) (selectedKeys : Bitlist64) :
  run opt_state :=
  let processedKeys := BitIndices selectedKeys in
  '(atts', cands') ←
    rearrangeProcessedAttestations (atts_array st) (cand_array st)
      (cand_off st) (cand_len st) processedKeys;
  if length processedKeys <=? unagg_len st then
    let unagg_len' := unagg_len st - length processedKeys in
    if (length processedKeys <=? unagg_len')
       && (cand_off st + (unagg_len' - length processedKeys)
           <=? length cands')
    then
      Ok {| atts_array := atts';
            cand_array := cands';
            cand_off := cand_off st;
            cand_len := unagg_len' - length processedKeys;
            agg_len := agg_len st;
            unagg_off := unagg_off st;
            unagg_len := unagg_len';
            coveredBitsSoFar := coveredBitsSoFar st |}
    else Panic
  else Panic.

(** One pass through the body of the loop. *)
Definition opt_round (st : opt_state) : run opt_round_result :=
  if unagg_len st <? 2 then Ok OptBreak
  else
    match MaxCover (candidates st) (cand_len st) false with
    | inl e => Ok (OptFail (AggregationError e))
    | inr (selectedKeys, coverage) =>
      if Count selectedKeys <? 2 then Ok OptBreak
      else
        xc ← XorCount (coveredBitsSoFar st) coverage;
        r ← (if 0 <? xc then opt_materialize st selectedKeys coverage
             else Ok (inr (st, selectedKeys)));
        match r with
        | inl e => Ok (OptFail e)
        | inr (st1, selectedKeys1) =>
          st2 ← opt_remove_processed st1 selectedKeys1;
          Ok (OptContinue st2)
        end
    end.

Fixpoint opt_rounds (r : nat) (st : opt_state) :
  nat * run (opt_state * option error) :=
  match r with
  | 0 => (0, Ok (st, None))
  | S r' =>
    match opt_round st with
    | Panic => (1, Panic)
    | Ok OptBreak => (1, Ok (st, None))
    | Ok (OptFail e) => (1, Ok (st, Some e))
    | Ok (OptContinue st') =>
      let '(c, out) := opt_rounds r' st' in (S c, out)
    end
  end.

(** What the optimized engine hands back: the slice and the error. *)
Record opt_returned : Type := {
  opt_result : slice (option Attestation);
  opt_err : option error
}.

Definition optMaxCoverAttestationAggregation (atts : slice Attestation) :
  run opt_returned :=
  if len atts <? 2
  then Ok {| opt_result := pointers atts; opt_err := None |}
  else
    match validateAttestations atts with
    | Some e =>
      if decide (e = AggregationError ErrBitsDifferentLen)
      then Ok {| opt_result := pointers atts; opt_err := None |}
      else Ok {| opt_result := nil_slice; opt_err := Some e |}
    | None =>
      let cands :=
        (λ att, Some (NewBitlist64FromBytes (bitsOf att))) <$> elems atts in
      c0 ← index cands 0;
      let st0 := {| atts_array := Some <$> elems atts;
                    cand_array := cands;
                    cand_off := 0;
                    cand_len := length cands;
                    agg_len := 0;
                    unagg_off := 0;
                    unagg_len := len atts;
                    coveredBitsSoFar :=
                      NewBitlist64 (Len (default [] c0)) |} in
      '(st, e) ← (opt_rounds (len atts / 2) st0).2;
      match e with
      | Some e =>
        Ok {| opt_result :=
                slice_of (opt_aggregated st ++ opt_unaggregated st);
              opt_err := Some e |}
      | None =>
        filtered ← filterContainedAttestations (opt_unaggregated st);
        Ok {| opt_result := slice_of (opt_aggregated st ++ filtered);
              opt_err := None |}
      end
    end.

End Engine.

(** ** Stand-ins for the collaborators *)

(** Modelled from the spec: the coverage solver (package [aggregation]) is
    not part of the sources.  One run of the greedy selection: start from
    an empty covered vector and an empty selection; repeatedly choose, among
    the candidates not yet selected whose bits are disjoint from those of
    every selected candidate, the one with the largest popcount, the lowest
    position winning a tie; stop when there is none, when it adds no new
    bit, or when the budget [k] is used up.  When overlaps are allowed the
    disjointness filter is skipped and the choice is by the number of new
    bits. *)
Definition new_bits (covered b : Bitlist) : nat :=
  Count (band b (bnot covered)).

Definition score (allowOverlaps : bool) (covered b : Bitlist) : nat :=
  if allowOverlaps then new_bits covered b else Count b.

Definition admissible (allowOverlaps : bool)
    (selected : list (nat * MaxCoverCandidate)) (i : nat)
    (c : MaxCoverCandidate) : bool :=
  forallb (λ s, negb (s.1 =? i)) selected
  && (allowOverlaps
      || forallb (λ s, Count (band (bits s.2) (bits c)) =? 0) selected).

Fixpoint choose (allowOverlaps : bool) (covered : Bitlist)
    (selected : list (nat * MaxCoverCandidate)) (i : nat)
    (cands : list MaxCoverCandidate)
    (best : option (nat * MaxCoverCandidate)) :
  option (nat * MaxCoverCandidate) :=
  match cands with
  | [] => best
  | c :: cands' =>
    let better :=
      match best with
      | None => true
      | Some b =>
        score allowOverlaps covered (bits b.2)
        <? score allowOverlaps covered (bits c)
      end in
    choose allowOverlaps covered selected (S i) cands'
      (if admissible allowOverlaps selected i c && better
       then Some (i, c) else best)
  end.

Fixpoint greedy (k : nat) (allowOverlaps : bool)
    (cands : list MaxCoverCandidate) (covered : Bitlist)
    (selected : list (nat * MaxCoverCandidate)) :
  Bitlist * list (nat * MaxCoverCandidate) :=
  match k with
  | 0 => (covered, selected)
  | S k' =>
    match choose allowOverlaps covered selected 0 cands None with
    | None => (covered, selected)
    | Some (i, c) =>
      if new_bits covered (bits c) =? 0 then (covered, selected)
      else greedy k' allowOverlaps cands (bor covered (bits c))
             (selected ++ [(i, c)])
    end
  end.

(** Modelled from the spec: [Cover] fails with the invalid-problem error on
    an empty candidate list or a candidate of length zero; its solution lists
    the keys of the chosen candidates in the order they were chosen. *)
Definition spec_Cover (p : MaxCoverProblem) (k : nat) (allowOverlaps : bool) :
  aggregation_error + Aggregation :=
  match p with
  | [] => inl ErrInvalidMaxCoverProblem
  | c0 :: _ =>
    if existsb (λ c, Len (bits c) =? 0) p then inl ErrInvalidMaxCoverProblem
    else
      let '(covered, selected) :=
        greedy k allowOverlaps p (zeros (Len (bits c0))) [] in
      inr {| Coverage := covered; Keys := (λ s, key s.2) <$> selected |}
  end.

Fixpoint all_present (cands : list (option Bitlist64)) :
  option (list Bitlist64) :=
  match cands with
  | [] => Some []
  | None :: _ => None
  | Some b :: cands' =>
    match all_present cands' with
    | None => None
    | Some bs => Some (b :: bs)
    end
  end.

(** Modelled from the spec: [MaxCover] is the same selection on [Bitlist64]
    candidates; a nil candidate is an invalid problem, and the selection is
    returned as a bit vector over the candidate positions. *)
Definition spec_MaxCover (cands : list (option Bitlist64)) (k : nat)
    (allowOverlaps : bool) : aggregation_error + (Bitlist64 * Bitlist64) :=
  match all_present cands with
  | None => inl ErrInvalidMaxCoverProblem
  | Some bs =>
    match spec_Cover (imap NewMaxCoverCandidate bs) k allowOverlaps with
    | inl e => inl e
    | inr sol =>
      inr (foldr (λ i sel, SetBitAt sel i true)
             (NewBitlist64 (length cands)) (Keys sol),
           Coverage sol)
    end
  end.

(** [sort.Slice] on a short slice is an insertion sort: each element moves
    left while it is less than its left neighbour.  [sorted] is the sorted
    prefix, last element first. *)
Fixpoint insert_left {A} (less : A → A → bool) (x : A) (sorted : list A) :
  list A :=
  match sorted with
  | [] => [x]
  | y :: sorted' =>
    if less x y then y :: insert_left less x sorted' else x :: sorted
  end.

Definition insertion_sort (A : Type) (less : A → A → bool) (l : list A) :
  list A :=
  reverse (foldl (λ sorted x, insert_left less x sorted) [] l).

(** Modelled from the spec: the signature scheme is outside the sources; a
    stand-in with the contract of the signature aggregator: decoding fails on
    malformed (here: empty) bytes, and aggregation is commutative and
    associative (here: a sum).  The vote payload is opaque. *)
Definition toy_signatureFromBytes (b : list Byte.byte) : option nat :=
  match b with
  | [] => None
  | _ => Some (length b)
  end.

Definition toy_aggregateSignatures (signs : list nat) : nat :=
  foldr Nat.add 0 signs.

Definition toy_Marshal (sig : nat) : list Byte.byte :=
  replicate sig Byte.x01.

(** Modelled from the spec: the byte form of a bit vector is decoded to the
    bits it was encoded from, so the candidate made from the bytes of a bit
    vector has its bits and its length. *)
Definition spec_NewBitlist64FromBytes (b : Bitlist) : Bitlist64 := b.

Definition spec_collaborators : Collaborators := {|
  AttestationData := nat;
  bls_Signature := nat;
  signatureFromBytes := toy_signatureFromBytes;
  aggregateSignatures := toy_aggregateSignatures;
  Marshal := toy_Marshal;
  Cover := spec_Cover;
  MaxCover := spec_MaxCover;
  NewBitlist64FromBytes := spec_NewBitlist64FromBytes;
  sort_Slice := insertion_sort
|}.

(** An attestation with the given bits, voting for payload 7, signed. *)
Definition att_of (b : Bitlist) : @Attestation spec_collaborators :=
  @Build_Attestation spec_collaborators (Some b) (Some 7) [Byte.x01].

(** The same without a signature that decodes. *)
Definition unsigned_att_of (b : Bitlist) : @Attestation spec_collaborators :=
  @Build_Attestation spec_collaborators (Some b) (Some 7) [].

(** Example batches: the three attestations of scenario A; two disjoint
    attestations; a batch whose largest attestation overlaps the two others;
    a batch that the engine sorts; a batch of two lengths; a batch with a
    signature that does not decode. *)
Definition scenario_A : list (@Attestation spec_collaborators) :=
  [att_of [true; false; false; true; false; false];
   att_of [false; true; false; false; true; false];
   att_of [false; false; true; false; false; false]].

Definition two_disjoint : list (@Attestation spec_collaborators) :=
  [att_of [true; false]; att_of [false; true]].

Definition overlapping_batch : list (@Attestation spec_collaborators) :=
  [att_of [true; true; true; false];
   att_of [false; false; true; true];
   att_of [true; false; false; false]].

Definition pair_and_subset : list (@Attestation spec_collaborators) :=
  [att_of [true; true; false; false];
   att_of [false; false; true; true];
   att_of [true; false; false; false]].

Definition unsorted_batch : list (@Attestation spec_collaborators) :=
  [att_of [true; false]; att_of [true; true]].

Definition mixed_lengths : list (@Attestation spec_collaborators) :=
  [att_of [true; false]; att_of [false; true; true]].

Definition badly_signed : list (@Attestation spec_collaborators) :=
  [unsigned_att_of [true; false]; att_of [false; true]].

(** The selection made so far: its positions hold the chosen candidates,
    and the covered vector is the union of their bits. *)
Definition selection_of (p : MaxCoverProblem) (L : nat)
    (covered : Bitlist) (selected : list (nat * MaxCoverCandidate)) : Prop :=
  Len covered = L
  ∧ (∀ s, s ∈ selected → p !! s.1 = Some s.2)
  ∧ (∀ b, BitAt covered b = true ↔
          ∃ s, s ∈ selected ∧ BitAt (bits s.2) b = true).

(** ** Vocabulary of the properties *)

Section Vocabulary.
Context `{!Collaborators}.

(** Bit [i] is set in some attestation of the list. *)
Definition covers (l : list Attestation) (i : nat) : bool :=
  existsb (λ att, BitAt (bitsOf att) i) l.

(** Every bit of [c] is a bit of [b]. *)
Definition subset_bits (c b : Bitlist) : Prop :=
  ∀ i, BitAt c i = true → BitAt b i = true.

(** [c] is a strict subset of [b]. *)
Definition strict_subset_bits (c b : Bitlist) : Prop :=
  subset_bits c b ∧ ¬ subset_bits b c.

(** A valid batch: every bit vector is there and has the length [L] > 0. *)
Definition valid_batch (L : nat) (atts : list Attestation) : Prop :=
  0 < L ∧
  Forall (λ att, AggregationBits att ≠ None ∧ Len (bitsOf att) = L) atts.

(** The contract of a solution: on candidates of one length with distinct
    keys, the coverage has that length, every key is the key of a candidate,
    and the coverage is the union of the bits of the candidates whose key
    was selected. *)
Definition Cover_sound : Prop :=
  ∀ (p : MaxCoverProblem) (k L : nat) (sol : Aggregation),
    p ≠ [] →
    NoDup (key <$> p) →
    Forall (λ c, Len (bits c) = L) p →
    Cover p k false = inr sol →
    Len (Coverage sol) = L
    ∧ (∀ j, j ∈ Keys sol → ∃ c, c ∈ p ∧ key c = j)
    ∧ (∀ i, BitAt (Coverage sol) i = true ↔
            ∃ c, c ∈ p ∧ key c ∈ Keys sol ∧ BitAt (bits c) i = true).

(** [b] may follow [a] in a slice sorted with the comparison of
    [filterContained]: [b] is not less than [a]. *)
Definition by_count (a b : Attestation) : Prop := more_bits b a = false.

(** The contract of [sort.Slice] with that comparison: the slice is
    permuted, and afterwards no element is less than the one before it. *)
Definition sort_Slice_sound : Prop :=
  ∀ l : list Attestation,
    sort_Slice Attestation more_bits l ≡ₚ l
    ∧ Sorted by_count (sort_Slice Attestation more_bits l).

(** What [selectComplementUsingKeys] keeps of the cells [i], [i+1], ... *)
Fixpoint complement_of (keys : list nat) (i : nat) (l : list Attestation) :
  list Attestation :=
  match l with
  | [] => []
  | att :: l' =>
    let '(found, keys') := foundInKeys keys i in
    if found then complement_of keys' (S i) l'
    else att :: complement_of keys' (S i) l'
  end.

(** What the pass of [filterContained] keeps of [l] after [kept]. *)
Fixpoint keep_uncontained (kept : Attestation) (l : list Attestation) :
  run (list Attestation) :=
  match l with
  | [] => Ok []
  | att :: l' =>
    c ← Contains (bitsOf kept) (bitsOf att);
    if c : bool then keep_uncontained kept l'
    else filtered ← keep_uncontained att l'; Ok (att :: filtered)
  end.

(** In a list, no element is a subset of the element just before it, and
    the popcounts do not increase. *)
Fixpoint no_adjacent_containment (l : list Attestation) : Prop :=
  match l with
  | x :: (y :: _) as l' =>
    ¬ subset_bits (bitsOf y) (bitsOf x)
    ∧ Count (bitsOf y) ≤ Count (bitsOf x)
    ∧ no_adjacent_containment l'
  | _ => True
  end.

(** The invariant of the loop of the straightforward engine, on a batch
    [atts] of bit vectors of length [L]: the caller's array keeps its length
    and holds attestations of the batch, the unaggregated attestations are
    taken from the batch in their order, and the aggregated and the
    unaggregated ones together cover the bits of the batch. *)
Definition round_invariant (L : nat) (atts : list Attestation) (st : state) :
  Prop :=
  length (storage st) = length atts
  ∧ ulen st ≤ length atts
  ∧ (∀ x, x ∈ storage st → x ∈ atts)
  ∧ unaggregated st `sublist_of` atts
  ∧ Forall (λ att, Len (bitsOf att) = L) (aggregated st)
  ∧ (∀ i, covers (aggregated st ++ unaggregated st) i = covers atts i).

(** What holds of the caller's array whatever the solver answers: it keeps
    its length and holds attestations of the batch, and the unaggregated
    attestations are taken from the batch in their order. *)
Definition frame_invariant (atts : list Attestation) (st : state) : Prop :=
  length (storage st) = length atts
  ∧ ulen st ≤ length atts
  ∧ (∀ x, x ∈ storage st → x ∈ atts)
  ∧ unaggregated st `sublist_of` atts.

(** The state of the straightforward engine when its loop is left, and the
    error if it is left by an error return. *)
Definition loop_exit (atts : list Attestation) :
  run (state * option error) :=
  (rounds (length atts / 2) (length atts)
     {| aggregated := []; storage := atts; ulen := length atts |}).2.

(** The number of passes that the loop makes on a batch. *)
Definition rounds_made (atts : list Attestation) : nat :=
  (rounds (length atts / 2) (length atts)
     {| aggregated := []; storage := atts; ulen := length atts |}).1.

(** The same for the optimized engine. *)
Definition opt_initial (atts : list Attestation) : opt_state :=
  {| atts_array := Some <$> atts;
     cand_array := (λ att, Some (NewBitlist64FromBytes (bitsOf att))) <$> atts;
     cand_off := 0;
     cand_len := length atts;
     agg_len := 0;
     unagg_off := 0;
     unagg_len := length atts;
     coveredBitsSoFar :=
       NewBitlist64
         (Len (default []
                 (head ((λ att, NewBitlist64FromBytes (bitsOf att))
                          <$> atts)))) |}.

Definition opt_loop_exit (atts : list Attestation) :
  run (opt_state * option error) :=
  (opt_rounds (length atts / 2) (opt_initial atts)).2.

Definition opt_rounds_made (atts : list Attestation) : nat :=
  (opt_rounds (length atts / 2) (opt_initial atts)).1.

(** The cells of [l] whose position, counted from [i], is not one of
    [keys]. *)
Fixpoint cells_not_in (keys : list nat) (i : nat) (l : list Attestation) :
  list Attestation :=
  match l with
  | [] => []
  | att :: l' =>
    if bool_decide (i ∈ keys) then cells_not_in keys (S i) l'
    else att :: cells_not_in keys (S i) l'
  end.

(** On candidates with distinct keys, a solution does not list a key
    twice. *)
Definition Cover_distinct : Prop :=
  ∀ (p : MaxCoverProblem) (k : nat) (sol : Aggregation),
    NoDup (key <$> p) → Cover p k false = inr sol → NoDup (Keys sol).

(** The position that [aggregateAttestations] writes to when the selected
    attestations carry the vote data [d]: [targetIdx] is set as long as
    [data] is nil, so it is the first selected position when [d] is not nil
    and the last one when it is. *)
Definition target_index (d : option AttestationData) (indices : list nat) :
  nat :=
  match d with
  | Some _ => default 0 (head indices)
  | None => default 0 (last indices)
  end.

(** An array of pointers after the cells at [keys] are set to nil. *)
Definition cleared {A} (keys : list nat) (l : list (option A)) :
  list (option A) :=
  imap (λ i p, if bool_decide (i ∈ keys) then None else p) l.

(** Between the two loops of [rearrangeProcessedAttestations]: a nil cell
    is one of the cells from some position [t] on, or a cell at one of the
    keys still to be moved. *)
Definition nils_at (keys : list nat) (atts : list (option Attestation)) :
  Prop :=
  ∃ t, (∀ j, t ≤ j → j < length atts → atts !! j = Some None)
       ∧ (∀ j, j < t → atts !! j = Some None → j ∈ keys).

(** [agg] is the aggregate of two attestations or more taken from [atts],
    no cell twice: it is what [aggregate] builds from them, and its bits are
    the union of their bits. *)
Definition built_from (atts : list Attestation) (agg : Attestation) : Prop :=
  ∃ selected,
    2 ≤ length selected
    ∧ selected ⊆+ atts
    ∧ aggregate selected (bitsOf agg) = inr agg
    ∧ ∀ i, BitAt (bitsOf agg) i = true ↔
           ∃ x, x ∈ selected ∧ BitAt (bitsOf x) i = true.

(** What the loop of the straightforward engine keeps besides
    [round_invariant] when the solver lists no key twice: every aggregate
    stands for two unaggregated attestations or more that are gone, the
    aggregates are built from attestations of the batch, and no two
    aggregates have the same bits. *)
Definition aggregation_invariant (L : nat) (atts : list Attestation)
    (st : state) : Prop :=
  round_invariant L atts st
  ∧ 2 * length (aggregated st) + ulen st ≤ length atts
  ∧ Forall (built_from atts) (aggregated st)
  ∧ NoDup (bitsOf <$> aggregated st).

(** The nil cells of an array of pointers are its last cells. *)
Definition nils_last {A} (l : list (option A)) : Prop :=
  ∃ live, Forall is_Some live ∧
          l = live ++ replicate (length l - length live) None.

End Vocabulary.

(** ** Bit vectors: facts *)

Lemma bool_eq_iff (a b : bool) : (a = true ↔ b = true) → a = b.
Proof. destruct a, b; intuition congruence. Qed.

Lemma same_len_true b c : same_len b c = true ↔ Len b = Len c.
Proof. unfold same_len. apply Nat.eqb_eq. Qed.

Lemma BitAt_nil i : BitAt [] i = false.
Proof. by destruct i. Qed.

Lemma BitAt_cons_0 x b : BitAt (x :: b) 0 = x.
Proof. done. Qed.

Lemma BitAt_cons_S x b i : BitAt (x :: b) (S i) = BitAt b i.
Proof. done. Qed.

Lemma BitAt_zeros n i : BitAt (zeros n) i = false.
Proof.
  unfold BitAt, zeros. destruct (replicate n false !! i) as [x|] eqn:E;
    [|done].
  apply lookup_replicate in E. by destruct E as [-> _].
Qed.

Lemma Len_bor b c : Len b = Len c → Len (bor b c) = Len b.
Proof.
  unfold Len, bor. intros E. rewrite length_zip_with. lia.
Qed.

Lemma BitAt_bor b c i :
  Len b = Len c → BitAt (bor b c) i = BitAt b i || BitAt c i.
Proof.
  unfold Len, bor. revert c i.
  induction b as [|x b IH]; intros [|y c] i E; simplify_eq/=.
  - by rewrite BitAt_nil.
  - destruct i; [done|]. rewrite !BitAt_cons_S. by apply IH.
Qed.

Lemma Count_band_le b c : Count (band b c) ≤ Count c.
Proof.
  unfold band. revert c.
  induction b as [|x b IH]; intros [|y c]; simpl; try lia.
  specialize (IH c). destruct x, y; simpl; lia.
Qed.


Lemma Count_band_subset b c :
  Len b = Len c → (Count (band b c) = Count c ↔ subset_bits c b).
Proof.
  unfold Len, band, subset_bits. revert c.
  induction b as [|x b IH]; intros [|y c] E; simplify_eq/=.
  - split; [|done]. intros _ i. by rewrite BitAt_nil.
  - pose proof (Count_band_le b c) as Hle. unfold band in Hle.
    specialize (IH c E). split.
    + intros Hc i. destruct i as [|i].
      * rewrite !BitAt_cons_0. destruct x, y; simpl in *; try done; lia.
      * rewrite !BitAt_cons_S. apply IH. destruct x, y; simpl in *; lia.
    + intros Hi. assert (Hc : Count (zip_with andb b c) = Count c).
      { apply IH. intros i. apply (Hi (S i)). }
      specialize (Hi 0). rewrite !BitAt_cons_0 in Hi.
      destruct x, y; simpl in *; try lia. 
Qed.

Lemma Count_bxor_0 b c : Len b = Len c → (Count (bxor b c) = 0 ↔ b = c).
Proof.
  unfold Len, bxor. revert c.
  induction b as [|x b IH]; intros [|y c] E; simplify_eq/=; [done|].
  specialize (IH c E). split.
  - intros Hc. assert (b = c) as -> by (apply IH; destruct x, y; simpl in *; lia).
    destruct x, y; simpl in *; try done; lia.
  - intros [= -> ->]. destruct y; simpl; apply IH; done.
Qed.

Lemma Contains_Ok b c r :
  Contains b c = Ok r → Len b = Len c ∧ (r = true ↔ subset_bits c b).
Proof.
  unfold Contains. destruct (same_len b c) eqn:E; [|done].
  apply same_len_true in E. intros [= <-]. split; [done|].
  rewrite Nat.eqb_eq. by apply Count_band_subset.
Qed.

Lemma Contains_same_len b c :
  Len b = Len c → ∃ r, Contains b c = Ok r.
Proof.
  intros E. unfold Contains. apply same_len_true in E. rewrite E. eauto.
Qed.

Lemma subset_bits_Count c b :
  Len b = Len c → subset_bits c b → Count c ≤ Count b.
Proof.
  intros E H. apply Count_band_subset in H; [|done]. rewrite <-H.
  unfold band. clear. revert c.
  induction b as [|x b IH]; intros [|y c]; simpl; try lia.
  specialize (IH c). destruct x, y; simpl; lia.
Qed.

(** ** The loops that filter a slice in its own array *)

Section InPlace.
Context `{!Collaborators}.

Lemma index_Some {A} (l : list A) i x : l !! i = Some x → index l i = Ok x.
Proof. unfold index. by intros ->. Qed.

Lemma index_Ok {A} (l : list A) i x : index l i = Ok x → l !! i = Some x.
Proof. unfold index. by destruct (l !! i); intros [= ->]. Qed.

(** The loop of [selectComplementUsingKeys] writes what it keeps over the
    front of the array and leaves the rest of the array as it is. *)
Lemma selectComplement_loop_spec todo : ∀ i keys arr flen,
  flen ≤ i → i + todo ≤ length arr →
  selectComplement_loop todo i keys arr flen =
  Ok {| array := take flen arr
                 ++ complement_of keys i (take todo (drop i arr))
                 ++ drop (flen + length
                            (complement_of keys i (take todo (drop i arr))))
                      arr;
        al_len := flen + length
                    (complement_of keys i (take todo (drop i arr))) |}.
Proof.
  induction todo as [|todo IH]; intros i keys arr flen Hf Hi; simpl.
  - rewrite Nat.add_0_r, take_drop. done.
  - destruct (lookup_lt_is_Some_2 arr i) as [att Hatt]; [lia|].
    rewrite (index_Some _ _ _ Hatt). simpl.
    rewrite (drop_S _ _ _ Hatt). simpl.
    destruct (foundInKeys keys i) as [found keys'].
    destruct found.
    + by rewrite IH by lia.
    + rewrite IH by (rewrite ?length_insert; lia).
      rewrite !drop_insert_lt by lia.
      assert (Hl : flen < length arr) by lia.
      rewrite (take_S_r (<[flen:=att]> arr) flen att)
        by (by apply list_lookup_insert_eq).
      rewrite take_insert_ge by lia. simpl.
      rewrite <-!app_assoc. simpl.
      repeat f_equal; lia.
Qed.

Lemma selectComplementUsingKeys_spec arr n keys :
  n ≤ length arr →
  selectComplementUsingKeys {| array := arr; al_len := n |} keys =
  Ok {| array := complement_of keys 0 (take n arr)
                 ++ drop (length (complement_of keys 0 (take n arr))) arr;
        al_len := length (complement_of keys 0 (take n arr)) |}.
Proof.
  intros Hn. unfold selectComplementUsingKeys. simpl.
  by rewrite selectComplement_loop_spec by lia.
Qed.

(** The loop of [filterContained] does the same with what it keeps. *)
Lemma filterContained_loop_spec todo : ∀ i arr flen kept,
  0 < flen → flen ≤ i → i + todo ≤ length arr →
  arr !! (flen - 1) = Some kept →
  filterContained_loop todo i arr flen =
  filtered ← keep_uncontained kept (take todo (drop i arr));
  Ok {| array := take flen arr ++ filtered
                 ++ drop (flen + length filtered) arr;
        al_len := flen + length filtered |}.
Proof.
  induction todo as [|todo IH]; intros i arr flen kept H0 Hf Hi Hk; simpl.
  - rewrite Nat.add_0_r, take_drop. done.
  - destruct (lookup_lt_is_Some_2 arr i) as [att Hatt]; [lia|].
    rewrite (index_Some (take flen arr) (flen - 1) kept)
      by (rewrite lookup_take_lt by lia; done).
    rewrite (index_Some _ _ _ Hatt). simpl.
    rewrite (drop_S _ _ _ Hatt). simpl.
    destruct (Contains (bitsOf kept) (bitsOf att)) as [[]|]; simpl; [| |done].
    + by rewrite (IH _ _ _ kept) by (done || lia).
    + assert (Hl : flen < length arr) by lia.
      rewrite (IH _ _ _ att);
        [|lia|lia|rewrite length_insert; lia
         |replace (S flen - 1) with flen by lia;
          by apply list_lookup_insert_eq].
      rewrite !drop_insert_lt by lia.
      destruct (keep_uncontained att (take todo (drop (S i) arr)))
        as [filtered|]; simpl; [|done].
      rewrite !drop_insert_lt by lia.
      rewrite (take_S_r (<[flen:=att]> arr) flen att)
        by (by apply list_lookup_insert_eq).
      rewrite take_insert_ge by lia.
      rewrite <-!app_assoc. simpl.
      repeat f_equal; lia.
Qed.

End InPlace.

(** ** What the two filters keep *)

Section Filters.
Context `{!Collaborators}.

Lemma index_of_Some k keys i : index_of k keys = Some i → keys !! i = Some k.
Proof.
  revert i. induction keys as [|k' keys IH]; intros i; simpl; [done|].
  destruct (Nat.eqb_spec k' k) as [->|Hne].
  - by intros [= <-].
  - destruct (index_of k keys) as [j|]; simpl; [|done].
    intros [= <-]. by apply IH.
Qed.

Lemma foundInKeys_true keys k keys' :
  foundInKeys keys k = (true, keys') → k ∈ keys ∧ keys' ⊆ keys.
Proof.
  unfold foundInKeys. destruct (index_of k keys) as [i|] eqn:E; [|done].
  intros [= <-]. apply index_of_Some in E. split.
  - by eapply list_elem_of_lookup_2.
  - intros x Hx. apply subseteq_take in Hx.
    apply list_elem_of_lookup_1 in Hx as [j Hj].
    apply list_lookup_insert_Some in Hj as [(_ & <- & _)|[_ Hj]].
    + destruct (last keys) as [y|] eqn:El; simpl.
      * rewrite last_lookup in El. by eapply list_elem_of_lookup_2.
      * apply last_None in El. by subst.
    + by eapply list_elem_of_lookup_2.
Qed.

Lemma foundInKeys_false keys k keys' :
  foundInKeys keys k = (false, keys') → keys' = keys.
Proof.
  unfold foundInKeys. destruct (index_of k keys); [done|]. by intros [= <-].
Qed.

(** The complement is taken from the slice ... *)
Lemma complement_of_sublist l : ∀ keys i,
  complement_of keys i l `sublist_of` l.
Proof.
  induction l as [|att l IH]; intros keys i; simpl; [done|].
  destruct (foundInKeys keys i) as [[] keys'].
  - by apply sublist_cons.
  - by apply sublist_skip.
Qed.

(** ... and drops a cell only when its position is one of the keys. *)
Lemma complement_of_keeps l : ∀ keys i j x,
  l !! j = Some x → x ∈ complement_of keys i l ∨ i + j ∈ keys.
Proof.
  induction l as [|att l IH]; intros keys i j x Hj; simpl; [done|].
  destruct (foundInKeys keys i) as [found keys'] eqn:E.
  destruct j as [|j]; simpl in Hj.
  - simplify_eq. destruct found.
    + right. rewrite Nat.add_0_r. by apply foundInKeys_true in E as [? _].
    + left. apply list_elem_of_here.
  - destruct (IH keys' (S i) j x Hj) as [Hx|Hk].
    + left. destruct found; [done|]. by apply list_elem_of_further.
    + right. replace (i + S j) with (S i + j) by lia.
      destruct found.
      * apply foundInKeys_true in E as [_ Hs]. by apply Hs.
      * apply foundInKeys_false in E. by subst.
Qed.

Lemma complement_of_length l keys i : length (complement_of keys i l) ≤ length l.
Proof. apply sublist_length, complement_of_sublist. Qed.

Lemma by_count_le a b :
  by_count a b ↔ Count (bitsOf b) ≤ Count (bitsOf a).
Proof. unfold by_count, more_bits. by rewrite Nat.ltb_ge. Qed.

Global Instance by_count_trans : Transitive by_count.
Proof. intros a b c. rewrite !by_count_le. lia. Qed.

Lemma sort_Slice_by_count l :
  sort_Slice_sound →
  StronglySorted by_count (sort_Slice Attestation more_bits l).
Proof.
  intros Hs. destruct (Hs l) as [_ Hsorted].
  by apply Sorted_StronglySorted; [apply _|].
Qed.

(** The pass of [filterContained] over a slice of bit vectors of one length:
    it does not panic, what it keeps comes from the slice, and whatever it
    drops is contained in something it keeps. *)
Lemma keep_uncontained_spec L l : ∀ kept,
  Len (bitsOf kept) = L →
  Forall (λ att, Len (bitsOf att) = L) l →
  ∃ filtered,
    keep_uncontained kept l = Ok filtered
    ∧ filtered `sublist_of` l
    ∧ ∀ x, x ∈ l →
        ∃ y, y ∈ kept :: filtered ∧ subset_bits (bitsOf x) (bitsOf y).
Proof.
  induction l as [|att l IH]; intros kept Hk Hl; simpl.
  - exists []. split_and!; [done|done|]. intros x Hx. by apply elem_of_nil in Hx.
  - apply Forall_cons in Hl as [Ha Hl].
    destruct (Contains_same_len (bitsOf kept) (bitsOf att)) as [c Hc];
      [congruence|].
    rewrite Hc. simpl. apply Contains_Ok in Hc as [_ Hc].
    destruct c.
    + destruct (IH kept Hk Hl) as (f & -> & Hsub & Hcov).
      exists f. split_and!; [done|by apply sublist_cons|].
      intros x Hx. apply elem_of_cons in Hx as [->|Hx].
      * exists kept. split; [apply list_elem_of_here|]. by apply Hc.
      * by apply Hcov.
    + destruct (IH att Ha Hl) as (f & -> & Hsub & Hcov). simpl.
      exists (att :: f). split_and!; [done|by apply sublist_skip|].
      intros x Hx. apply elem_of_cons in Hx as [->|Hx].
      * exists att. split; [|by unfold subset_bits].
        apply list_elem_of_further, list_elem_of_here.
      * destruct (Hcov x Hx) as (y & Hy & Hxy).
        exists y. split; [|done]. by apply list_elem_of_further.
Qed.

(** On a slice sorted by popcount, consecutive kept cells are free of
    containment. *)
Lemma keep_uncontained_adjacent l : ∀ kept filtered,
  StronglySorted by_count (kept :: l) →
  keep_uncontained kept l = Ok filtered →
  no_adjacent_containment (kept :: filtered).
Proof.
  induction l as [|att l IH]; intros kept filtered Hs; simpl.
  - by intros [= <-].
  - apply StronglySorted_inv in Hs as [Hs Hk].
    apply Forall_cons in Hk as [Hka Hkl].
    destruct (Contains (bitsOf kept) (bitsOf att)) as [c|] eqn:Hc; [|done].
    simpl. apply Contains_Ok in Hc as [_ Hc]. destruct c.
    + apply IH. apply StronglySorted_inv in Hs as [Hs _].
      by apply SSorted_cons.
    + destruct (keep_uncontained att l) as [f|] eqn:Hf; [|done]. simpl.
      intros [= <-]. split_and!.
      * intros Hsub. apply Hc in Hsub. done.
      * by apply by_count_le.
      * by apply IH.
Qed.

End Filters.

(** ** [filterContained] on a slice and its array *)

Section FilterContained.
Context `{!Collaborators}.

Lemma filterContained_short al : al_len al < 2 → filterContained al = Ok al.
Proof.
  intros Hn. unfold filterContained.
  by destruct (Nat.ltb_spec (al_len al) 2); [|lia].
Qed.

(** With two cells or more: the slice is sorted, its first cell is kept, and
    the pass keeps the cells that the last kept cell does not contain; the
    kept cells are written over the front of the sorted array. *)
Lemma filterContained_long arr n :
  sort_Slice_sound → 2 ≤ n → n ≤ length arr →
  ∃ kept sorted,
    sort_Slice Attestation more_bits (take n arr) = kept :: sorted
    ∧ filterContained {| array := arr; al_len := n |} =
      filtered ← keep_uncontained kept sorted;
      Ok {| array := kept :: filtered
                     ++ drop (1 + length filtered)
                          (kept :: sorted ++ drop n arr);
            al_len := 1 + length filtered |}.
Proof.
  intros Hs Hn Hl. destruct (Hs (take n arr)) as [Hperm _].
  assert (Hlen : length (sort_Slice Attestation more_bits (take n arr)) = n).
  { rewrite Hperm. by apply length_take_le. }
  unfold filterContained, items. simpl.
  destruct (Nat.ltb_spec n 2); [lia|].
  destruct (sort_Slice Attestation more_bits (take n arr))
    as [|kept sorted]; simpl in *; [lia|].
  exists kept, sorted. split; [done|].
  rewrite (filterContained_loop_spec _ _ _ _ kept);
    [|lia|lia|simpl; rewrite length_app, length_drop; lia|done].
  simpl. rewrite drop_0, take_app_length' by lia. done.
Qed.

Lemma no_adjacent_containment_short (l : list Attestation) :
  length l < 2 → no_adjacent_containment l.
Proof. destruct l as [|x [|y l]]; simpl; (done || lia). Qed.

(** What [filterContained] does to a slice of bit vectors of one length. *)
Lemma filterContained_sound L arr n :
  sort_Slice_sound → n ≤ length arr →
  Forall (λ att, Len (bitsOf att) = L) (take n arr) →
  ∃ al,
    filterContained {| array := arr; al_len := n |} = Ok al
    ∧ length (array al) = length arr
    ∧ (∀ x, x ∈ array al → x ∈ arr)
    ∧ (∀ x, x ∈ items al → x ∈ take n arr)
    ∧ (∀ x, x ∈ take n arr →
         ∃ y, y ∈ items al ∧ subset_bits (bitsOf x) (bitsOf y))
    ∧ no_adjacent_containment (items al).
Proof.
  intros Hs Hl HL. destruct (Nat.lt_ge_cases n 2) as [Hn|Hn].
  - exists {| array := arr; al_len := n |}.
    rewrite filterContained_short by done. unfold items. simpl.
    split_and!; try done.
    + intros x Hx. exists x. split; [done|by unfold subset_bits].
    + apply no_adjacent_containment_short.
      rewrite length_take. lia.
  - destruct (filterContained_long arr n Hs Hn Hl)
      as (kept & sorted & Hsort & ->).
    destruct (Hs (take n arr)) as [Hperm _].
    pose proof (sort_Slice_by_count (take n arr) Hs) as Hsorted.
    rewrite Hsort in Hperm, Hsorted.
    assert (Hlen : S (length sorted) = n).
    { change (length (kept :: sorted) = n).
      rewrite Hperm. by apply length_take_le. }
    assert (HL' : Forall (λ att, Len (bitsOf att) = L) (kept :: sorted)).
    { by rewrite Hperm. }
    apply Forall_cons in HL' as [Hk HL'].
    destruct (keep_uncontained_spec L sorted kept Hk HL')
      as (filtered & Hf & Hsub & Hcov).
    rewrite Hf. simpl. eexists. split; [done|].
    pose proof (sublist_length _ _ Hsub) as Hfl.
    unfold items. simpl.
    rewrite take_app_length.
    split_and!.
    + rewrite length_app, length_drop, length_app, length_drop. lia.
    + intros x Hx. apply elem_of_cons in Hx as [->|Hx].
      { eapply subseteq_take. rewrite <-Hperm. apply list_elem_of_here. }
      apply elem_of_app in Hx as [Hx|Hx].
      { eapply subseteq_take. rewrite <-Hperm.
        apply list_elem_of_further. by eapply sublist_subseteq. }
      apply subseteq_drop in Hx.
      apply elem_of_app in Hx as [Hx|Hx].
      { eapply subseteq_take. rewrite <-Hperm. by apply list_elem_of_further. }
      by eapply subseteq_drop.
    + intros x Hx. rewrite <-Hperm.
      apply elem_of_cons in Hx as [->|Hx]; [apply list_elem_of_here|].
      apply list_elem_of_further. by eapply sublist_subseteq.
    + intros x Hx. rewrite <-Hperm in Hx.
      apply elem_of_cons in Hx as [->|Hx]; [|by apply Hcov].
      exists kept. split; [apply list_elem_of_here|by unfold subset_bits].
    + by eapply keep_uncontained_adjacent.
Qed.

End FilterContained.

(** ** One round of the straightforward engine *)

Section Round.
Context `{!Collaborators}.

Lemma covers_true (l : list Attestation) i :
  covers l i = true ↔ ∃ att, att ∈ l ∧ BitAt (bitsOf att) i = true.
Proof.
  unfold covers. induction l as [|a l IH]; simpl.
  - split; [done|]. intros (att & Hin & _). by apply elem_of_nil in Hin.
  - rewrite orb_true_iff, IH. split.
    + intros [Ha|(att & Hin & Hb)].
      * exists a. split; [apply list_elem_of_here|done].
      * exists att. split; [by apply list_elem_of_further|done].
    + intros (att & Hin & Hb). apply elem_of_cons in Hin as [->|Hin]; eauto.
Qed.

Lemma covers_ext (l1 l2 : list Attestation) :
  (∀ x, x ∈ l1 → ∃ y, y ∈ l2 ∧ subset_bits (bitsOf x) (bitsOf y)) →
  (∀ y, y ∈ l2 → ∃ x, x ∈ l1 ∧ subset_bits (bitsOf y) (bitsOf x)) →
  ∀ i, covers l1 i = covers l2 i.
Proof.
  intros H12 H21 i. apply bool_eq_iff. rewrite !covers_true. split.
  - intros (x & Hx & Hb). destruct (H12 x Hx) as (y & Hy & Hs). eauto.
  - intros (y & Hy & Hb). destruct (H21 y Hy) as (x & Hx & Hs). eauto.
Qed.

Lemma elem_of_NewMaxCover (l : list Attestation) c :
  c ∈ NewMaxCover l ↔
  ∃ j att, l !! j = Some att ∧ c = NewMaxCoverCandidate j (bitsOf att).
Proof.
  unfold NewMaxCover. rewrite list_elem_of_lookup. split.
  - intros (j & Hj). rewrite list_lookup_imap in Hj.
    destruct (l !! j) as [att|] eqn:E; simplify_eq/=. eauto.
  - intros (j & att & Hj & ->). exists j.
    by rewrite list_lookup_imap, Hj.
Qed.

Lemma keys_NewMaxCover (l : list Attestation) :
  key <$> NewMaxCover l = seq 0 (length l).
Proof.
  unfold NewMaxCover. apply list_eq. intros j.
  rewrite list_lookup_fmap, list_lookup_imap.
  destruct (l !! j) as [att|] eqn:E; simpl.
  - symmetry. apply lookup_seq. split; [done|]. by eapply lookup_lt_Some.
  - symmetry. apply lookup_seq_ge. by apply lookup_ge_None.
Qed.

Lemma NoDup_keys_NewMaxCover (l : list Attestation) :
  NoDup (key <$> NewMaxCover l).
Proof. rewrite keys_NewMaxCover. apply NoDup_seq. Qed.

Lemma hasCoverage_spec L al coverage :
  Forall (λ att, Len (bitsOf att) = L) al → Len coverage = L →
  ∃ b, hasCoverage al coverage = Ok b
       ∧ (b = true → ∃ att, att ∈ al ∧ bitsOf att = coverage).
Proof.
  intros Hal Hc. induction Hal as [|att al Ha Hal IH]; simpl.
  - by exists false.
  - unfold Xor. assert (E : same_len (bitsOf att) coverage = true).
    { apply same_len_true. congruence. }
    rewrite E. simpl.
    destruct (Nat.eqb_spec (Count (bxor (bitsOf att) coverage)) 0) as [H0|H0].
    + exists true. split; [done|]. intros _. exists att.
      split; [apply list_elem_of_here|].
      apply Count_bxor_0; [congruence|done].
    + destruct IH as (b & -> & Hb). exists b. split; [done|].
      intros Ht. destruct (Hb Ht) as (a & Hin & Heq).
      exists a. split; [by apply list_elem_of_further|done].
Qed.

Lemma selectUsingKeys_spec (al : list Attestation) keys :
  Forall (λ k, k < length al) keys →
  ∃ selected, selectUsingKeys al keys = Ok selected
              ∧ length selected = length keys.
Proof.
  induction 1 as [|k keys Hk _ (sel & IH & Hlen)]; simpl.
  - by exists [].
  - destruct (lookup_lt_is_Some_2 al k Hk) as [att Hatt].
    rewrite (index_Some _ _ _ Hatt), IH. simpl.
    exists (att :: sel). split; [done|]. simpl. by rewrite Hlen.
Qed.

Lemma aggregate_inr al coverage att :
  aggregate al coverage = inr att → AggregationBits att = Some coverage.
Proof.
  unfold aggregate. destruct al as [|a0 [|a1 al]]; try done.
  destruct (decode_signatures _); [|done]. by intros [= <-].
Qed.

Lemma unaggregated_length st :
  ulen st ≤ length (storage st) → length (unaggregated st) = ulen st.
Proof. intros. unfold unaggregated. by apply length_take_le. Qed.

(** The step that removes the selected cells keeps the invariant, provided
    the coverage of the selection is among the aggregated attestations. *)
Lemma complement_invariant L atts st sol aggregated' :
  round_invariant L atts st →
  Len (Coverage sol) = L →
  (∀ i, BitAt (Coverage sol) i = true ↔
        ∃ c, c ∈ NewMaxCover (unaggregated st) ∧ key c ∈ Keys sol
             ∧ BitAt (bits c) i = true) →
  (∀ x, x ∈ aggregated' ↔ x ∈ aggregated st ∨
          (x ∈ aggregated' ∧ bitsOf x = Coverage sol)) →
  (∃ x, x ∈ aggregated' ∧ bitsOf x = Coverage sol) →
  round_invariant L atts
    {| aggregated := aggregated';
       storage := complement_of (Keys sol) 0 (unaggregated st)
                  ++ drop (length (complement_of (Keys sol) 0
                                     (unaggregated st))) (storage st);
       ulen := length (complement_of (Keys sol) 0 (unaggregated st)) |}.
Proof.
  intros (Hlen & Hul & Hin & Hsub & HL & Hcov) HcL Hc Hagg (a & Ha & Hab).
  set (P := complement_of (Keys sol) 0 (unaggregated st)).
  assert (HP : P `sublist_of` unaggregated st) by apply complement_of_sublist.
  assert (HPl : length P ≤ ulen st).
  { rewrite <-(unaggregated_length st) by lia. by apply sublist_length. }
  unfold round_invariant, unaggregated. simpl. rewrite take_app_length.
  split_and!.
  - rewrite length_app, length_drop. lia.
  - lia.
  - intros x Hx. apply Hin. apply elem_of_app in Hx as [Hx|Hx].
    + eapply subseteq_take. eapply sublist_subseteq; [apply HP|done].
    + by eapply subseteq_drop.
  - by etrans.
  - apply Forall_forall. intros x Hx. apply Hagg in Hx as [Hx|[_ Hx]].
    + by eapply Forall_forall in HL.
    + unfold Len in *. congruence.
  - intros i. rewrite <-Hcov. apply bool_eq_iff. rewrite !covers_true. split.
    + intros (x & Hx & Hb). apply elem_of_app in Hx as [Hx|Hx].
      * apply Hagg in Hx as [Hx|[_ Hx]].
        { exists x. split; [|done]. apply elem_of_app. by left. }
        rewrite Hx in Hb. apply Hc in Hb as (c & Hcin & _ & Hcb).
        apply elem_of_NewMaxCover in Hcin as (j & att & Hj & ->).
        exists att. split; [|done]. apply elem_of_app. right.
        by eapply list_elem_of_lookup_2.
      * exists x. split; [|done]. apply elem_of_app. right.
        eapply sublist_subseteq; [apply HP|done].
    + intros (x & Hx & Hb). apply elem_of_app in Hx as [Hx|Hx].
      * exists x. split; [|done]. apply elem_of_app. left.
        apply Hagg. by left.
      * apply list_elem_of_lookup_1 in Hx as [j Hj].
        destruct (complement_of_keeps _ (Keys sol) 0 j x Hj) as [Hk|Hk].
        { exists x. split; [|done]. apply elem_of_app. by right. }
        exists a. split; [apply elem_of_app; by left|].
        rewrite Hab. apply Hc.
        exists (NewMaxCoverCandidate j (bitsOf x)). split_and!; [|done..].
        apply elem_of_NewMaxCover. eauto.
Qed.

End Round.

Section RoundSound.
Context `{!Collaborators}.

Lemma round_invariant_lengths L atts st :
  Forall (λ att, Len (bitsOf att) = L) atts →
  round_invariant L atts st →
  Forall (λ att, Len (bitsOf att) = L) (unaggregated st).
Proof.
  intros HL (_ & _ & _ & Hsub & _). apply Forall_forall. intros x Hx.
  eapply Forall_forall in HL; [done|].
  eapply sublist_subseteq; [apply Hsub|done].
Qed.

(** With a sound solver, a round on a state that satisfies the invariant
    does not panic, and the state it continues with satisfies it. *)
Lemma round_sound L atts n st :
  Cover_sound →
  Forall (λ att, Len (bitsOf att) = L) atts →
  round_invariant L atts st →
  ∃ r, round n st = Ok r
       ∧ ∀ st', r = Continue st' → round_invariant L atts st'.
Proof.
  intros HC HL Hinv. unfold round.
  destruct (Nat.ltb_spec (ulen st) 2) as [|Hu]; [by exists Break|].
  destruct (Cover _ n false) as [e|sol] eqn:Hsol; [by eexists (Fail _)|].
  destruct (Nat.ltb_spec (length (Keys sol)) 2) as [|Hk]; [by exists Break|].
  pose proof Hinv as (Hlen & Hul & Hin & Hsub & HaL & Hcov).
  pose proof (round_invariant_lengths _ _ _ HL Hinv) as HuL.
  assert (Hulen : length (unaggregated st) = ulen st).
  { apply unaggregated_length. lia. }
  destruct (HC (NewMaxCover (unaggregated st)) n L sol)
    as (HcL & Hkeys & Hc); [|apply NoDup_keys_NewMaxCover| |done|].
  { intros E. apply (f_equal length) in E.
    unfold NewMaxCover in E. rewrite length_imap in E. simpl in E. lia. }
  { apply Forall_forall. intros c Hcin.
    apply elem_of_NewMaxCover in Hcin as (j & att & Hj & ->). simpl.
    eapply Forall_forall in HuL; [done|]. by eapply list_elem_of_lookup_2. }
  destruct (hasCoverage_spec L (aggregated st) (Coverage sol) HaL HcL)
    as (has & -> & Hhas).
  simpl. destruct has.
  - simpl. rewrite selectComplementUsingKeys_spec by lia. simpl.
    eexists. split; [done|]. intros st' [= <-].
    destruct (Hhas eq_refl) as (a & Ha & Hab).
    apply complement_invariant; [done..| |by eauto].
    intros x. split; [by left|]. by intros [?|[? _]].
  - destruct (selectUsingKeys_spec (unaggregated st) (Keys sol))
      as (selected & -> & Hsel).
    { apply Forall_forall. intros j Hj.
      destruct (Hkeys j Hj) as (c & Hcin & <-).
      apply elem_of_NewMaxCover in Hcin as (j' & att & Hj' & ->). simpl.
      by eapply lookup_lt_Some. }
    simpl. destruct (aggregate selected (Coverage sol)) as [e|att] eqn:Hagg;
      simpl; [by eexists (Fail _)|].
    rewrite selectComplementUsingKeys_spec by lia. simpl.
    eexists. split; [done|]. intros st' [= <-].
    assert (Hbits : bitsOf att = Coverage sol).
    { unfold bitsOf. by rewrite (aggregate_inr _ _ _ Hagg). }
    apply complement_invariant; [done..| |].
    + intros x. rewrite elem_of_app, list_elem_of_singleton. split.
      * intros [Hx|Hx]; [by left|]. subst x. right. split; [by right|done].
      * intros [Hx|[Hx _]]; [by left|done].
    + exists att. split; [|done]. apply elem_of_app. right.
      by apply list_elem_of_singleton.
Qed.

(** So the loop is left, without a panic, in a state that satisfies the
    invariant. *)
Lemma rounds_sound L atts n r : ∀ st,
  Cover_sound →
  Forall (λ att, Len (bitsOf att) = L) atts →
  round_invariant L atts st →
  ∃ st' e, (rounds r n st).2 = Ok (st', e) ∧ round_invariant L atts st'.
Proof.
  induction r as [|r IH]; intros st HC HL Hinv; simpl; [by eauto|].
  destruct (round_sound L atts n st HC HL Hinv) as (res & -> & Hres).
  destruct res as [st'| |e]; [|by eauto..].
  destruct (IH st' HC HL (Hres st' eq_refl)) as (st'' & e & Hr & Hinv').
  destruct (rounds r n st') as [c out]. simpl in *. eauto.
Qed.

Lemma valid_batch_lengths L (atts : list Attestation) :
  valid_batch L atts → Forall (λ att, Len (bitsOf att) = L) atts.
Proof.
  intros [_ Hall]. eapply Forall_impl; [done|]. by intros att [_ ?].
Qed.

Lemma validate_rest_None L (rest : list Attestation) :
  validate_rest L rest = None ↔
  Forall (λ att, AggregationBits att ≠ None ∧ Len (bitsOf att) = L) rest.
Proof.
  induction rest as [|att rest IH]; simpl; [by split|].
  rewrite Forall_cons, <-IH. unfold bitsOf.
  destruct (AggregationBits att) as [b|]; [|by split; [|intros [[] _]]].
  destruct (Nat.eqb_spec L (Len b)) as [->|Hne];
    [by split; [intros ?|intros [_ ?]]|].
  split; [done|]. intros [[_ E] _]. by subst.
Qed.

(** [validate] accepts exactly the batches that are not empty and valid. *)
Lemma validate_None (atts : list Attestation) :
  validate (slice_of atts) = None ↔
  atts ≠ [] ∧ ∃ L, valid_batch L atts.
Proof.
  unfold valid_batch. destruct atts as [|att0 rest]; simpl.
  { split; [done|]. by intros [[] _]. }
  destruct (AggregationBits att0) as [b0|] eqn:E0.
  - destruct (Nat.eqb_spec (Len b0) 0) as [H0|H0].
    + split; [done|]. intros (_ & L & HL & Hall).
      apply Forall_cons in Hall as [[_ Hb] _].
      unfold bitsOf in Hb. rewrite E0 in Hb. lia.
    + rewrite validate_rest_None. split.
      * intros Hrest. split; [done|]. exists (Len b0).
        split; [lia|]. apply Forall_cons. split; [|done].
        unfold bitsOf. by rewrite E0.
      * intros (_ & L & HL & Hall). apply Forall_cons in Hall as [[_ Hb] Hr].
        unfold bitsOf in Hb. rewrite E0 in Hb. by subst.
  - split; [done|]. intros (_ & L & HL & Hall).
    apply Forall_cons in Hall as [[Hb _] _]. done.
Qed.

Lemma initial_invariant L (atts : list Attestation) :
  round_invariant L atts
    {| aggregated := []; storage := atts; ulen := length atts |}.
Proof.
  unfold round_invariant, unaggregated. simpl. rewrite firstn_all.
  split_and!; done.
Qed.

End RoundSound.

(** ** The straightforward engine on a valid batch *)

Section Straightforward.
Context `{!Collaborators}.

Lemma len_slice_of {A} (l : list A) : len (slice_of l) = length l.
Proof. done. Qed.

(** After the guards, the engine is its loop followed by the merge. *)
Lemma MaxCoverAttestationAggregation_validated (atts : list Attestation) :
  2 ≤ length atts → validate (slice_of atts) = None →
  MaxCoverAttestationAggregation (slice_of atts) =
  '(st, e) ← loop_exit atts;
  match e with
  | Some e =>
    Ok {| result := slice_of (merge (aggregated st) (unaggregated st));
          err := Some e; caller_array := storage st |}
  | None =>
    al ← filterContained {| array := storage st; al_len := ulen st |};
    Ok {| result := slice_of (merge (aggregated st) (items al));
          err := None; caller_array := array al |}
  end.
Proof.
  intros Hn Hv. unfold MaxCoverAttestationAggregation, loop_exit.
  rewrite len_slice_of, Hv. simpl.
  by destruct (Nat.ltb_spec (length atts) 2); [lia|].
Qed.

(** On a valid batch, with a sound solver and a sound sort, the engine
    returns; what it returns is made of the aggregated attestations of the
    state in which the loop is left, followed by survivors among the
    unaggregated ones that contain every unaggregated one. *)
Lemma MaxCoverAttestationAggregation_sound L (atts : list Attestation) :
  Cover_sound → sort_Slice_sound →
  2 ≤ length atts → valid_batch L atts →
  ∃ st survivors ret,
    loop_exit atts = Ok (st, err ret)
    ∧ round_invariant L atts st
    ∧ MaxCoverAttestationAggregation (slice_of atts) = Ok ret
    ∧ result ret = slice_of (aggregated st ++ survivors)
    ∧ (∀ x, x ∈ survivors → x ∈ unaggregated st)
    ∧ (∀ x, x ∈ unaggregated st →
         ∃ y, y ∈ survivors ∧ subset_bits (bitsOf x) (bitsOf y))
    ∧ (err ret ≠ None → survivors = unaggregated st)
    ∧ (err ret = None → no_adjacent_containment survivors)
    ∧ length (caller_array ret) = length atts
    ∧ (∀ x, x ∈ caller_array ret → x ∈ atts).
Proof.
  intros HC HS Hn Hvalid.
  pose proof (valid_batch_lengths _ _ Hvalid) as HL.
  assert (Hv : validate (slice_of atts) = None).
  { apply validate_None. split; [|by exists L].
    intros ->. simpl in Hn. lia. }
  rewrite (MaxCoverAttestationAggregation_validated atts Hn Hv).
  unfold loop_exit.
  destruct (rounds_sound L atts (length atts) (length atts / 2) _ HC HL
              (initial_invariant L atts)) as (st & e & -> & Hinv).
  simpl. pose proof Hinv as (Hlen & Hul & Hin & Hsub & HaL & Hcov).
  destruct e as [e|].
  - eexists st, (unaggregated st),
      {| result := _; err := Some e; caller_array := _ |}. simpl.
    split_and!; try done.
    intros x Hx. exists x. split; [done|by unfold subset_bits].
  - destruct (filterContained_sound L (storage st) (ulen st) HS)
      as (al & -> & Hal & Harr & Hitems & Hcont & Hadj);
      [lia|exact (round_invariant_lengths L atts st HL Hinv)|].
    simpl. eexists st, (items al),
      {| result := _; err := None; caller_array := _ |}. simpl.
    split_and!; try done; [congruence|]. intros x Hx. by apply Hin, Harr.
Qed.

End Straightforward.

(** ** The stand-ins honour the contracts *)

Section InsertionSort.
Context `{!Collaborators}.

Lemma insert_left_Permutation {A} (less : A → A → bool) x sorted :
  insert_left less x sorted ≡ₚ x :: sorted.
Proof.
  induction sorted as [|y sorted IH]; simpl; [done|].
  destruct (less x y); [|done]. rewrite IH. apply Permutation_swap.
Qed.

Lemma foldl_insert_left_Permutation {A} (less : A → A → bool) l : ∀ sorted,
  foldl (λ sorted x, insert_left less x sorted) sorted l ≡ₚ l ++ sorted.
Proof.
  induction l as [|x l IH]; intros sorted; simpl; [done|].
  rewrite IH, insert_left_Permutation. by rewrite Permutation_middle.
Qed.

Lemma insertion_sort_Permutation {A} (less : A → A → bool) l :
  insertion_sort A less l ≡ₚ l.
Proof.
  unfold insertion_sort.
  rewrite reverse_Permutation, foldl_insert_left_Permutation.
  by rewrite app_nil_r.
Qed.

Lemma more_bits_asym (a b : Attestation) :
  more_bits a b = true → more_bits b a = false.
Proof. unfold more_bits. rewrite Nat.ltb_lt, Nat.ltb_ge. lia. Qed.

Lemma HdRel_insert_left (z x : Attestation) sorted :
  flip by_count z x → HdRel (flip by_count) z sorted →
  HdRel (flip by_count) z (insert_left more_bits x sorted).
Proof.
  intros Hzx Hz. destruct sorted as [|y sorted]; simpl; [by constructor|].
  destruct (more_bits x y); constructor; [|done].
  by apply HdRel_inv in Hz.
Qed.

Lemma Sorted_insert_left (x : Attestation) sorted :
  Sorted (flip by_count) sorted →
  Sorted (flip by_count) (insert_left more_bits x sorted).
Proof.
  induction 1 as [|y sorted Hs IH Hy]; simpl; [by repeat constructor|].
  destruct (more_bits x y) eqn:E.
  - constructor; [done|]. apply HdRel_insert_left; [|done].
    unfold flip, by_count. by apply more_bits_asym.
  - constructor; [by constructor|]. by constructor.
Qed.

Lemma Sorted_foldl_insert_left (l : list Attestation) : ∀ sorted,
  Sorted (flip by_count) sorted →
  Sorted (flip by_count)
    (foldl (λ sorted x, insert_left more_bits x sorted) sorted l).
Proof.
  induction l as [|x l IH]; intros sorted Hs; simpl; [done|].
  by apply IH, Sorted_insert_left.
Qed.

Lemma insertion_sort_Sorted (l : list Attestation) :
  Sorted by_count (insertion_sort Attestation more_bits l).
Proof.
  unfold insertion_sort. apply Sorted_reverse.
  apply Sorted_foldl_insert_left. constructor.
Qed.

End InsertionSort.

Lemma spec_sort_Slice_sound : @sort_Slice_sound spec_collaborators.
Proof.
  intros l. split.
  - apply insertion_sort_Permutation.
  - apply (@insertion_sort_Sorted spec_collaborators).
Qed.

Lemma choose_Some allowOverlaps covered selected cands : ∀ i best r,
  choose allowOverlaps covered selected i cands best = Some r →
  best = Some r ∨ ∃ j, cands !! j = Some r.2 ∧ r.1 = i + j.
Proof.
  induction cands as [|c cands IH]; intros i best r; simpl; [by left|].
  intros Hr. apply IH in Hr as [Hr|(j & Hj & Hi)].
  - destruct (_ && _).
    + simplify_eq. right. exists 0. simpl. split; [done|lia].
    + by left.
  - right. exists (S j). simpl. split; [done|lia].
Qed.

Lemma greedy_selection p L allowOverlaps k : ∀ covered selected,
  Forall (λ c, Len (bits c) = L) p →
  selection_of p L covered selected →
  selection_of p L (greedy k allowOverlaps p covered selected).1
    (greedy k allowOverlaps p covered selected).2.
Proof.
  induction k as [|k IH]; intros covered selected HL Hsel; simpl; [done|].
  destruct (choose _ _ _ _ _ _) as [[i c]|] eqn:Hch; [|done].
  destruct (new_bits covered (bits c) =? 0); [done|].
  apply IH; [done|].
  apply choose_Some in Hch as [|(j & Hj & Hi)]; [done|]. simpl in *.
  destruct Hsel as (Hlen & Hpos & Hcov).
  assert (HcL : Len (bits c) = L).
  { eapply Forall_forall in HL; [done|]. by eapply list_elem_of_lookup_2. }
  split_and!.
  - rewrite Len_bor; congruence.
  - intros s Hs. apply elem_of_app in Hs as [Hs|Hs]; [by apply Hpos|].
    apply list_elem_of_singleton in Hs as ->. simpl. by subst.
  - intros b. rewrite BitAt_bor by congruence.
    rewrite orb_true_iff, Hcov. split.
    + intros [(s & Hs & Hb)|Hb].
      * exists s. split; [|done]. apply elem_of_app. by left.
      * exists (i, c). split; [|done]. apply elem_of_app. right.
        by apply list_elem_of_singleton.
    + intros (s & Hs & Hb). apply elem_of_app in Hs as [Hs|Hs].
      * left. eauto.
      * apply list_elem_of_singleton in Hs as ->. by right.
Qed.

Lemma key_inj_NoDup (p : list MaxCoverCandidate) c c' :
  NoDup (key <$> p) → c ∈ p → c' ∈ p → key c = key c' → c = c'.
Proof.
  intros Hnd Hc Hc' Hk.
  apply list_elem_of_lookup_1 in Hc as [i Hi].
  apply list_elem_of_lookup_1 in Hc' as [j Hj].
  assert (i = j) as ->; [|congruence].
  eapply NoDup_lookup; [done| |].
  - by rewrite list_lookup_fmap, Hi.
  - by rewrite list_lookup_fmap, Hj, Hk.
Qed.

(** The greedy solver of the spec honours the contract of a solution. *)
Lemma spec_Cover_sound : @Cover_sound spec_collaborators.
Proof.
  intros p k L sol Hne Hnd HL. simpl. unfold spec_Cover.
  destruct p as [|c0 p']; [done|].
  destruct (existsb _ _); [done|].
  pose proof (greedy_selection (c0 :: p') L false k
                (zeros (Len (bits c0))) [] HL) as Hg.
  destruct (greedy _ _ _ _ _) as [covered selected]. simpl in Hg.
  intros [= <-]. simpl.
  destruct Hg as (Hlen & Hpos & Hcov).
  { split_and!.
    - apply Forall_cons in HL as [<- _]. unfold Len, zeros.
      by rewrite length_replicate.
    - intros s Hs. by apply elem_of_nil in Hs.
    - intros b. rewrite BitAt_zeros. split; [done|].
      intros (s & Hs & _). by apply elem_of_nil in Hs. }
  split_and!; [done| |].
  - intros j Hj. apply list_elem_of_fmap in Hj as (s & -> & Hs).
    exists s.2. split; [|done]. eapply list_elem_of_lookup_2. by apply Hpos.
  - intros b. rewrite Hcov. split.
    + intros (s & Hs & Hb). exists s.2. split_and!; [|
        |done].
      * eapply list_elem_of_lookup_2. by apply Hpos.
      * apply list_elem_of_fmap. by exists s.
    + intros (c & Hc & Hk & Hb).
      apply list_elem_of_fmap in Hk as (s & Hks & Hs).
      exists s. split; [done|].
      assert (c = s.2) as <-; [|done].
      eapply key_inj_NoDup; [done..| |done].
      eapply list_elem_of_lookup_2. by apply Hpos.
Qed.

(** ** The guards and the bound of the loops *)

Section Guards.
Context `{!Collaborators}.

Lemma validate_rest_mismatch L (rest : list Attestation) :
  (∃ att, att ∈ rest ∧ Len (bitsOf att) ≠ L) →
  validate_rest L rest = Some (AggregationError ErrBitsDifferentLen).
Proof.
  intros (a & Ha & Hne). induction rest as [|att rest IH]; simpl.
  { by apply elem_of_nil in Ha. }
  unfold bitsOf in *. destruct (AggregationBits att) as [b|] eqn:E; [|done].
  destruct (Nat.eqb_spec L (Len b)) as [->|]; [|done].
  apply IH. apply elem_of_cons in Ha as [->|Ha]; [|done].
  by rewrite E in Hne.
Qed.

(** After the guards, the optimized engine is its loop followed by the
    append. *)
Lemma optMaxCoverAttestationAggregation_validated (atts : list Attestation) :
  2 ≤ length atts → validate (slice_of atts) = None →
  optMaxCoverAttestationAggregation (slice_of atts) =
  '(st, e) ← opt_loop_exit atts;
  match e with
  | Some e =>
    Ok {| opt_result := slice_of (opt_aggregated st ++ opt_unaggregated st);
          opt_err := Some e |}
  | None =>
    filtered ← filterContainedAttestations (opt_unaggregated st);
    Ok {| opt_result := slice_of (opt_aggregated st ++ filtered);
          opt_err := None |}
  end.
Proof.
  intros Hn Hv.
  unfold optMaxCoverAttestationAggregation, validateAttestations.
  rewrite len_slice_of, Hv.
  destruct (Nat.ltb_spec (length atts) 2); [lia|].
  destruct atts as [|att0 rest]; [simpl in *; lia|].
  unfold opt_loop_exit, opt_initial. simpl. by rewrite !length_fmap.
Qed.

Lemma rounds_count_le r : ∀ n st, (rounds r n st).1 ≤ r.
Proof.
  induction r as [|r IH]; intros n st; simpl; [done|].
  destruct (round n st) as [[st'| |e]|]; simpl; try lia.
  specialize (IH n st'). destruct (rounds r n st'). simpl in *. lia.
Qed.

Lemma opt_rounds_count_le r : ∀ st, (opt_rounds r st).1 ≤ r.
Proof.
  induction r as [|r IH]; intros st; simpl; [done|].
  destruct (opt_round st) as [[st'| |e]|]; simpl; try lia.
  specialize (IH st'). destruct (opt_rounds r st'). simpl in *. lia.
Qed.

(** The loop is left at once when fewer than two attestations are
    unaggregated, or when the selection has fewer than two members. *)
Lemma rounds_exit_few_unaggregated r n st :
  ulen st < 2 → rounds (S r) n st = (1, Ok (st, None)).
Proof.
  intros Hu. simpl. unfold round.
  by destruct (Nat.ltb_spec (ulen st) 2); [|lia].
Qed.

Lemma rounds_exit_small_selection r n st solution :
  Cover (NewMaxCover (unaggregated st)) n false = inr solution →
  length (Keys solution) < 2 →
  rounds (S r) n st = (1, Ok (st, None)).
Proof.
  intros Hsol Hk. simpl. unfold round. rewrite Hsol.
  destruct (ulen st <? 2); [done|].
  by destruct (Nat.ltb_spec (length (Keys solution)) 2); [|lia].
Qed.

Lemma opt_rounds_exit_few_unaggregated r st :
  unagg_len st < 2 → opt_rounds (S r) st = (1, Ok (st, None)).
Proof.
  intros Hu. simpl. unfold opt_round.
  by destruct (Nat.ltb_spec (unagg_len st) 2); [|lia].
Qed.

Lemma opt_rounds_exit_small_selection r st selectedKeys coverage :
  MaxCover (candidates st) (cand_len st) false
    = inr (selectedKeys, coverage) →
  Count selectedKeys < 2 →
  opt_rounds (S r) st = (1, Ok (st, None)).
Proof.
  intros Hsol Hk. simpl. unfold opt_round. rewrite Hsol.
  destruct (unagg_len st <? 2); [done|].
  by destruct (Nat.ltb_spec (Count selectedKeys) 2); [|lia].
Qed.

End Guards.

(** ** Error returns of the two loops *)

Section Errors.
Context `{!Collaborators}.

Lemma selectUsingKeys_length (al : list Attestation) keys : ∀ selected,
  selectUsingKeys al keys = Ok selected → length selected = length keys.
Proof.
  induction keys as [|k keys IH]; intros selected; simpl.
  - by intros [= <-].
  - destruct (index al k) as [att|]; [|done]. simpl.
    destruct (selectUsingKeys al keys) as [sel|]; [|done]. simpl.
    intros [= <-]. simpl. by rewrite (IH sel).
Qed.

(** With two attestations or more, [aggregate] can only fail on a
    signature. *)
Lemma aggregate_error al coverage e :
  aggregate al coverage = inl e → 2 ≤ length al → e = ErrSignature.
Proof.
  unfold aggregate. intros He Hl.
  destruct al as [|a0 [|a1 al]]; [simpl in Hl; lia..|].
  destruct (decode_signatures (a0 :: a1 :: al)); congruence.
Qed.

Lemma round_error n st e :
  round n st = Ok (Fail e) → e ≠ ErrInvalidAttestationCount.
Proof.
  unfold round. destruct (ulen st <? 2); [done|].
  destruct (Cover _ n false) as [e'|sol]; [by intros [= <-]|].
  destruct (Nat.ltb_spec (length (Keys sol)) 2) as [|Hk]; [done|].
  destruct (hasCoverage _ _) as [has|]; [|done]. simpl.
  destruct has; simpl.
  - by destruct (selectComplementUsingKeys _ _).
  - destruct (selectUsingKeys _ _) as [sel|] eqn:Hsel; [|done]. simpl.
    apply selectUsingKeys_length in Hsel.
    destruct (aggregate sel (Coverage sol)) as [e'|att] eqn:Hagg; simpl.
    + intros [= <-]. apply aggregate_error in Hagg; [by subst|lia].
    + by destruct (selectComplementUsingKeys _ _).
Qed.

Lemma rounds_error r : ∀ n st st' e,
  (rounds r n st).2 = Ok (st', Some e) → e ≠ ErrInvalidAttestationCount.
Proof.
  induction r as [|r IH]; intros n st st' e; simpl; [done|].
  destruct (round n st) as [[st1| |e1]|] eqn:Hr; simpl; try done.
  - specialize (IH n st1 st' e). by destruct (rounds r n st1).
  - intros [= <- <-]. by eapply round_error.
Qed.

Lemma aggregateAttestations_loop_error atts indices : ∀ signs data idx e,
  aggregateAttestations_loop atts indices signs data idx = Ok (inl e) →
  e = ErrSignature.
Proof.
  induction indices as [|i indices IH]; intros signs data idx e; simpl;
    [done|].
  destruct (index atts i) as [[att|]|]; simpl; try done.
  destruct (signatureFromBytes _); [|by intros [= <-]].
  destruct data; apply IH.
Qed.

Lemma aggregateAttestations_error atts selectedKeys coverage e :
  aggregateAttestations atts selectedKeys coverage = Ok (inl e) →
  2 ≤ Count selectedKeys → e = ErrSignature.
Proof.
  unfold aggregateAttestations. intros He Hc.
  destruct (Nat.ltb_spec (Count selectedKeys) 2); [lia|].
  destruct (aggregateAttestations_loop _ _ _ _ _)
    as [[e'|[[signs data] idx]]|] eqn:Hl; simpl in He; try done.
  - simplify_eq. by eapply aggregateAttestations_loop_error.
  - by destruct (store_in _ _ _ _ _).
Qed.

Lemma opt_materialize_error st selectedKeys coverage e :
  opt_materialize st selectedKeys coverage = Ok (inl e) →
  2 ≤ Count selectedKeys → e = ErrSignature.
Proof.
  unfold opt_materialize. intros He Hc.
  destruct (aggregateAttestations _ _ _) as [[e'|[atts1 aggIdx]]|] eqn:Ha;
    simpl in He; try done.
  - simplify_eq. by eapply aggregateAttestations_error.
  - destruct (agg_len st <? aggIdx); simpl in He.
    + destruct (swap _ _ _); simpl in He; [|done].
      destruct (swap_in _ _ _ _ _); simpl in He; [|done].
      destruct (_ && _); [|done].
      by destruct (NoAllocOr _ _).
    + destruct (_ && _); [|done].
      by destruct (NoAllocOr _ _).
Qed.

Lemma opt_round_error st e :
  opt_round st = Ok (OptFail e) → e ≠ ErrInvalidAttestationCount.
Proof.
  unfold opt_round. destruct (unagg_len st <? 2); [done|].
  destruct (MaxCover _ _ false) as [e'|[sel cov]]; [by intros [= <-]|].
  destruct (Nat.ltb_spec (Count sel) 2) as [|Hk]; [done|].
  destruct (XorCount _ _) as [xc|]; [|done]. simpl.
  destruct (0 <? xc).
  - destruct (opt_materialize st sel cov) as [[e'|[st1 sel1]]|] eqn:Hm;
      simpl; try done.
    + intros [= <-]. apply opt_materialize_error in Hm; [by subst|lia].
    + by destruct (opt_remove_processed _ _).
  - simpl. by destruct (opt_remove_processed _ _).
Qed.

Lemma opt_rounds_error r : ∀ st st' e,
  (opt_rounds r st).2 = Ok (st', Some e) → e ≠ ErrInvalidAttestationCount.
Proof.
  induction r as [|r IH]; intros st st' e; simpl; [done|].
  destruct (opt_round st) as [[st1| |e1]|] eqn:Hr; simpl; try done.
  - specialize (IH st1 st' e). by destruct (opt_rounds r st1).
  - intros [= <- <-]. by eapply opt_round_error.
Qed.

(** The caller's array under any solver. *)
Lemma round_frame atts n st st' :
  round n st = Ok (Continue st') →
  frame_invariant atts st → frame_invariant atts st'.
Proof.
  intros Hr (Hlen & Hul & Hin & Hsub).
  assert (∃ keys agg',
    st' = {| aggregated := agg';
             storage := complement_of keys 0 (unaggregated st)
                        ++ drop (length (complement_of keys 0
                                           (unaggregated st))) (storage st);
             ulen := length (complement_of keys 0 (unaggregated st)) |})
    as (keys & agg' & ->).
  { revert Hr. unfold round. destruct (ulen st <? 2); [done|].
    destruct (Cover _ n false) as [e'|sol]; [done|].
    destruct (length (Keys sol) <? 2); [done|].
    destruct (hasCoverage _ _) as [has|]; [|done]. simpl.
    destruct has; simpl.
    - rewrite selectComplementUsingKeys_spec by lia. simpl.
      intros [= <-]. eauto.
    - destruct (selectUsingKeys _ _) as [sel|]; [|done]. simpl.
      destruct (aggregate sel (Coverage sol)) as [e'|att]; simpl; [done|].
      rewrite selectComplementUsingKeys_spec by lia. simpl.
      intros [= <-]. eauto. }
  set (P := complement_of keys 0 (unaggregated st)).
  assert (HP : P `sublist_of` unaggregated st) by apply complement_of_sublist.
  assert (HPl : length P ≤ ulen st).
  { rewrite <-(unaggregated_length st) by lia. by apply sublist_length. }
  unfold frame_invariant, unaggregated. simpl. rewrite take_app_length.
  split_and!.
  - rewrite length_app, length_drop. lia.
  - lia.
  - intros x Hx. apply Hin. apply elem_of_app in Hx as [Hx|Hx].
    + eapply subseteq_take. eapply sublist_subseteq; [apply HP|done].
    + by eapply subseteq_drop.
  - by etrans.
Qed.

Lemma rounds_frame atts r : ∀ n st st' e,
  (rounds r n st).2 = Ok (st', e) →
  frame_invariant atts st → frame_invariant atts st'.
Proof.
  induction r as [|r IH]; intros n st st' e; simpl; [by intros [= <- _]|].
  destruct (round n st) as [[st1| |e1]|] eqn:Hr; simpl; try done.
  - specialize (IH n st1 st' e). destruct (rounds r n st1). simpl in *.
    intros Hout Hf. apply IH; [done|]. by eapply round_frame.
  - by intros [= <- _].
  - by intros [= <- _].
Qed.

Lemma initial_frame (atts : list Attestation) :
  frame_invariant atts
    {| aggregated := []; storage := atts; ulen := length atts |}.
Proof.
  unfold frame_invariant, unaggregated. simpl. rewrite firstn_all.
  split_and!; done.
Qed.

End Errors.

(** ** Properties of the engine *)

Section EngineContract.
Context `{!Collaborators}.

Lemma validate_error (atts : slice Attestation) e :
  validate atts = Some e → e ≠ ErrInvalidAttestationCount.
Proof.
  destruct atts as [|[|att0 rest]]; simpl; try by intros [= <-].
  destruct (AggregationBits att0) as [b0|]; [|by intros [= <-]].
  destruct (Len b0 =? 0); [by intros [= <-]|].
  induction rest as [|att rest IH]; simpl; [done|].
  destruct (AggregationBits att) as [b|]; [|by intros [= <-]].
  destruct (Len b0 =? Len b); [done|by intros [= <-]].
Qed.

(** C5: on a list of at least two attestations whose first bit vector is
    there and not empty, and in which some bit vector has another length
    (a nil one has length zero), validation gives the bits-of-different-length
    error, and both engines turn it into a normal return of the input list
    as it is, with a nil error. *)
Theorem mismatched_lengths_returned_unchanged
    (att0 : Attestation) (rest : list Attestation) (b0 : Bitlist) :
  AggregationBits att0 = Some b0 → 0 < Len b0 →
  (∃ att, att ∈ rest ∧ Len (bitsOf att) ≠ Len b0) →
  validate (slice_of (att0 :: rest))
    = Some (AggregationError ErrBitsDifferentLen)
  ∧ MaxCoverAttestationAggregation (slice_of (att0 :: rest))
    = Ok {| result := slice_of (att0 :: rest); err := None;
            caller_array := att0 :: rest |}
  ∧ optMaxCoverAttestationAggregation (slice_of (att0 :: rest))
    = Ok {| opt_result := pointers (slice_of (att0 :: rest));
            opt_err := None |}.
Proof.
  intros Hb0 Hpos Hmix.
  assert (Hv : validate (slice_of (att0 :: rest))
               = Some (AggregationError ErrBitsDifferentLen)).
  { simpl. rewrite Hb0.
    destruct (Nat.eqb_spec (Len b0) 0); [lia|].
    by apply validate_rest_mismatch. }
  assert (Hn : 2 ≤ length (att0 :: rest)).
  { destruct Hmix as (att & Hin & _). destruct rest; simpl; [|lia].
    by apply elem_of_nil in Hin. }
  split; [done|].
  unfold MaxCoverAttestationAggregation, optMaxCoverAttestationAggregation,
    validateAttestations.
  rewrite Hv, len_slice_of.
  destruct (Nat.ltb_spec (length (att0 :: rest)) 2); [lia|].
  by rewrite decide_True by done.
Qed.

(** C6: an input of fewer than two attestations, the empty slice and the
    nil slice included, is returned as it is, with a nil error, by both
    engines. *)
Theorem fewer_than_two_returned_unchanged (atts : slice Attestation) :
  len atts < 2 →
  MaxCoverAttestationAggregation atts
    = Ok {| result := atts; err := None; caller_array := elems atts |}
  ∧ optMaxCoverAttestationAggregation atts
    = Ok {| opt_result := pointers atts; opt_err := None |}.
Proof.
  intros Hn.
  unfold MaxCoverAttestationAggregation, optMaxCoverAttestationAggregation.
  by destruct (Nat.ltb_spec (len atts) 2); [|lia].
Qed.

(** C7: on a batch of n attestations the loop of either engine makes at
    most n/2 passes, so every call ends (the loop is a recursion on the
    number of passes left); it is left at its first pass when fewer than
    two attestations are unaggregated, and when the selection has fewer than
    two members. *)
Theorem rounds_bounded (atts : list Attestation) :
  rounds_made atts ≤ length atts / 2
  ∧ opt_rounds_made atts ≤ length atts / 2
  ∧ (∀ r n st, ulen st < 2 → rounds (S r) n st = (1, Ok (st, None)))
  ∧ (∀ r n st solution,
       Cover (NewMaxCover (unaggregated st)) n false = inr solution →
       length (Keys solution) < 2 →
       rounds (S r) n st = (1, Ok (st, None)))
  ∧ (∀ r st, unagg_len st < 2 → opt_rounds (S r) st = (1, Ok (st, None)))
  ∧ (∀ r st selectedKeys coverage,
       MaxCover (candidates st) (cand_len st) false
         = inr (selectedKeys, coverage) →
       Count selectedKeys < 2 →
       opt_rounds (S r) st = (1, Ok (st, None))).
Proof.
  split_and!.
  - apply rounds_count_le.
  - apply opt_rounds_count_le.
  - apply rounds_exit_few_unaggregated.
  - apply rounds_exit_small_selection.
  - apply opt_rounds_exit_few_unaggregated.
  - apply opt_rounds_exit_small_selection.
Qed.


(** C9: neither engine returns the invalid-attestation-count error: the
    branches of [aggregate] and [aggregateAttestations] that produce it are
    never reached from the engines, which call them only with a selection of
    two members or more. *)
Theorem invalid_count_unreachable (atts : slice Attestation) :
  (∀ ret, MaxCoverAttestationAggregation atts = Ok ret →
          err ret ≠ Some ErrInvalidAttestationCount)
  ∧ (∀ ret, optMaxCoverAttestationAggregation atts = Ok ret →
            opt_err ret ≠ Some ErrInvalidAttestationCount).
Proof.
  split; intros ret.
  - unfold MaxCoverAttestationAggregation.
    destruct (len atts <? 2); [by intros [= <-]|].
    destruct (validate atts) as [e|] eqn:Hv.
    { apply validate_error in Hv.
      destruct (decide _); intros [= <-]; simpl; congruence. }
    destruct (rounds _ _ _).2 as [[st [e|]]|] eqn:Hexit; simpl; [| |done].
    + intros [= <-]. simpl. apply rounds_error in Hexit. congruence.
    + destruct (filterContained _); [|done]. by intros [= <-].
  - unfold optMaxCoverAttestationAggregation, validateAttestations.
    destruct (len atts <? 2); [by intros [= <-]|].
    destruct (validate atts) as [e|] eqn:Hv.
    { apply validate_error in Hv.
      destruct (decide _); intros [= <-]; simpl; congruence. }
    destruct (index _ 0) as [c0|]; [|done]. simpl.
    destruct (opt_rounds _ _).2 as [[st [e|]]|] eqn:Hexit; simpl; [| |done].
    + intros [= <-]. simpl. apply opt_rounds_error in Hexit. congruence.
    + destruct (filterContainedAttestations _); [|done]. by intros [= <-].
Qed.

End EngineContract.

Section Containment.
Context `{!Collaborators}.

Lemma band_comm b c : band b c = band c b.
Proof.
  unfold band. revert c. induction b as [|x b IH]; intros [|y c]; simpl;
    [done..|].
  by rewrite IH, andb_comm.
Qed.

(** A strict subset has strictly fewer bits. *)
Lemma strict_subset_bits_Count b c :
  Len b = Len c → strict_subset_bits c b → Count c < Count b.
Proof.
  intros E [Hcb Hbc].
  pose proof (subset_bits_Count c b E Hcb) as Hle.
  destruct (decide (Count c = Count b)) as [Heq|]; [|lia].
  exfalso. apply Hbc. apply Count_band_subset; [done|].
  rewrite band_comm.
  apply Count_band_subset in Hcb; [|done]. lia.
Qed.

(** C3, as the code has it by design: the containment filter runs over the
    unaggregated attestations only.  On a valid batch, with a sound solver
    and a sound sort, the engine returns every aggregate of its loop,
    followed by survivors taken from the unaggregated attestations, and an
    unaggregated attestation is left out only when a survivor contains it.
    An aggregate is not compared with any other returned attestation. *)
Theorem containment_filter_spares_aggregates L (atts : list Attestation) :
  Cover_sound → sort_Slice_sound →
  2 ≤ length atts → valid_batch L atts →
  ∃ st survivors ret,
    loop_exit atts = Ok (st, err ret)
    ∧ MaxCoverAttestationAggregation (slice_of atts) = Ok ret
    ∧ result ret = slice_of (aggregated st ++ survivors)
    ∧ (∀ x, x ∈ survivors → x ∈ unaggregated st)
    ∧ (∀ x, x ∈ unaggregated st →
         ∃ y, y ∈ survivors ∧ subset_bits (bitsOf x) (bitsOf y)).
Proof.
  intros HC HS Hn Hvalid.
  destruct (MaxCoverAttestationAggregation_sound L atts HC HS Hn Hvalid)
    as (st & survivors & ret & Hexit & Hinv & Hret & Hres & Hsub & Hcont
        & _).
  by exists st, survivors, ret.
Qed.

(** The caller's array after a call that returns: it has the length it had
    and holds only attestations that it held before the call. *)
Lemma caller_array_frame (atts : slice Attestation) (ret : returned) :
  sort_Slice_sound →
  MaxCoverAttestationAggregation atts = Ok ret →
  length (caller_array ret) = len atts
  ∧ ∀ x, x ∈ caller_array ret → x ∈ elems atts.
Proof.
  intros HS. unfold MaxCoverAttestationAggregation.
  destruct (Nat.ltb_spec (len atts) 2) as [|Hn]; [by intros [= <-]|].
  destruct (validate atts) as [e|] eqn:Hv.
  { by destruct (decide _); intros [= <-]. }
  destruct atts as [|atts]; [done|]. simpl in Hn. simpl elems.
  apply validate_None in Hv as (_ & L & Hvalid).
  pose proof (valid_batch_lengths _ _ Hvalid) as HL.
  rewrite len_slice_of.
  destruct (rounds _ _ _).2 as [[st e]|] eqn:Hexit; [|done]. simpl.
  pose proof (rounds_frame atts _ _ _ _ _ Hexit (initial_frame atts))
    as (Hlen & Hul & Hin & Hsub).
  destruct e as [e|]; [by intros [= <-]|].
  destruct (filterContained_sound L (storage st) (ulen st) HS)
    as (al & -> & Hal & Harr & _); [lia| |].
  { apply Forall_forall. intros x Hx.
    eapply Forall_forall in HL; [done|].
    eapply sublist_subseteq; [apply Hsub|done]. }
  simpl. intros [= <-]. simpl. split; [congruence|].
  intros x Hx. by apply Hin, Harr.
Qed.

(** C10, as the code has it: the engine filters and sorts in the caller's
    array.  With a sound sort, after a call that returns, the caller's slice
    has the length it had and holds only attestations that it held before
    the call, none of them modified; and it is left as it was, every cell
    in its place, when the input has fewer than two attestations or does
    not pass validation. *)
Theorem caller_array_holds_input (atts : slice Attestation) (ret : returned) :
  sort_Slice_sound →
  MaxCoverAttestationAggregation atts = Ok ret →
  length (caller_array ret) = len atts
  ∧ (∀ x, x ∈ caller_array ret → x ∈ elems atts)
  ∧ (len atts < 2 ∨ validate atts ≠ None → caller_array ret = elems atts).
Proof.
  intros HS Hret.
  destruct (caller_array_frame atts ret HS Hret) as [Hlen Hin].
  split_and!; [done..|]. revert Hret. unfold MaxCoverAttestationAggregation.
  destruct (Nat.ltb_spec (len atts) 2) as [|Hn]; [by intros [= <-]|].
  destruct (validate atts) as [e|] eqn:Hv.
  - by destruct (decide _); intros [= <-].
  - intros _ [?|?]; [lia|done].
Qed.

(** Coverage conservation of the straightforward engine: on a valid batch,
    with a sound solver and a sound sort, the engine returns, with or without
    an error, and a bit is set in some returned attestation exactly when it
    is set in some attestation of the batch. *)
Theorem MaxCoverAttestationAggregation_conserves_coverage
    L (atts : list Attestation) :
  Cover_sound → sort_Slice_sound → valid_batch L atts →
  ∃ ret, MaxCoverAttestationAggregation (slice_of atts) = Ok ret
         ∧ ∀ i, covers (elems (result ret)) i = covers atts i.
Proof.
  intros HC HS Hvalid. destruct (Nat.lt_ge_cases (length atts) 2) as [Hn|Hn].
  { exists {| result := slice_of atts; err := None; caller_array := atts |}.
    split; [|done]. unfold MaxCoverAttestationAggregation.
    rewrite len_slice_of. by destruct (Nat.ltb_spec (length atts) 2); [|lia]. }
  destruct (MaxCoverAttestationAggregation_sound L atts HC HS Hn Hvalid)
    as (st & survivors & ret & Hexit & Hinv & Hret & Hres & Hsub & Hcont
        & _).
  exists ret. split; [done|]. rewrite Hres. simpl.
  destruct Hinv as (_ & _ & _ & _ & _ & Hcov).
  intros i. rewrite <-Hcov. apply covers_ext.
  - intros x Hx. apply elem_of_app in Hx as [Hx|Hx].
    + exists x. split; [|by unfold subset_bits]. apply elem_of_app. by left.
    + exists x. split; [|by unfold subset_bits]. apply elem_of_app.
      right. by apply Hsub.
  - intros y Hy. apply elem_of_app in Hy as [Hy|Hy].
    + exists y. split; [|by unfold subset_bits]. apply elem_of_app. by left.
    + destruct (Hcont y Hy) as (x & Hx & Hs).
      exists x. split; [|done]. apply elem_of_app. by right.
Qed.

End Containment.

(** ** The optimized engine never completes a round that aggregates *)

Lemma BitIndices_from_spec b : ∀ i x,
  x ∈ BitIndices_from i b ↔ ∃ j, x = i + j ∧ b !! j = Some true.
Proof.
  induction b as [|y b IH]; intros i x; simpl.
  - split; [by intros ?%elem_of_nil|]. by intros (j & _ & ?).
  - assert (Hrec : x ∈ BitIndices_from (S i) b ↔
                   ∃ j, x = i + S j ∧ b !! j = Some true).
    { rewrite IH. by setoid_rewrite Nat.add_succ_r. }
    destruct y.
    + rewrite elem_of_cons, Hrec. split.
      * intros [->|(j & -> & Hj)].
        -- exists 0. split; [lia|done].
        -- by exists (S j).
      * intros ([|j] & -> & Hj); [left; lia|right; eauto].
    + rewrite Hrec. split.
      * intros (j & -> & Hj). by exists (S j).
      * intros ([|j] & -> & Hj); [done|eauto].
Qed.

Lemma BitIndices_from_length b : ∀ i, length (BitIndices_from i b) = Count b.
Proof.
  induction b as [|y b IH]; intros i; simpl; [done|].
  destruct y; simpl; by rewrite IH.
Qed.

Lemma Count_SetBitAt_false b idx : Count b ≤ S (Count (SetBitAt b idx false)).
Proof.
  unfold SetBitAt. revert idx.
  induction b as [|y b IH]; intros [|idx]; simpl; try lia.
  - destruct y; lia.
  - specialize (IH idx). lia.
Qed.

Lemma BitIndices_SetBitAt_false b idx x :
  x ∈ BitIndices (SetBitAt b idx false) → x ∈ BitIndices b.
Proof.
  unfold BitIndices, SetBitAt. rewrite !BitIndices_from_spec.
  intros (j & -> & Hj). exists j. split; [done|].
  apply list_lookup_insert_Some in Hj as [(_ & ? & _)|[_ Hj]]; done.
Qed.

Lemma bxor_zeros b : bxor (zeros (Len b)) b = b.
Proof.
  unfold bxor, zeros, Len. induction b as [|y b IH]; simpl; [done|].
  by rewrite IH.
Qed.

Section OptimizedPanics.
Context `{!Collaborators}.

Lemma store_in_Ok {A} (arr : list A) off n i x arr' :
  store_in arr off n i x = Ok arr' →
  i < n ∧ off + i < length arr ∧ arr' = <[off + i := x]> arr.
Proof.
  unfold store_in. destruct (Nat.ltb_spec i n); [|done].
  destruct (Nat.ltb_spec (off + i) (length arr)); [|done]. simpl.
  by intros [= <-].
Qed.

Lemma swap_Ok {A} (l : list A) i j l' :
  swap l i j = Ok l' →
  ∃ x y, l !! i = Some x ∧ l !! j = Some y ∧ l' = <[j := x]> (<[i := y]> l).
Proof.
  unfold swap. destruct (index l i) as [x|] eqn:Hi; [|done]. simpl.
  destruct (index l j) as [y|] eqn:Hj; [|done]. simpl.
  intros [= <-]. apply index_Ok in Hi, Hj. eauto.
Qed.

Lemma Forall_is_Some_insert {A} (l : list (option A)) i x :
  Forall is_Some l → Forall is_Some (<[i := Some x]> l).
Proof. intros. by apply Forall_insert. Qed.

Lemma swap_is_Some {A} (l l' : list (option A)) i j :
  swap l i j = Ok l' → Forall is_Some l →
  Forall is_Some l' ∧ length l' = length l.
Proof.
  intros (x & y & Hi & Hj & ->)%swap_Ok Hl. split.
  - apply Forall_insert; [apply Forall_insert; [done|]|];
      eapply Forall_lookup_1; done.
  - by rewrite !length_insert.
Qed.

Lemma aggregateAttestations_loop_inr atts indices :
  ∀ signs data idx signs' data' idx',
  aggregateAttestations_loop atts indices signs data idx
    = Ok (inr (signs', data', idx')) →
  Forall (λ i, i < length atts) indices ∧ (idx' = idx ∨ idx' ∈ indices).
Proof.
  induction indices as [|i indices IH]; intros signs data idx signs' data' idx';
    simpl.
  - intros [= _ _ <-]. by split; [|left].
  - destruct (index atts i) as [[att|]|] eqn:Hi; simpl; try done.
    apply index_Ok, lookup_lt_Some in Hi.
    destruct (signatureFromBytes _); [|done].
    destruct data; intros [Hall Hidx]%IH.
    + split; [by constructor|]. destruct Hidx; [by left|].
      right. by apply list_elem_of_further.
    + split; [by constructor|]. right. destruct Hidx as [->|].
      * apply list_elem_of_here.
      * by apply list_elem_of_further.
Qed.

Lemma aggregateAttestations_inr atts selectedKeys coverage atts' aggIdx :
  aggregateAttestations atts selectedKeys coverage = Ok (inr (atts', aggIdx)) →
  Forall is_Some atts →
  Forall (λ i, i < length atts) (BitIndices selectedKeys)
  ∧ Forall is_Some atts' ∧ length atts' = length atts.
Proof.
  unfold aggregateAttestations. destruct (Count selectedKeys <? 2); [done|].
  destruct (aggregateAttestations_loop _ _ _ _ _)
    as [[e|[[signs data] idx]]|] eqn:Hl; simpl; try done.
  apply aggregateAttestations_loop_inr in Hl as [Hall _].
  destruct (store_in _ _ _ _ _) as [atts1|] eqn:Hs; simpl; [|done].
  apply store_in_Ok in Hs as (_ & _ & ->). intros [= <- <-] Hsome.
  split_and!; [done|by apply Forall_is_Some_insert|by rewrite length_insert].
Qed.

(** What [opt_materialize] leaves when it succeeds: no cell of the array
    is nil, [candidates] has lost its first cell, and one selected key is
    cleared. *)
Lemma opt_materialize_inr st selectedKeys coverage st1 selectedKeys1 :
  opt_materialize st selectedKeys coverage = Ok (inr (st1, selectedKeys1)) →
  Forall is_Some (atts_array st) →
  Forall (λ i, i < length (atts_array st)) (BitIndices selectedKeys)
  ∧ Forall is_Some (atts_array st1)
  ∧ length (atts_array st1) = length (atts_array st)
  ∧ cand_len st1 = cand_len st - 1
  ∧ ∃ aggIdx, selectedKeys1 = SetBitAt selectedKeys aggIdx false.
Proof.
  unfold opt_materialize. intros Hm Hsome.
  destruct (aggregateAttestations _ _ _) as [[e|[atts1 aggIdx]]|] eqn:Ha;
    simpl in Hm; try done.
  apply aggregateAttestations_inr in Ha as (Hidx & Hsome1 & Hlen1); [|done].
  destruct (agg_len st <? aggIdx); simpl in Hm.
  - destruct (swap atts1 _ _) as [atts2|] eqn:Hsw; simpl in Hm; [|done].
    apply swap_is_Some in Hsw as [Hsome2 Hlen2]; [|done].
    destruct (swap_in _ _ _ _ _); simpl in Hm; [|done].
    destruct (_ && _); [|done].
    destruct (NoAllocOr _ _); simpl in Hm; [|done].
    simplify_eq. simpl. split_and!; [done..|congruence|done|by eexists].
  - destruct (_ && _); [|done].
    destruct (NoAllocOr _ _); simpl in Hm; [|done].
    simplify_eq. simpl. split_and!; [done..|by eexists].
Qed.

Lemma rearrange_clear_Ok processedKeys : ∀ atts cands off n atts' cands',
  rearrange_clear processedKeys atts cands off n = Ok (atts', cands') →
  Forall (λ i, i < n) processedKeys
  ∧ length atts' = length atts
  ∧ ∀ j, j ∉ processedKeys → atts' !! j = atts !! j.
Proof.
  induction processedKeys as [|idx keys IH]; intros atts cands off n atts' cands';
    simpl.
  - by intros [= <- <-].
  - destruct (store_in atts _ _ _ _) as [atts1|] eqn:Ha; simpl; [|done].
    destruct (store_in cands _ _ _ _) as [cands1|] eqn:Hc; simpl; [|done].
    apply store_in_Ok in Ha as (_ & _ & ->).
    apply store_in_Ok in Hc as (Hidx & _ & ->).
    intros (Hall & Hlen & Hkeep)%IH. split_and!.
    + by constructor.
    + by rewrite Hlen, length_insert.
    + intros j Hj. apply not_elem_of_cons in Hj as [Hne Hj].
      rewrite Hkeep by done. simpl.
      apply list_lookup_insert_ne. congruence.
Qed.

(** Once [candidates] is one cell shorter than the array,
    [rearrangeProcessedAttestations] panics on any key. *)
Lemma rearrangeProcessedAttestations_panics atts cands off n processedKeys :
  processedKeys ≠ [] → Forall is_Some atts →
  S n = length atts → 0 < n →
  rearrangeProcessedAttestations atts cands off n processedKeys = Panic.
Proof.
  intros Hne Hsome Hn Hpos. unfold rearrangeProcessedAttestations.
  destruct (rearrange_clear _ _ _ _ _) as [[atts' cands']|] eqn:Hc; [|done].
  simpl. apply rearrange_clear_Ok in Hc as (Hall & Hlen & Hkeep).
  destruct processedKeys as [|idx0 keys]; [done|]. simpl.
  apply Forall_cons in Hall as [Hidx0 Hall].
  assert (Hlast : ∃ att, atts' !! n = Some (Some att)).
  { rewrite Hkeep.
    - destruct (lookup_lt_is_Some_2 atts n) as [p Hp]; [lia|].
      rewrite Hp. eapply Forall_lookup_1 in Hsome as [att ->]; [|done].
      eauto.
    - intros [->|Hin]%elem_of_cons; [lia|].
      eapply Forall_forall in Hall; [|done]. simpl in Hall. lia. }
  destruct Hlast as [att Hatt].
  rewrite Hlen, <-Hn. simpl. rewrite Nat.sub_0_r.
  destruct n as [|n]; [lia|]. simpl.
  destruct (Nat.ltb_spec idx0 (S n)); [|lia].
  rewrite (index_Some _ _ _ Hatt). simpl.
  destruct (Nat.eqb_spec idx0 (S n)); [lia|].
  destruct (swap atts' idx0 (S n)); [|done]. simpl.
  unfold swap_in. rewrite Nat.ltb_irrefl, andb_false_r. done.
Qed.

Lemma opt_round_initial (atts : list Attestation) selectedKeys coverage :
  2 ≤ length atts →
  MaxCover (candidates (opt_initial atts)) (length atts) false
    = inr (selectedKeys, coverage) →
  2 ≤ Count selectedKeys → 0 < Count coverage →
  opt_round (opt_initial atts) = Panic
  ∨ opt_round (opt_initial atts) = Ok (OptFail ErrSignature).
Proof.
  intros Hn Hsol Hsel Hcov. unfold opt_round.
  change (unagg_len (opt_initial atts)) with (length atts).
  change (cand_len (opt_initial atts)) with (length atts).
  destruct (Nat.ltb_spec (length atts) 2); [lia|]. rewrite Hsol.
  destruct (Nat.ltb_spec (Count selectedKeys) 2); [lia|].
  assert (∃ L0, coveredBitsSoFar (opt_initial atts) = zeros L0)
    as [L0 ->] by (by eexists).
  unfold XorCount, Xor.
  destruct (same_len (zeros L0) coverage) eqn:Hlen; [|by left].
  apply same_len_true in Hlen. unfold zeros, Len in Hlen.
  rewrite length_replicate in Hlen. subst L0.
  change (length coverage) with (Len coverage). rewrite bxor_zeros.
  cbn [mbind run_bind].
  destruct (Nat.ltb_spec 0 (Count coverage)); [|lia].
  destruct (opt_materialize _ _ _) as [[e|[st1 sel1]]|] eqn:Hm; simpl;
    [| |by left].
  - right. apply opt_materialize_error in Hm; [by subst|lia].
  - left. apply opt_materialize_inr in Hm
      as (Hidx & Hsome & Hlen1 & Hclen & aggIdx & ->).
    2:{ simpl. apply Forall_fmap, Forall_forall. intros att _. by eexists. }
    unfold opt_remove_processed.
    rewrite rearrangeProcessedAttestations_panics; [done| |done| |].
    + intros Hnil. apply (f_equal length) in Hnil.
      unfold BitIndices in Hnil. rewrite BitIndices_from_length in Hnil.
      pose proof (Count_SetBitAt_false selectedKeys aggIdx). simpl in Hnil.
      lia.
    + rewrite Hlen1, Hclen. simpl. rewrite length_fmap. lia.
    + rewrite Hclen. simpl. lia.
Qed.

(** X17: on a valid batch, whenever the first selection has two members or
    more and a coverage that is not empty, the optimized engine panics, or
    returns a signature error with the input list: it never returns an
    aggregate.  Whatever the solver selects, [rearrangeProcessedAttestations]
    indexes [candidates], cut by one at its front just before, with a
    position of the array. *)
Theorem optimized_engine_never_aggregates
    (atts : list Attestation) selectedKeys coverage :
  2 ≤ length atts → validate (slice_of atts) = None →
  MaxCover (candidates (opt_initial atts)) (length atts) false
    = inr (selectedKeys, coverage) →
  2 ≤ Count selectedKeys → 0 < Count coverage →
  optMaxCoverAttestationAggregation (slice_of atts) = Panic
  ∨ optMaxCoverAttestationAggregation (slice_of atts)
    = Ok {| opt_result := pointers (slice_of atts);
            opt_err := Some ErrSignature |}.
Proof.
  intros Hn Hv Hsol Hsel Hcov.
  rewrite optMaxCoverAttestationAggregation_validated by done.
  unfold opt_loop_exit.
  destruct (length atts / 2) as [|r] eqn:Hr.
  { apply Nat.div_small_iff in Hr; lia. }
  simpl opt_rounds.
  destruct (opt_round_initial atts selectedKeys coverage Hn Hsol Hsel Hcov)
    as [->| ->]; [by left|].
  right. simpl. unfold opt_aggregated, opt_unaggregated. simpl.
  rewrite drop_0, take_ge by (rewrite length_fmap; lia). done.
Qed.

End OptimizedPanics.


Section OptimizedSignatures.
Context `{!Collaborators}.

Lemma aggregateAttestations_loop_inl atts indices : ∀ signs data idx e,
  aggregateAttestations_loop atts indices signs data idx = Ok (inl e) →
  ∃ i att, atts !! i = Some (Some att)
           ∧ signatureFromBytes (Signature att) = None.
Proof.
  induction indices as [|i indices IH]; intros signs data idx e; simpl;
    [done|].
  destruct (index atts i) as [[att|]|] eqn:Hi; simpl; try done.
  apply index_Ok in Hi.
  destruct (signatureFromBytes _) eqn:Hsig; [|by eauto].
  destruct data; apply IH.
Qed.

Lemma opt_materialize_inl st selectedKeys coverage e :
  opt_materialize st selectedKeys coverage = Ok (inl e) →
  2 ≤ Count selectedKeys →
  ∃ i att, atts_array st !! i = Some (Some att)
           ∧ signatureFromBytes (Signature att) = None.
Proof.
  unfold opt_materialize, aggregateAttestations. intros He Hc.
  destruct (Nat.ltb_spec (Count selectedKeys) 2); [lia|].
  destruct (aggregateAttestations_loop _ _ _ _ _)
    as [[e'|[[signs data] idx]]|] eqn:Hl; simpl in He; try done.
  { by eapply aggregateAttestations_loop_inl. }
  destruct (store_in _ _ _ _ _); simpl in He; [|done].
  destruct (agg_len st <? idx); simpl in He.
  - destruct (swap _ _ _); simpl in He; [|done].
    destruct (swap_in _ _ _ _ _); simpl in He; [|done].
    destruct (_ && _); [|done].
    by destruct (NoAllocOr _ _).
  - destruct (_ && _); [|done].
    by destruct (NoAllocOr _ _).
Qed.

(** On a valid batch whose signatures decode, whenever the first selection
    has two members or more and a coverage that is not empty, the optimized
    engine panics. *)
Lemma optimized_engine_panics (atts : list Attestation) selectedKeys coverage :
  2 ≤ length atts → validate (slice_of atts) = None →
  MaxCover (candidates (opt_initial atts)) (length atts) false
    = inr (selectedKeys, coverage) →
  2 ≤ Count selectedKeys → 0 < Count coverage →
  Forall (λ att, signatureFromBytes (Signature att) ≠ None) atts →
  optMaxCoverAttestationAggregation (slice_of atts) = Panic.
Proof.
  intros Hn Hv Hsol Hsel Hcov Hsig.
  rewrite optMaxCoverAttestationAggregation_validated by done.
  unfold opt_loop_exit.
  destruct (length atts / 2) as [|r] eqn:Hr.
  { apply Nat.div_small_iff in Hr; lia. }
  simpl opt_rounds.
  destruct (opt_round_initial atts selectedKeys coverage Hn Hsol Hsel Hcov)
    as [->|Hfail]; [done|].
  exfalso. revert Hfail. unfold opt_round.
  change (unagg_len (opt_initial atts)) with (length atts).
  change (cand_len (opt_initial atts)) with (length atts).
  destruct (Nat.ltb_spec (length atts) 2); [lia|]. rewrite Hsol.
  destruct (Nat.ltb_spec (Count selectedKeys) 2); [lia|].
  destruct (XorCount _ _) as [xc|]; [|done]. simpl.
  destruct (0 <? xc).
  - destruct (opt_materialize _ _ _) as [[e|[st1 sel1]]|] eqn:Hm;
      simpl; try done.
    + intros _. apply opt_materialize_inl in Hm as (i & att & Hi & Hnone);
        [|lia].
      simpl in Hi. rewrite list_lookup_fmap in Hi.
      destruct (atts !! i) as [att'|] eqn:Hatt; simplify_eq/=.
      eapply Forall_lookup_1 in Hsig; [|done]. done.
    + by destruct (opt_remove_processed _ _).
  - simpl. by destruct (opt_remove_processed _ _).
Qed.

End OptimizedSignatures.

(** ** The two engines compared *)

Section Divergence.
Context `{!Collaborators}.

Lemma valid_batch_validate L (atts : list Attestation) :
  valid_batch L atts → 2 ≤ length atts → validate (slice_of atts) = None.
Proof.
  intros Hvalid Hn. apply validate_None. split; [|by exists L].
  intros ->. simpl in Hn. lia.
Qed.

(** C1, on the code: the straightforward engine conserves the coverage of
    every valid batch; the optimized engine does not.  On a valid batch
    whose signatures decode, whenever the first selection of the solver has
    two members or more and a coverage that is not empty, the optimized
    engine panics and returns nothing. *)
Theorem optimized_engine_loses_coverage
    L (atts : list Attestation) selectedKeys coverage :
  Cover_sound → sort_Slice_sound →
  valid_batch L atts → 2 ≤ length atts →
  MaxCover (candidates (opt_initial atts)) (length atts) false
    = inr (selectedKeys, coverage) →
  2 ≤ Count selectedKeys → 0 < Count coverage →
  Forall (λ att, signatureFromBytes (Signature att) ≠ None) atts →
  (∃ ret, MaxCoverAttestationAggregation (slice_of atts) = Ok ret
          ∧ ∀ i, covers (elems (result ret)) i = covers atts i)
  ∧ optMaxCoverAttestationAggregation (slice_of atts) = Panic.
Proof.
  intros HC HS Hvalid Hn Hsol Hsel Hcov Hsig. split.
  - by eapply MaxCoverAttestationAggregation_conserves_coverage.
  - eapply optimized_engine_panics; [done| |done..].
    by eapply valid_batch_validate.
Qed.

(** C2, on the code: under the same conditions the straightforward engine
    returns a list and the optimized engine returns none, so the two do not
    return the same coverages. *)
Theorem engines_disagree
    L (atts : list Attestation) selectedKeys coverage :
  Cover_sound → sort_Slice_sound →
  valid_batch L atts → 2 ≤ length atts →
  MaxCover (candidates (opt_initial atts)) (length atts) false
    = inr (selectedKeys, coverage) →
  2 ≤ Count selectedKeys → 0 < Count coverage →
  Forall (λ att, signatureFromBytes (Signature att) ≠ None) atts →
  (∃ ret l, MaxCoverAttestationAggregation (slice_of atts) = Ok ret
            ∧ result ret = slice_of l)
  ∧ ¬ ∃ ret, optMaxCoverAttestationAggregation (slice_of atts) = Ok ret.
Proof.
  intros HC HS Hvalid Hn Hsol Hsel Hcov Hsig. split.
  - destruct (MaxCoverAttestationAggregation_sound L atts HC HS Hn Hvalid)
      as (st & survivors & ret & _ & _ & Hret & Hres & _).
    by exists ret, (aggregated st ++ survivors).
  - intros [ret Hret].
    rewrite (optimized_engine_panics atts selectedKeys coverage) in Hret;
      [done..| |done|done|done|done].
    by eapply valid_batch_validate.
Qed.

End Divergence.

(** ** The engine on the example batches *)

Lemma valid_batch_pair_and_subset :
  @valid_batch spec_collaborators 4 pair_and_subset.
Proof. split; [lia|]. by repeat constructor. Qed.

Lemma valid_batch_overlapping_batch :
  @valid_batch spec_collaborators 4 overlapping_batch.
Proof. split; [lia|]. by repeat constructor. Qed.

Lemma mismatched_lengths_returned_unchanged_witness :
  validate (slice_of mixed_lengths)
    = Some (AggregationError ErrBitsDifferentLen)
  ∧ MaxCoverAttestationAggregation (slice_of mixed_lengths)
    = Ok {| result := slice_of mixed_lengths; err := None;
            caller_array := mixed_lengths |}
  ∧ optMaxCoverAttestationAggregation (slice_of mixed_lengths)
    = Ok {| opt_result := pointers (slice_of mixed_lengths);
            opt_err := None |}.
Proof.
  apply (@mismatched_lengths_returned_unchanged spec_collaborators
           (att_of [true; false]) [att_of [false; true; true]]
           [true; false]).
  - reflexivity.
  - simpl. lia.
  - exists (att_of [false; true; true]).
    split; [apply list_elem_of_here|simpl; lia].
Defined.

Lemma fewer_than_two_returned_unchanged_witness :
  (len (@nil_slice (@Attestation spec_collaborators)) < 2
   ∧ @MaxCoverAttestationAggregation spec_collaborators nil_slice
     = Ok {| result := nil_slice; err := None; caller_array := [] |}
   ∧ @optMaxCoverAttestationAggregation spec_collaborators nil_slice
     = Ok {| opt_result := nil_slice; opt_err := None |})
  ∧ (@MaxCoverAttestationAggregation spec_collaborators (slice_of [])
     = Ok {| result := slice_of []; err := None; caller_array := [] |}
     ∧ @optMaxCoverAttestationAggregation spec_collaborators (slice_of [])
       = Ok {| opt_result := slice_of []; opt_err := None |})
  ∧ (MaxCoverAttestationAggregation (slice_of [att_of [true]])
     = Ok {| result := slice_of [att_of [true]]; err := None;
             caller_array := [att_of [true]] |}
     ∧ optMaxCoverAttestationAggregation (slice_of [att_of [true]])
       = Ok {| opt_result := slice_of [Some (att_of [true])];
               opt_err := None |}).
Proof.
  split; [split|split].
  - unfold len. simpl. lia.
  - apply (@fewer_than_two_returned_unchanged spec_collaborators nil_slice).
    unfold len. simpl. lia.
  - apply (@fewer_than_two_returned_unchanged spec_collaborators
             (slice_of [])).
    unfold len. simpl. lia.
  - apply (@fewer_than_two_returned_unchanged spec_collaborators
             (slice_of [att_of [true]])).
    unfold len. simpl. lia.
Defined.


Lemma invalid_count_unreachable_witness :
  ∃ ret, MaxCoverAttestationAggregation (slice_of badly_signed) = Ok ret
         ∧ err ret = Some ErrSignature
         ∧ err ret ≠ Some ErrInvalidAttestationCount.
Proof.
  eexists. split; [vm_compute; reflexivity|]. split; [reflexivity|].
  apply (proj1 (@invalid_count_unreachable spec_collaborators
                  (slice_of badly_signed))).
  vm_compute. reflexivity.
Defined.

Lemma containment_filter_spares_aggregates_witness :
  ∃ st survivors ret,
    loop_exit pair_and_subset = Ok (st, err ret)
    ∧ MaxCoverAttestationAggregation (slice_of pair_and_subset) = Ok ret
    ∧ result ret = slice_of (aggregated st ++ survivors)
    ∧ (∀ x, x ∈ survivors → x ∈ unaggregated st)
    ∧ (∀ x, x ∈ unaggregated st →
         ∃ y, y ∈ survivors ∧ subset_bits (bitsOf x) (bitsOf y)).
Proof.
  apply (@containment_filter_spares_aggregates spec_collaborators 4
           pair_and_subset).
  - exact spec_Cover_sound.
  - exact spec_sort_Slice_sound.
  - simpl. lia.
  - exact valid_batch_pair_and_subset.
Defined.

Lemma caller_array_holds_input_witness :
  (∃ ret, MaxCoverAttestationAggregation (slice_of unsorted_batch) = Ok ret
          ∧ length (caller_array ret) = 2
          ∧ (∀ x, x ∈ caller_array ret → x ∈ unsorted_batch)
          ∧ (len (slice_of unsorted_batch) < 2
             ∨ validate (slice_of unsorted_batch) ≠ None →
             caller_array ret = unsorted_batch))
  ∧ (∃ ret, MaxCoverAttestationAggregation (slice_of mixed_lengths) = Ok ret
            ∧ validate (slice_of mixed_lengths) ≠ None
            ∧ caller_array ret = mixed_lengths).
Proof.
  split.
  - eexists. split; [vm_compute; reflexivity|].
    apply (@caller_array_holds_input spec_collaborators
             (slice_of unsorted_batch)).
    + exact spec_sort_Slice_sound.
    + vm_compute. reflexivity.
  - eexists. split; [vm_compute; reflexivity|]. split; [done|].
    apply (@caller_array_holds_input spec_collaborators
             (slice_of mixed_lengths)).
    + exact spec_sort_Slice_sound.
    + vm_compute. reflexivity.
    + right. done.
Defined.

Lemma MaxCoverAttestationAggregation_conserves_coverage_witness :
  ∃ ret, MaxCoverAttestationAggregation (slice_of overlapping_batch) = Ok ret
         ∧ ∀ i, covers (elems (result ret)) i = covers overlapping_batch i.
Proof.
  apply (@MaxCoverAttestationAggregation_conserves_coverage
           spec_collaborators 4 overlapping_batch).
  - exact spec_Cover_sound.
  - exact spec_sort_Slice_sound.
  - exact valid_batch_overlapping_batch.
Defined.

(** C3 as stated fails for a pair of an aggregate and a survivor: of
    [pair_and_subset] the engine returns the aggregate 1111 and the
    survivor 1000, which the filter never compares with it. *)
Lemma residual_containment_counterexample :
  ∃ ret x y,
    MaxCoverAttestationAggregation (slice_of pair_and_subset) = Ok ret
    ∧ err ret = None
    ∧ x ∈ elems (result ret) ∧ y ∈ elems (result ret)
    ∧ strict_subset_bits (bitsOf x) (bitsOf y).
Proof.
  eexists _, (att_of [true; false; false; false]), _.
  split; [vm_compute; reflexivity|]. simpl.
  split_and!; [done| | |].
  - apply list_elem_of_further, list_elem_of_here.
  - apply list_elem_of_here.
  - split.
    + intros i. by do 4 (destruct i as [|i]; [done|]).
    + intros Hs. by specialize (Hs 1 eq_refl).
Qed.

(** C10 as stated fails: the engine sorts the caller's array. *)
Lemma caller_array_changed_counterexample :
  ∃ ret, MaxCoverAttestationAggregation (slice_of unsorted_batch) = Ok ret
         ∧ caller_array ret ≠ unsorted_batch.
Proof.
  eexists. split; [vm_compute; reflexivity|]. done.
Qed.

(** C4 as stated fails: the engine returns, and among what it returns
    there is no attestation with the bits 110110 and none with the bits
    001000. *)
Lemma scenario_A_counterexample :
  ∃ ret,
    MaxCoverAttestationAggregation (slice_of scenario_A) = Ok ret
    ∧ (¬ ∃ x, x ∈ elems (result ret)
              ∧ bitsOf x = [true; true; false; true; true; false])
    ∧ (¬ ∃ x, x ∈ elems (result ret)
              ∧ bitsOf x = [false; false; true; false; false; false]).
Proof.
  eexists. split; [vm_compute; reflexivity|]. simpl.
  split; intros (x & Hx & Hb);
    apply list_elem_of_singleton in Hx as ->; done.
Qed.

(** C4, as the code and the solver of the spec have it: the three
    attestations of scenario A are disjoint from one another, the greedy
    selection takes all three, and the engine returns, with no error, one
    aggregate with the bits 111110 and nothing else. *)
Theorem scenario_A_one_aggregate :
  ∃ agg,
    MaxCoverAttestationAggregation (slice_of scenario_A)
    = Ok {| result := slice_of [agg]; err := None;
            caller_array := scenario_A |}
    ∧ bitsOf agg = [true; true; true; true; true; false]
    ∧ Data agg = Some 7.
Proof. eexists. split; [vm_compute; reflexivity|]. done. Qed.

(** The failing input of C1 evaluated: on two disjoint attestations the
    optimized engine panics ([rearrangeProcessedAttestations] indexes the
    candidates, already cut by one, out of range), where the straightforward
    engine returns the aggregate of the two. *)
Lemma two_disjoint_evaluation :
  optMaxCoverAttestationAggregation (slice_of two_disjoint) = Panic
  ∧ ∃ ret, MaxCoverAttestationAggregation (slice_of two_disjoint) = Ok ret
           ∧ err ret = None
           ∧ bitsOf <$> elems (result ret) = [[true; true]].
Proof.
  split; [vm_compute; reflexivity|].
  eexists. split; [vm_compute; reflexivity|]. done.
Qed.

(** The failing input of C2 evaluated: the straightforward engine returns
    an aggregate and a survivor, the optimized engine panics. *)
Lemma pair_and_subset_evaluation :
  optMaxCoverAttestationAggregation (slice_of pair_and_subset) = Panic
  ∧ ∃ ret, MaxCoverAttestationAggregation (slice_of pair_and_subset) = Ok ret
           ∧ err ret = None
           ∧ bitsOf <$> elems (result ret)
             = [[true; true; true; true]; [true; false; false; false]].
Proof.
  split; [vm_compute; reflexivity|].
  eexists. split; [vm_compute; reflexivity|]. done.
Qed.

Lemma valid_batch_two_disjoint :
  @valid_batch spec_collaborators 2 two_disjoint.
Proof. split; [lia|]. by repeat constructor. Qed.

Lemma optimized_engine_loses_coverage_witness :
  (∃ ret, MaxCoverAttestationAggregation (slice_of two_disjoint) = Ok ret
          ∧ ∀ i, covers (elems (result ret)) i = covers two_disjoint i)
  ∧ optMaxCoverAttestationAggregation (slice_of two_disjoint) = Panic.
Proof.
  apply (@optimized_engine_loses_coverage spec_collaborators 2 two_disjoint
           [true; true] [true; true]).
  - exact spec_Cover_sound.
  - exact spec_sort_Slice_sound.
  - exact valid_batch_two_disjoint.
  - simpl. lia.
  - vm_compute. reflexivity.
  - simpl. lia.
  - simpl. lia.
  - by repeat constructor.
Defined.

Lemma engines_disagree_witness :
  (∃ ret l, MaxCoverAttestationAggregation (slice_of pair_and_subset) = Ok ret
            ∧ result ret = slice_of l)
  ∧ ¬ ∃ ret,
        optMaxCoverAttestationAggregation (slice_of pair_and_subset) = Ok ret.
Proof.
  apply (@engines_disagree spec_collaborators 4 pair_and_subset
           [true; true; false] [true; true; true; true]).
  - exact spec_Cover_sound.
  - exact spec_sort_Slice_sound.
  - exact valid_batch_pair_and_subset.
  - simpl. lia.
  - vm_compute. reflexivity.
  - simpl. lia.
  - simpl. lia.
  - by repeat constructor.
Defined.

Lemma optimized_engine_never_aggregates_witness :
  optMaxCoverAttestationAggregation (slice_of two_disjoint) = Panic
  ∨ optMaxCoverAttestationAggregation (slice_of two_disjoint)
    = Ok {| opt_result := pointers (slice_of two_disjoint);
            opt_err := Some ErrSignature |}.
Proof.
  apply (@optimized_engine_never_aggregates spec_collaborators two_disjoint
           [true; true] [true; true]).
  - simpl. lia.
  - reflexivity.
  - vm_compute. reflexivity.
  - simpl. lia.
  - simpl. lia.
Defined.

(** ** The two selections of the straightforward engine *)

Section Selections.
Context `{!Collaborators}.

Lemma index_of_None k keys : index_of k keys = None ↔ k ∉ keys.
Proof.
  induction keys as [|k' keys IH]; simpl.
  - split; [intros _; apply not_elem_of_nil|done].
  - rewrite not_elem_of_cons. destruct (Nat.eqb_spec k' k) as [->|Hne].
    + split; [done|]. by intros [? _].
    + destruct (index_of k keys); simpl.
      * split; [done|]. intros [_ Hk]. by apply IH in Hk.
      * split; [|done]. intros _. split; [done|]. by apply IH.
Qed.

Lemma foundInKeys_found keys k :
  (foundInKeys keys k).1 = bool_decide (k ∈ keys).
Proof.
  unfold foundInKeys. destruct (index_of k keys) as [i|] eqn:E; simpl.
  - apply index_of_Some in E. symmetry. apply bool_decide_eq_true.
    by eapply list_elem_of_lookup_2.
  - apply index_of_None in E. symmetry. by apply bool_decide_eq_false.
Qed.

(** Cutting a found key out of the list, by overwriting it with the last
    key, keeps every other key. *)
Lemma foundInKeys_other keys k j :
  j ≠ k → j ∈ (foundInKeys keys k).2 ↔ j ∈ keys.
Proof.
  intros Hne. unfold foundInKeys.
  destruct (index_of k keys) as [q|] eqn:E; simpl; [|done].
  split.
  { intros Hj.
    assert (Ht : foundInKeys keys k
                 = (true, take (length keys - 1)
                            (<[q:=default 0 (last keys)]> keys))).
    { unfold foundInKeys. by rewrite E. }
    apply foundInKeys_true in Ht as [_ Hsub]. by apply Hsub. }
  apply index_of_Some in E. intros Hj.
  apply list_elem_of_lookup_1 in Hj as [p Hp].
  pose proof (lookup_lt_Some _ _ _ Hp) as Hlt.
  pose proof (lookup_lt_Some _ _ _ E) as Hq.
  assert (p ≠ q) by (intros ->; congruence).
  destruct (decide (p = length keys - 1)) as [->|Hlast].
  - assert (Hl : last keys = Some j) by (by rewrite last_lookup, Nat.sub_1_r in *).
    rewrite Hl. simpl.
    apply (list_elem_of_lookup_2 _ q). rewrite lookup_take_lt by lia.
    apply list_lookup_insert_eq. lia.
  - apply (list_elem_of_lookup_2 _ p). rewrite lookup_take_lt by lia.
    by rewrite list_lookup_insert_ne.
Qed.

Lemma complement_of_cells_not_in keys0 l : ∀ keys i,
  (∀ j, i ≤ j → j ∈ keys ↔ j ∈ keys0) →
  complement_of keys i l = cells_not_in keys0 i l.
Proof.
  induction l as [|att l IH]; intros keys i Hkeys; simpl; [done|].
  pose proof (foundInKeys_found keys i) as Hfound.
  pose proof (foundInKeys_other keys i) as Hother.
  destruct (foundInKeys keys i) as [found keys']. simpl in *. subst found.
  assert (Hrec : complement_of keys' (S i) l = cells_not_in keys0 (S i) l).
  { apply IH. intros j Hj. rewrite Hother by lia. apply Hkeys. lia. }
  rewrite Hrec.
  rewrite (bool_decide_ext (i ∈ keys) (i ∈ keys0)) by (by apply Hkeys).
  done.
Qed.

Lemma complement_of_0 keys l :
  complement_of keys 0 l = cells_not_in keys 0 l.
Proof. by apply complement_of_cells_not_in. Qed.

Lemma cells_not_in_ext keys1 keys2 l : ∀ i,
  (∀ j, i ≤ j → j ∈ keys1 ↔ j ∈ keys2) →
  cells_not_in keys1 i l = cells_not_in keys2 i l.
Proof.
  induction l as [|att l IH]; intros i Hkeys; simpl; [done|].
  rewrite (IH (S i)) by (intros j Hj; apply Hkeys; lia).
  by rewrite (bool_decide_ext (i ∈ keys1) (i ∈ keys2)) by (by apply Hkeys).
Qed.

Lemma cells_not_in_sublist keys l : ∀ i, cells_not_in keys i l `sublist_of` l.
Proof.
  induction l as [|att l IH]; intros i; simpl; [done|].
  destruct (bool_decide _); [by apply sublist_cons|by apply sublist_skip].
Qed.

Lemma omap_ext_elem {A B} (f g : A → option B) (l : list A) :
  (∀ x, x ∈ l → f x = g x) → omap f l = omap g l.
Proof.
  intros Hfg. apply list_omap_ext, Forall_Forall2_diag, Forall_forall.
  done.
Qed.

(** The cells at distinct positions and the cells at the other positions
    make up the list. *)
Lemma picked_and_cells_not_in l : ∀ i keys,
  NoDup keys → (∀ k, k ∈ keys → i ≤ k < i + length l) →
  omap (λ k, l !! (k - i)) keys ++ cells_not_in keys i l ≡ₚ l.
Proof.
  induction l as [|att l IH]; intros i keys Hnd Hrange.
  - destruct keys as [|k keys]; [done|].
    specialize (Hrange k (list_elem_of_here _ _)). simpl in Hrange. lia.
  - simpl cells_not_in. destruct (decide (i ∈ keys)) as [Hin|Hnin].
    + rewrite bool_decide_eq_true_2 by done.
      apply elem_of_Permutation in Hin as [keys' Hperm].
      assert (Hnd' : NoDup (i :: keys')) by (by rewrite <-Hperm).
      apply NoDup_cons in Hnd' as [Hi Hnd'].
      assert (Hrange' : ∀ k, k ∈ keys' → S i ≤ k < S i + length l).
      { intros k Hk. assert (k ≠ i) by (by intros ->).
        specialize (Hrange k). rewrite Hperm in Hrange.
        specialize (Hrange (list_elem_of_further _ _ _ Hk)).
        simpl in Hrange. lia. }
      rewrite Hperm at 1. simpl. rewrite Nat.sub_diag. simpl.
      apply Permutation_skip.
      rewrite (cells_not_in_ext keys keys' l (S i)).
      2:{ intros j Hj. rewrite Hperm, elem_of_cons. split; [|by right].
          intros [->|?]; [lia|done]. }
      rewrite (omap_ext_elem _ (λ k, l !! (k - S i)) keys');
        [by apply IH|].
      intros k Hk. specialize (Hrange' k Hk).
      by replace (k - i) with (S (k - S i)) by lia.
    + rewrite bool_decide_eq_false_2 by done.
      assert (Hrange' : ∀ k, k ∈ keys → S i ≤ k < S i + length l).
      { intros k Hk. assert (k ≠ i) by (by intros ->).
        specialize (Hrange k Hk). simpl in Hrange. lia. }
      rewrite <-Permutation_middle. apply Permutation_skip.
      rewrite (omap_ext_elem _ (λ k, l !! (k - S i)) keys);
        [by apply IH|].
      intros k Hk. specialize (Hrange' k Hk).
      by replace (k - i) with (S (k - S i)) by lia.
Qed.

Lemma selectUsingKeys_Forall2 (al : list Attestation) keys : ∀ selected,
  selectUsingKeys al keys = Ok selected ↔
  Forall2 (λ k att, al !! k = Some att) keys selected.
Proof.
  induction keys as [|k keys IH]; intros selected; simpl.
  - split; [by intros [= <-]|]. by intros ->%Forall2_nil_inv_l.
  - unfold index. destruct (al !! k) as [att|] eqn:Hk; simpl.
    + destruct (selectUsingKeys al keys) as [sel|]; simpl.
      * split.
        -- intros [= <-]. constructor; [done|]. by apply IH.
        -- intros (att' & sel' & Hatt & Hall & ->)%Forall2_cons_inv_l.
           apply IH in Hall. congruence.
      * split; [done|].
        intros (att' & sel' & Hatt & Hall & ->)%Forall2_cons_inv_l.
        by apply IH in Hall.
    + split; [done|].
      intros (att' & sel' & Hatt & Hall & ->)%Forall2_cons_inv_l.
      congruence.
Qed.

Lemma selectUsingKeys_Panic (al : list Attestation) keys :
  selectUsingKeys al keys = Panic ↔ ∃ k, k ∈ keys ∧ length al ≤ k.
Proof.
  induction keys as [|k keys IH]; simpl.
  - split; [done|]. by intros (k & ?%elem_of_nil & _).
  - unfold index. destruct (al !! k) as [att|] eqn:Hk; simpl.
    + apply lookup_lt_Some in Hk.
      destruct (selectUsingKeys al keys) as [sel|]; simpl.
      * split; [done|]. intros (k' & [->|Hin]%elem_of_cons & Hle); [lia|].
        assert (Hp : @Ok (list Attestation) sel = Panic); [|done].
        apply IH. eauto.
      * split; [|done]. intros _.
        destruct (proj1 IH eq_refl) as (k' & Hin & Hle).
        exists k'. split; [by apply list_elem_of_further|done].
    + apply lookup_ge_None in Hk. split; [|done]. intros _.
      exists k. split; [apply list_elem_of_here|done].
Qed.

Lemma Forall2_lookup_omap (al : list Attestation) keys selected :
  Forall2 (λ k att, al !! k = Some att) keys selected →
  omap (λ k, al !! k) keys = selected.
Proof.
  induction 1 as [|k att keys sel Hk _ IH]; simpl; [done|].
  rewrite Hk. f_equal. exact IH.
Qed.

(** X1: [selectUsingKeys] returns the cells at the keys, in the order of
    the keys (a key may come twice), and panics exactly when a key is not a
    position of the slice. *)
Theorem selectUsingKeys_by_position (al : list Attestation) keys :
  (∀ selected, selectUsingKeys al keys = Ok selected ↔
               Forall2 (λ k att, al !! k = Some att) keys selected)
  ∧ (selectUsingKeys al keys = Panic ↔ ∃ k, k ∈ keys ∧ length al ≤ k).
Proof.
  split; [apply selectUsingKeys_Forall2|apply selectUsingKeys_Panic].
Qed.

(** X2: [selectComplementUsingKeys] keeps, in their order, exactly the cells
    whose position is not one of the keys, whatever the order of the keys
    and even when a key comes twice (the closure cuts the keys it finds out
    of its list); it writes them over the front of the slice's own array and
    leaves the rest of the array as it was. *)
Theorem selectComplementUsingKeys_in_place arr n keys :
  n ≤ length arr →
  selectComplementUsingKeys {| array := arr; al_len := n |} keys
  = Ok {| array := cells_not_in keys 0 (take n arr)
                   ++ drop (length (cells_not_in keys 0 (take n arr))) arr;
          al_len := length (cells_not_in keys 0 (take n arr)) |}.
Proof.
  intros Hn. rewrite selectComplementUsingKeys_spec by done.
  by rewrite complement_of_0.
Qed.

(** X3: on keys that are distinct positions of the slice, what
    [selectUsingKeys] selects and what [selectComplementUsingKeys] keeps
    make up the slice: nothing is lost and nothing comes twice. *)
Theorem selections_partition_slice arr n keys :
  n ≤ length arr → NoDup keys → Forall (λ k, k < n) keys →
  ∃ selected al,
    selectUsingKeys (take n arr) keys = Ok selected
    ∧ selectComplementUsingKeys {| array := arr; al_len := n |} keys = Ok al
    ∧ selected ++ items al ≡ₚ take n arr
    ∧ length (items al) = n - length keys.
Proof.
  intros Hn Hnd Hkeys.
  assert (Hlen : length (take n arr) = n) by (by apply length_take_le).
  destruct (selectUsingKeys_spec (take n arr) keys) as (selected & Hsel & Hl).
  { by rewrite Hlen. }
  rewrite selectComplementUsingKeys_spec by done. rewrite complement_of_0.
  assert (Hperm : selected ++ cells_not_in keys 0 (take n arr) ≡ₚ take n arr).
  { apply selectUsingKeys_Forall2, Forall2_lookup_omap in Hsel as <-.
    pose proof (picked_and_cells_not_in (take n arr) 0 keys Hnd) as Hperm.
    rewrite (omap_ext_elem _ (λ k, take n arr !! k) keys) in Hperm.
    - apply Hperm. intros k Hk. eapply Forall_forall in Hkeys; [|done].
      simpl in Hkeys. lia.
    - intros k _. by rewrite Nat.sub_0_r. }
  eexists selected, _. split_and!; [done..| |]; unfold items; simpl;
    rewrite take_app_length; [done|].
  apply Permutation_length in Hperm. rewrite length_app in Hperm. lia.
Qed.

End Selections.

Lemma selectComplementUsingKeys_in_place_witness :
  selectComplementUsingKeys
    {| array := pair_and_subset; al_len := 3 |} [1; 0]
  = Ok {| array := [att_of [true; false; false; false];
                    att_of [false; false; true; true];
                    att_of [true; false; false; false]];
          al_len := 1 |}.
Proof.
  apply (@selectComplementUsingKeys_in_place spec_collaborators
           pair_and_subset 3 [1; 0]).
  simpl. lia.
Defined.

Lemma selections_partition_slice_witness :
  ∃ selected al,
    selectUsingKeys (take 3 pair_and_subset) [1; 0] = Ok selected
    ∧ selectComplementUsingKeys
        {| array := pair_and_subset; al_len := 3 |} [1; 0] = Ok al
    ∧ selected ++ items al ≡ₚ take 3 pair_and_subset
    ∧ length (items al) = 3 - length [1; 0].
Proof.
  apply (@selections_partition_slice spec_collaborators
           pair_and_subset 3 [1; 0]).
  - simpl. lia.
  - apply (bool_decide_unpack (NoDup [1; 0])). vm_compute. exact I.
  - repeat constructor; lia.
Defined.

(** ** Validation *)

Section Validation.
Context `{!Collaborators}.

Lemma validate_rest_Some L (rest : list Attestation) e :
  validate_rest L rest = Some e →
  e = AggregationError ErrBitsDifferentLen
  ∧ ∃ att, att ∈ rest ∧ (AggregationBits att = None ∨ Len (bitsOf att) ≠ L).
Proof.
  induction rest as [|att rest IH]; simpl; [done|].
  destruct (AggregationBits att) as [b|] eqn:E.
  - destruct (Nat.eqb_spec L (Len b)) as [->|Hne].
    + intros [-> (a & Ha & Hl)]%IH. split; [done|].
      exists a. split; [by apply list_elem_of_further|done].
    + intros [= <-]. split; [done|]. exists att.
      split; [apply list_elem_of_here|]. right. unfold bitsOf. rewrite E.
      congruence.
  - intros [= <-]. split; [done|]. exists att.
    split; [apply list_elem_of_here|]. by left.
Qed.

Lemma Len_bitsOf_0 (att : Attestation) :
  Len (bitsOf att) = 0 ↔
  AggregationBits att = None ∨ ∃ b, AggregationBits att = Some b ∧ Len b = 0.
Proof.
  unfold bitsOf. destruct (AggregationBits att) as [b|]; split.
  - intros Hl. right. eauto.
  - intros [?|(b' & [= <-] & ?)]; done.
  - by left.
  - done.
Qed.

(** X4: [validate] classifies every slice, in the order of its checks.  It
    returns nil only on a slice that is not empty and whose bit vectors are
    all there with one length above zero; the nil-list error only on the nil
    slice; the invalid-problem error only on the empty slice or when the
    first bit vector is nil or empty, whatever follows it; and the
    different-length error only when the first bit vector is not empty and a
    later one is nil or has another length.  No other error is returned. *)
Theorem validate_classification (al : slice Attestation) :
  match validate al with
  | None =>
    elems al ≠ [] ∧ ∃ L, valid_batch L (elems al)
  | Some ErrNilList => al = nil_slice
  | Some (AggregationError ErrInvalidMaxCoverProblem) =>
    al = slice_of []
    ∨ ∃ att0 rest, al = slice_of (att0 :: rest) ∧ Len (bitsOf att0) = 0
  | Some (AggregationError ErrBitsDifferentLen) =>
    ∃ att0 rest att,
      al = slice_of (att0 :: rest) ∧ 0 < Len (bitsOf att0)
      ∧ att ∈ rest
      ∧ (AggregationBits att = None ∨ Len (bitsOf att) ≠ Len (bitsOf att0))
  | Some _ => False
  end.
Proof.
  destruct al as [|[|att0 rest]]; simpl; [done|by left|].
  destruct (AggregationBits att0) as [b0|] eqn:E0.
  - destruct (Nat.eqb_spec (Len b0) 0) as [Hz|Hz].
    + right. exists att0, rest. split; [done|]. unfold bitsOf. by rewrite E0.
    + destruct (validate_rest (Len b0) rest) as [e|] eqn:Hrest.
      * apply validate_rest_Some in Hrest as [-> (att & Hin & Hatt)].
        exists att0, rest, att. unfold bitsOf at 1 3. rewrite E0.
        split_and!; [done|lia|done|done].
      * split; [done|]. exists (Len b0). split; [lia|].
        apply validate_rest_None in Hrest. constructor; [|done].
        unfold bitsOf. rewrite E0. split; done.
  - right. exists att0, rest. split; [done|]. unfold bitsOf. by rewrite E0.
Qed.

(** X5: a batch of two attestations or more whose first bit vector is nil or
    empty is fatal for both engines: they return the nil slice with the
    invalid-problem error, even if the other bit vectors have another
    length, and the straightforward engine leaves the caller's array as it
    was. *)
Theorem invalid_first_bitlist_is_fatal
    (att0 att1 : Attestation) (rest : list Attestation) :
  Len (bitsOf att0) = 0 →
  MaxCoverAttestationAggregation (slice_of (att0 :: att1 :: rest))
    = Ok {| result := nil_slice;
            err := Some (AggregationError ErrInvalidMaxCoverProblem);
            caller_array := att0 :: att1 :: rest |}
  ∧ optMaxCoverAttestationAggregation (slice_of (att0 :: att1 :: rest))
    = Ok {| opt_result := nil_slice;
            opt_err := Some (AggregationError ErrInvalidMaxCoverProblem) |}.
Proof.
  intros Hz.
  assert (Hv : validate (slice_of (att0 :: att1 :: rest))
               = Some (AggregationError ErrInvalidMaxCoverProblem)).
  { simpl. unfold bitsOf in Hz. destruct (AggregationBits att0) as [b0|];
      [|done]. by rewrite Hz. }
  unfold MaxCoverAttestationAggregation, optMaxCoverAttestationAggregation,
    validateAttestations.
  rewrite Hv. simpl. done.
Qed.

End Validation.

Lemma invalid_first_bitlist_is_fatal_witness :
  MaxCoverAttestationAggregation
    (slice_of [att_of []; att_of [true]; att_of [false]])
    = Ok {| result := nil_slice;
            err := Some (AggregationError ErrInvalidMaxCoverProblem);
            caller_array := [att_of []; att_of [true]; att_of [false]] |}
  ∧ optMaxCoverAttestationAggregation
      (slice_of [att_of []; att_of [true]; att_of [false]])
    = Ok {| opt_result := nil_slice;
            opt_err := Some (AggregationError ErrInvalidMaxCoverProblem) |}.
Proof.
  apply (@invalid_first_bitlist_is_fatal spec_collaborators
           (att_of []) (att_of [true]) [att_of [false]]).
  reflexivity.
Defined.

(** ** [hasCoverage] and [aggregate] *)

Section Materialize.
Context `{!Collaborators}.

Lemma Xor_Count_0 b c x :
  Xor b c = Ok x → (Count x = 0 ↔ b = c).
Proof.
  unfold Xor. destruct (same_len b c) eqn:E; [|done].
  apply same_len_true in E. intros [= <-]. by apply Count_bxor_0.
Qed.

Lemma Xor_Panic b c : Xor b c = Panic ↔ Len b ≠ Len c.
Proof.
  unfold Xor. destruct (same_len b c) eqn:E.
  - apply same_len_true in E. done.
  - split; [|done]. intros _ Hl. apply same_len_true in Hl. congruence.
Qed.

(** X6: [hasCoverage] answers true exactly when an attestation of the list
    has the bits of the coverage and every attestation before it has bits of
    the coverage's length; it answers false exactly when every attestation
    has bits of that length and none has the bits of the coverage; and it
    panics (the Xor of bit vectors of two lengths) exactly when an
    attestation of another length comes before any attestation with the
    bits of the coverage. *)
Theorem hasCoverage_finds_identical_bits
    (al : list Attestation) (coverage : Bitlist) :
  (hasCoverage al coverage = Ok true ↔
     ∃ i att, al !! i = Some att ∧ bitsOf att = coverage
              ∧ ∀ j x, j < i → al !! j = Some x →
                       Len (bitsOf x) = Len coverage)
  ∧ (hasCoverage al coverage = Ok false ↔
       ∀ x, x ∈ al → Len (bitsOf x) = Len coverage ∧ bitsOf x ≠ coverage)
  ∧ (hasCoverage al coverage = Panic ↔
       ∃ i att, al !! i = Some att ∧ Len (bitsOf att) ≠ Len coverage
                ∧ ∀ j x, j < i → al !! j = Some x → bitsOf x ≠ coverage).
Proof.
  induction al as [|att al (IHt & IHf & IHp)]; simpl.
  { split_and!; split; try done.
    - by intros (i & x & ? & _).
    - intros _ x Hx. by apply elem_of_nil in Hx.
    - by intros (i & x & ? & _). }
  destruct (Xor (bitsOf att) coverage) as [x|] eqn:Hx; simpl.
  - pose proof (Xor_Count_0 _ _ _ Hx) as Hz.
    assert (Hl : Len (bitsOf att) = Len coverage).
    { destruct (decide (Len (bitsOf att) = Len coverage)) as [|Hne]; [done|].
      apply Xor_Panic in Hne. congruence. }
    destruct (Nat.eqb_spec (Count x) 0) as [Hc|Hc].
    + apply Hz in Hc. split_and!; split; try done.
      * intros _. exists 0, att. split_and!; [done..|]. intros; lia.
      * intros Hall. destruct (Hall att) as [_ Hne]; [apply list_elem_of_here|].
        done.
      * intros (i & y & Hi & Hne & Hbefore). destruct i as [|i].
        -- by simplify_eq/=.
        -- exfalso. apply (Hbefore 0 att); [lia|done|done].
    + assert (Hne : bitsOf att ≠ coverage) by (intros ?; by apply Hc, Hz).
      split_and!.
      * rewrite IHt. split.
        -- intros (i & y & Hi & Hy & Hbefore). exists (S i), y.
           split_and!; [done..|]. intros [|j] z Hj Hz'; simplify_eq/=; [done|].
           apply (Hbefore j); [lia|done].
        -- intros (i & y & Hi & Hy & Hbefore). destruct i as [|i];
             simplify_eq/=. exists i, y. split_and!; [done..|].
           intros j z Hj Hz'. apply (Hbefore (S j)); [lia|done].
      * rewrite IHf. split.
        -- intros Hall y Hy. apply elem_of_cons in Hy as [->|Hy]; [done|].
           by apply Hall.
        -- intros Hall y Hy. apply Hall. by apply list_elem_of_further.
      * rewrite IHp. split.
        -- intros (i & y & Hi & Hy & Hbefore). exists (S i), y.
           split_and!; [done..|]. intros [|j] z Hj Hz'; simplify_eq/=; [done|].
           apply (Hbefore j); [lia|done].
        -- intros (i & y & Hi & Hy & Hbefore). destruct i as [|i];
             simplify_eq/=. exists i, y. split_and!; [done..|].
           intros j z Hj Hz'. apply (Hbefore (S j)); [lia|done].
  - apply Xor_Panic in Hx. split_and!; split; try done.
    + intros (i & y & Hi & Hy & Hbefore). destruct i as [|i].
      * by simplify_eq/=.
      * exfalso. apply Hx, (Hbefore 0); [lia|done].
    + intros Hall. destruct (Hall att) as [Hl _]; [apply list_elem_of_here|].
      done.
    + intros _. exists 0, att. split_and!; [done..|]. intros; lia.
Qed.

Lemma decode_signatures_Some (al : list Attestation) signs :
  decode_signatures al = Some signs ↔
  Forall2 (λ att sig, signatureFromBytes (Signature att) = Some sig) al signs.
Proof.
  revert signs. induction al as [|att al IH]; intros signs; simpl.
  - split; [intros [= <-]; constructor|by inversion 1].
  - destruct (signatureFromBytes (Signature att)) as [sig|] eqn:E.
    + destruct (decode_signatures al) as [signs'|].
      * split.
        -- intros [= <-]. constructor; [done|]. by apply IH.
        -- inversion 1 as [|? sig' ? signs'' Hsig Hrest]; simplify_eq.
           apply IH in Hrest. by simplify_eq.
      * split; [done|]. inversion 1 as [|? sig' ? signs'' Hsig Hrest];
          simplify_eq. by apply IH in Hrest.
    + split; [done|]. inversion 1; simplify_eq.
Qed.

Lemma decode_signatures_None (al : list Attestation) :
  decode_signatures al = None ↔
  ∃ att, att ∈ al ∧ signatureFromBytes (Signature att) = None.
Proof.
  induction al as [|att al IH]; simpl.
  - split; [done|]. intros (? & Hin & _). by apply elem_of_nil in Hin.
  - destruct (signatureFromBytes (Signature att)) as [sig|] eqn:E.
    + destruct (decode_signatures al) as [signs'|].
      * split; [done|]. intros (x & Hin & Hx).
        apply elem_of_cons in Hin as [->|Hin]; [congruence|].
        assert (@None (list bls_Signature) = None) as Hn by done.
        destruct IH as [_ IH]. discriminate IH. eauto.
      * split; [|done]. intros _. destruct IH as [IH _].
        destruct IH as (x & Hin & Hx); [done|].
        exists x. split; [by apply list_elem_of_further|done].
    + split; [|done]. intros _. exists att. split; [apply list_elem_of_here|done].
Qed.

(** X7: [aggregate] returns the count error exactly on fewer than two
    attestations, before it looks at a signature; the signature error only
    when there are two or more and a signature does not decode; and
    otherwise an attestation whose bits are the given coverage, whose vote
    data is that of the first attestation and whose signature is the
    marshalled aggregate of all the signatures, in the order of the list. *)
Theorem aggregate_result (al : list Attestation) (coverage : Bitlist) :
  match aggregate al coverage with
  | inl ErrInvalidAttestationCount => length al < 2
  | inl ErrSignature =>
    2 ≤ length al
    ∧ ∃ att, att ∈ al ∧ signatureFromBytes (Signature att) = None
  | inl _ => False
  | inr agg =>
    2 ≤ length al
    ∧ ∃ signs,
        Forall2 (λ att sig, signatureFromBytes (Signature att) = Some sig)
          al signs
        ∧ AggregationBits agg = Some coverage
        ∧ Data agg = (head al ≫= Data)
        ∧ Signature agg = Marshal (aggregateSignatures signs)
  end.
Proof.
  unfold aggregate. destruct al as [|att0 [|att1 al]]; [simpl; lia..|].
  destruct (decode_signatures (att0 :: att1 :: al)) as [signs|] eqn:Hd.
  - split; [simpl; lia|]. exists signs. split; [|done].
    by apply decode_signatures_Some.
  - split; [simpl; lia|]. by apply decode_signatures_None.
Qed.

End Materialize.

(** ** [aggregateAttestations] *)

Section AggregateInPlace.
Context `{!Collaborators}.

Lemma default_last_cons {A} (x y : A) l :
  default x (last (y :: l)) = default y (last l).
Proof.
  destruct l as [|z l]; [done|]. change (last (y :: z :: l)) with (last (z :: l)).
  destruct (last (z :: l)) eqn:E; [done|]. by apply last_None in E.
Qed.

Lemma last_elem_of {A} (l : list A) x : last l = Some x → x ∈ l.
Proof.
  rewrite last_Some. intros [l' ->]. apply elem_of_app. right.
  apply list_elem_of_here.
Qed.

Lemma target_index_elem_of d indices :
  indices ≠ [] → target_index d indices ∈ indices.
Proof.
  intros Hne. unfold target_index. destruct d.
  - destruct indices as [|i indices]; [done|]. apply list_elem_of_here.
  - destruct (last indices) as [i|] eqn:E.
    + by apply last_elem_of.
    + by apply last_None in E.
Qed.

(** The loop over the selected positions, on pointers that are not nil and
    attestations with the vote data [d]. *)
Lemma aggregateAttestations_loop_spec (atts : list Attestation) d indices :
  ∀ signs data idx,
  Forall (λ att, Data att = d) atts →
  Forall (λ i, i < length atts) indices →
  ∃ selected,
    selectUsingKeys atts indices = Ok selected
    ∧ aggregateAttestations_loop (Some <$> atts) indices signs data idx =
      match decode_signatures selected with
      | None => Ok (inl ErrSignature)
      | Some signs' =>
        Ok (inr (signs ++ signs',
                 match data with
                 | Some _ => data
                 | None => match indices with [] => None | _ => d end
                 end,
                 match data with
                 | Some _ => idx
                 | None =>
                   match d with
                   | Some _ => default idx (head indices)
                   | None => default idx (last indices)
                   end
                 end))
      end.
Proof.
  induction indices as [|i indices IH]; intros signs data idx Hd Hin.
  { exists []. split; [done|]. simpl. rewrite app_nil_r.
    by destruct data, d. }
  apply Forall_cons in Hin as [Hi Hin].
  destruct (lookup_lt_is_Some_2 atts i Hi) as [att Hatt].
  assert (Hdata : Data att = d).
  { eapply Forall_forall in Hd; [done|]. by eapply list_elem_of_lookup_2. }
  cbn [selectUsingKeys aggregateAttestations_loop].
  unfold index. rewrite list_lookup_fmap, Hatt. cbn.
  destruct (signatureFromBytes (Signature att)) as [sig|] eqn:Hsig.
  - destruct data as [d'|].
    + destruct (IH (signs ++ [sig]) (Some d') idx Hd Hin)
        as (selected & -> & ->).
      exists (att :: selected). split; [done|]. cbn. rewrite Hsig.
      destruct (decode_signatures selected) as [signs'|]; [|done].
      by rewrite <-app_assoc.
    + destruct (IH (signs ++ [sig]) (CopyAttestationData (Data att)) i Hd Hin)
        as (selected & -> & ->).
      exists (att :: selected). split; [done|]. cbn. rewrite Hsig.
      destruct (decode_signatures selected) as [signs'|]; [|done].
      rewrite <-app_assoc. unfold CopyAttestationData. rewrite Hdata.
      destruct d as [d'|]; [done|]. rewrite default_last_cons.
      by destruct indices.
  - destruct (selectUsingKeys_spec atts indices Hin) as (selected & -> & _).
    exists (att :: selected). split; [done|]. cbn. by rewrite Hsig.
Qed.

(** X8: on pointers that are not nil, attestations that carry one vote data
    [d] and selected positions inside the slice, [aggregateAttestations]
    returns the errors that [aggregate] returns on [selectUsingKeys] at the
    selected positions, and otherwise builds the attestation that
    [aggregate] builds from them for the bit vector [Bytes64 coverage], that
    is [coverage.Bytes()] read as a [Bitlist]: the coverage below its last
    set bit, not the coverage.  It writes it to one cell of the array: the
    first selected position when the vote data is not nil, the last one
    when it is nil. *)
Theorem aggregateAttestations_as_aggregate
    (atts : list Attestation) (selectedKeys coverage : Bitlist64)
    (d : option AttestationData) :
  Forall (λ att, Data att = d) atts →
  Forall (λ i, i < length atts) (BitIndices selectedKeys) →
  aggregateAttestations (Some <$> atts) selectedKeys coverage =
    selected ← selectUsingKeys atts (BitIndices selectedKeys);
    match aggregate selected (Bytes64 coverage) with
    | inl e => Ok (inl e)
    | inr agg =>
      Ok (inr (<[target_index d (BitIndices selectedKeys) := Some agg]>
                 (Some <$> atts),
               target_index d (BitIndices selectedKeys)))
    end.
Proof.
  intros Hd Hin. unfold aggregateAttestations.
  destruct (aggregateAttestations_loop_spec atts d (BitIndices selectedKeys)
              [] None 0 Hd Hin) as (selected & Hsel & ->).
  rewrite Hsel. cbn [mbind run_bind].
  pose proof (selectUsingKeys_length _ _ _ Hsel) as Hlen.
  unfold BitIndices in Hlen at 1. rewrite BitIndices_from_length in Hlen.
  destruct (Nat.ltb_spec (Count selectedKeys) 2) as [Hc|Hc].
  { unfold aggregate. destruct selected as [|? [|? ?]]; simpl in *; [done..|lia]. }
  destruct selected as [|att0 [|att1 selected]]; simpl in Hlen; [lia..|].
  unfold aggregate.
  destruct (decode_signatures (att0 :: att1 :: selected)) as [signs|];
    cbn [mbind run_bind app]; [|done].
  assert (Hne : BitIndices selectedKeys ≠ []).
  { intros E. apply (f_equal length) in E. unfold BitIndices in E.
    rewrite BitIndices_from_length in E. simpl in E. lia. }
  pose proof (target_index_elem_of d _ Hne) as Ht.
  assert (Hidx : match d with
                 | Some _ => default 0 (head (BitIndices selectedKeys))
                 | None => default 0 (last (BitIndices selectedKeys))
                 end = target_index d (BitIndices selectedKeys)) by done.
  rewrite Hidx.
  eapply Forall_forall in Hin; [|exact Ht]. simpl in Hin.
  unfold store_in. rewrite length_fmap.
  apply Nat.ltb_lt in Hin. cbn [Nat.add]. rewrite !Hin.
  cbn [andb mbind run_bind].
  assert (Hd0 : Data att0 = d).
  { apply selectUsingKeys_Forall2 in Hsel.
    destruct (BitIndices selectedKeys) as [|k ks]; [done|].
    apply Forall2_cons in Hsel as [Hk _].
    eapply Forall_forall in Hd; [done|]. by eapply list_elem_of_lookup_2. }
  unfold CopyAttestationData. rewrite Hd0.
  by destruct (BitIndices selectedKeys).
Qed.

Lemma aggregateAttestations_loop_cells atts indices :
  ∀ signs data idx signs' data' idx',
  aggregateAttestations_loop atts indices signs data idx
    = Ok (inr (signs', data', idx')) →
  (∀ i, i ∈ indices →
        ∃ att, atts !! i = Some (Some att)
               ∧ signatureFromBytes (Signature att) ≠ None)
  ∧ ((data = None → indices ≠ [] → idx' ∈ indices)
     ∧ (idx' = idx ∨ idx' ∈ indices)).
Proof.
  induction indices as [|i indices IH];
    intros signs data idx signs' data' idx' Hloop.
  { simpl in Hloop. simplify_eq. split; [|split; [done|by left]].
    intros i Hi. by apply elem_of_nil in Hi. }
  cbn [aggregateAttestations_loop] in Hloop.
  destruct (index atts i) as [[att|]|] eqn:Hi; cbn in Hloop; [|done..].
  apply index_Ok in Hi.
  destruct (signatureFromBytes (Signature att)) as [sig|] eqn:Hsig; [|done].
  destruct data as [d'|].
  - apply IH in Hloop as (Hcells & _ & Hidx). split_and!; [|done|].
    + intros j Hj. apply elem_of_cons in Hj as [->|Hj]; [|by apply Hcells].
      exists att. split; [done|]. by rewrite Hsig.
    + destruct Hidx as [->|Hidx]; [by left|right].
      by apply list_elem_of_further.
  - apply IH in Hloop as (Hcells & _ & Hidx). split_and!.
    + intros j Hj. apply elem_of_cons in Hj as [->|Hj]; [|by apply Hcells].
      exists att. split; [done|]. by rewrite Hsig.
    + intros _ _. destruct Hidx as [->|Hidx]; [apply list_elem_of_here|].
      by apply list_elem_of_further.
    + right. destruct Hidx as [->|Hidx]; [apply list_elem_of_here|].
      by apply list_elem_of_further.
Qed.

Lemma existsb_id_Count (b : Bitlist) :
  if existsb id b then 0 < Count b else Count b = 0 ∧ b = zeros (length b).
Proof.
  induction b as [|x b IH]; simpl; [done|].
  destruct x; simpl; [lia|]. destruct (existsb id b); [done|].
  destruct IH as [-> IH]. split; [done|]. unfold zeros in *. simpl.
  by rewrite <-IH.
Qed.

(** What is stored for a coverage: either the coverage has no set bit and
    the empty bitlist is stored, or the coverage is the stored bits, then
    the set bit that is read as the length bit, then zeros. *)
Lemma Bytes64_spec (b : Bitlist64) :
  Count b = 0 ∧ Bytes64 b = []
  ∨ ∃ n, b = Bytes64 b ++ true :: zeros n.
Proof.
  induction b as [|x b IH]; [by left|]. cbn [Bytes64].
  pose proof (existsb_id_Count b) as Hb.
  destruct (existsb id b).
  - destruct IH as [[Hc _]|[n Hn]]; [lia|]. right. exists n.
    simpl. by rewrite <-Hn.
  - destruct Hb as [Hc Hz]. destruct x.
    + right. exists (length b). simpl. by rewrite <-Hz.
    + left. simpl. by rewrite Hc.
Qed.

(** X9: when [aggregateAttestations] succeeds it has overwritten one cell of
    the array, at the selected position that it returns; the array keeps
    its length, and every selected position held a pointer that is not nil
    to an attestation whose signature decodes.  The bits of the attestation
    it stores are [coverage.Bytes()] read as a [Bitlist], not the coverage:
    the coverage is the stored bits followed by the set bit that is read as
    the length bit and by zeros, and nothing is stored of a coverage without
    a set bit. *)
Theorem aggregateAttestations_writes_one_cell
    (atts atts' : list (option Attestation))
    (selectedKeys coverage : Bitlist64) (targetIdx : nat) :
  aggregateAttestations atts selectedKeys coverage
    = Ok (inr (atts', targetIdx)) →
  targetIdx ∈ BitIndices selectedKeys
  ∧ (∃ agg, atts' = <[targetIdx := Some agg]> atts
            ∧ AggregationBits agg = Some (Bytes64 coverage)
            ∧ (Count coverage = 0 ∧ bitsOf agg = []
               ∨ ∃ n, coverage = bitsOf agg ++ true :: zeros n))
  ∧ length atts' = length atts
  ∧ ∀ i, i ∈ BitIndices selectedKeys →
         ∃ att, atts !! i = Some (Some att)
                ∧ signatureFromBytes (Signature att) ≠ None.
Proof.
  unfold aggregateAttestations. intros Hagg.
  destruct (Nat.ltb_spec (Count selectedKeys) 2) as [Hc|Hc]; [done|].
  destruct (aggregateAttestations_loop atts (BitIndices selectedKeys) [] None 0)
    as [[e|[[signs data] t]]|] eqn:Hloop; cbn in Hagg; [done| |done].
  destruct (store_in atts 0 (length atts) t _) as [atts1|] eqn:Hstore;
    cbn in Hagg; [|done].
  simplify_eq. apply store_in_Ok in Hstore as (_ & _ & ->).
  apply aggregateAttestations_loop_cells in Hloop as (Hcells & Ht & _).
  split_and!.
  - apply Ht; [done|]. intros E. apply (f_equal length) in E.
    unfold BitIndices in E. rewrite BitIndices_from_length in E.
    simpl in E. lia.
  - eexists. split_and!; [done|done|]. apply Bytes64_spec.
  - by rewrite length_insert.
  - done.
Qed.

End AggregateInPlace.

Lemma aggregateAttestations_as_aggregate_witness :
  aggregateAttestations (Some <$> pair_and_subset)
    [false; true; true] [true; false; true; true]
  = Ok (inr ([Some (att_of [true; true; false; false]);
              Some (@Build_Attestation spec_collaborators
                      (Some [true; false; true]) (Some 7)
                      [Byte.x01; Byte.x01]);
              Some (att_of [true; false; false; false])], 1)).
Proof.
  apply (@aggregateAttestations_as_aggregate spec_collaborators
           pair_and_subset [false; true; true] [true; false; true; true]
           (Some 7)).
  - repeat constructor.
  - repeat constructor; simpl; lia.
Defined.

Lemma aggregateAttestations_writes_one_cell_witness :
  1 ∈ BitIndices [false; true; true]
  ∧ (∃ agg, [Some (att_of [true; true; false; false]);
             Some (@Build_Attestation spec_collaborators
                     (Some [true; false; true]) (Some 7)
                     [Byte.x01; Byte.x01]);
             Some (att_of [true; false; false; false])]
            = <[1 := Some agg]> (Some <$> pair_and_subset)
            ∧ AggregationBits agg = Some [true; false; true]
            ∧ (Count [true; false; true; true] = 0 ∧ bitsOf agg = []
               ∨ ∃ n, [true; false; true; true]
                      = bitsOf agg ++ true :: zeros n))
  ∧ length [Some (att_of [true; true; false; false]);
            Some (@Build_Attestation spec_collaborators
                    (Some [true; false; true]) (Some 7)
                    [Byte.x01; Byte.x01]);
            Some (att_of [true; false; false; false])]
    = length (Some <$> pair_and_subset)
  ∧ ∀ i : nat, i ∈ BitIndices [false; true; true] →
         ∃ att : @Attestation spec_collaborators,
           (Some <$> pair_and_subset) !! i = Some (Some att)
           ∧ @signatureFromBytes spec_collaborators (Signature att) ≠ None.
Proof.
  apply (@aggregateAttestations_writes_one_cell spec_collaborators
           (Some <$> pair_and_subset) _
           [false; true; true] [true; false; true; true] 1).
  reflexivity.
Defined.

(** ** What [filterContained] returns *)

Section Survivors.
Context `{!Collaborators}.

Lemma StronglySorted_sublist {A} (R : relation A) (l k : list A) :
  l `sublist_of` k → StronglySorted R k → StronglySorted R l.
Proof.
  induction 1 as [|x l k Hsub IH|x l k Hsub IH]; intros Hs; [done|..].
  - apply StronglySorted_cons in Hs as [Hx Hs].
    apply StronglySorted_cons. split; [|by apply IH].
    eapply Forall_forall. intros y Hy. eapply Forall_forall in Hx; [done|].
    by eapply sublist_subseteq.
  - apply StronglySorted_cons in Hs as [_ Hs]. by apply IH.
Qed.

Lemma StronglySorted_by_count (l : list Attestation) :
  StronglySorted by_count l →
  StronglySorted (λ a b, Count (bitsOf b) ≤ Count (bitsOf a)) l.
Proof.
  induction 1 as [|x l Hs IH Hx]; constructor; [done|].
  eapply Forall_impl; [done|]. intros y Hy. by apply by_count_le.
Qed.

(** X10: on a slice of one attestation or more whose bit vectors have one
    length, [filterContained] returns; what it keeps is taken from the slice
    without taking any cell twice, is not empty, begins with an attestation
    of the largest popcount of the slice, and its popcounts never
    increase. *)
Theorem filterContained_keeps_largest L arr n :
  sort_Slice_sound → 0 < n → n ≤ length arr →
  Forall (λ att, Len (bitsOf att) = L) (take n arr) →
  ∃ al first,
    filterContained {| array := arr; al_len := n |} = Ok al
    ∧ items al ⊆+ take n arr
    ∧ head (items al) = Some first
    ∧ (∀ x, x ∈ take n arr → Count (bitsOf x) ≤ Count (bitsOf first))
    ∧ StronglySorted (λ a b, Count (bitsOf b) ≤ Count (bitsOf a)) (items al).
Proof.
  intros Hs Hn0 Hl HL. destruct (Nat.lt_ge_cases n 2) as [Hn|Hn].
  - assert (n = 1) as -> by lia.
    destruct arr as [|x arr]; [simpl in Hl; lia|].
    exists {| array := x :: arr; al_len := 1 |}, x.
    rewrite filterContained_short by (simpl; lia). unfold items. simpl.
    rewrite take_0. split_and!; try done.
    + intros y Hy. apply list_elem_of_singleton in Hy as ->. done.
    + repeat constructor.
  - destruct (filterContained_long arr n Hs Hn Hl)
      as (kept & sorted & Hsort & ->).
    destruct (Hs (take n arr)) as [Hperm _].
    pose proof (sort_Slice_by_count (take n arr) Hs) as Hsorted.
    rewrite Hsort in Hperm, Hsorted.
    assert (HL' : Forall (λ att, Len (bitsOf att) = L) (kept :: sorted)).
    { by rewrite Hperm. }
    apply Forall_cons in HL' as [Hk HL'].
    destruct (keep_uncontained_spec L sorted kept Hk HL')
      as (filtered & Hf & Hsub & _).
    rewrite Hf. simpl. eexists _, kept. split; [done|].
    unfold items. simpl. rewrite take_app_length.
    apply StronglySorted_by_count in Hsorted.
    split_and!.
    + rewrite <-Hperm. apply sublist_submseteq. by apply sublist_skip.
    + done.
    + intros x Hx. rewrite <-Hperm in Hx.
      apply elem_of_cons in Hx as [->|Hx]; [done|].
      apply StronglySorted_cons in Hsorted as [Hx' _].
      eapply Forall_forall in Hx'; [|done]. done.
    + eapply StronglySorted_sublist; [|done]. by apply sublist_skip.
Qed.

End Survivors.

Lemma filterContained_keeps_largest_witness :
  ∃ al first,
    filterContained {| array := unsorted_batch; al_len := 2 |} = Ok al
    ∧ items al ⊆+ take 2 unsorted_batch
    ∧ head (items al) = Some first
    ∧ (∀ x, x ∈ take 2 unsorted_batch
            → Count (bitsOf x) ≤ Count (bitsOf first))
    ∧ StronglySorted (λ a b, Count (bitsOf b) ≤ Count (bitsOf a)) (items al).
Proof.
  apply (@filterContained_keeps_largest spec_collaborators 2
           unsorted_batch 2).
  - exact spec_sort_Slice_sound.
  - lia.
  - simpl. lia.
  - repeat constructor.
Defined.

(** ** [rearrangeProcessedAttestations] *)

Section Rearrange.
Context `{!Collaborators}.

Lemma lookup_cleared {A} keys (l : list (option A)) i :
  cleared keys l !! i
  = (λ p, if bool_decide (i ∈ keys) then None else p) <$> l !! i.
Proof. unfold cleared. by rewrite list_lookup_imap. Qed.

Lemma length_cleared {A} keys (l : list (option A)) :
  length (cleared keys l) = length l.
Proof. unfold cleared. by rewrite length_imap. Qed.

Lemma cleared_insert {A} k keys (l : list (option A)) :
  cleared keys (<[k := None]> l) = cleared (k :: keys) l.
Proof.
  apply list_eq. intros i. rewrite !lookup_cleared.
  destruct (decide (i = k)) as [->|Hne].
  - rewrite (bool_decide_eq_true_2 (k ∈ k :: keys)) by apply list_elem_of_here.
    rewrite list_lookup_insert. case_decide as Hk.
    + destruct Hk as [_ Hk]. apply lookup_lt_is_Some_2 in Hk as [p ->].
      simpl. by case_match.
    + destruct (l !! k) as [p|] eqn:E; [|done]. destruct Hk.
      split; [done|]. by eapply lookup_lt_Some.
  - rewrite list_lookup_insert_ne by done.
    destruct (l !! i) as [p|]; [|done]. simpl.
    destruct (decide (i ∈ keys)) as [Hi|Hi].
    + rewrite !bool_decide_eq_true_2; [done|by apply list_elem_of_further|done].
    + rewrite !bool_decide_eq_false_2; [done| |done].
      intros [?|?]%elem_of_cons; done.
Qed.

Lemma cleared_nil {A} (l : list (option A)) : cleared [] l = l.
Proof.
  apply list_eq. intros i. rewrite lookup_cleared.
  by destruct (l !! i) as [p|].
Qed.

(** The first loop sets the cells at the keys to nil in both arrays. *)
Lemma rearrange_clear_spec keys : ∀ atts cands n,
  length cands = n → length atts = n →
  Forall (λ k, k < n) keys →
  rearrange_clear keys atts cands 0 n
  = Ok (cleared keys atts, cleared keys cands).
Proof.
  induction keys as [|k keys IH]; intros atts cands n Hc Ha Hk.
  { simpl. by rewrite !cleared_nil. }
  apply Forall_cons in Hk as [Hk Hkeys].
  cbn [rearrange_clear]. unfold store_in. cbn [Nat.add].
  rewrite Ha, Hc. apply Nat.ltb_lt in Hk. rewrite Hk.
  cbn [andb mbind run_bind].
  rewrite IH by (by rewrite ?length_insert).
  by rewrite !cleared_insert.
Qed.

(** The inner loop stops on the last cell after [idx0] that is not nil, or
    on [idx0] when there is none. *)
Lemma skip_nil_spec atts idx0 : ∀ idx1,
  idx1 < length atts → idx0 ≤ idx1 →
  ∃ r, skip_nil atts idx0 idx1 = Ok r
       ∧ idx0 ≤ r ∧ r ≤ idx1
       ∧ (∀ j, r < j → j ≤ idx1 → atts !! j = Some None)
       ∧ (r = idx0 ∨ ∃ a, atts !! r = Some (Some a)).
Proof.
  induction idx1 as [|idx1 IH]; intros Hl Hle.
  { exists 0. simpl. split_and!; [done|lia|lia|intros; lia|left; lia]. }
  cbn [skip_nil]. destruct (Nat.ltb_spec idx0 (S idx1)) as [Hlt|Hge].
  - destruct (lookup_lt_is_Some_2 atts (S idx1) Hl) as [p Hp].
    rewrite (index_Some _ _ _ Hp). cbn [mbind run_bind].
    destruct p as [a|].
    + exists (S idx1). split_and!; [done|lia|lia|intros; lia|right; eauto].
    + destruct IH as (r & -> & H1 & H2 & H3 & H4); [lia..|].
      exists r. split_and!; [done|lia|lia| |done].
      intros j Hj Hj'. destruct (decide (j = S idx1)) as [->|]; [done|].
      apply H3; lia.
  - exists (S idx1). split_and!; [done|lia|lia|intros; lia|left; lia].
Qed.

Lemma insert_head_Permutation {A} (l : list A) : ∀ j x y,
  l !! j = Some y → y :: <[j := x]> l ≡ₚ x :: l.
Proof.
  induction l as [|a l IH]; intros [|j] x y Hj; simplify_eq/=.
  - apply perm_swap.
  - rewrite perm_swap. rewrite (IH j x y Hj). apply perm_swap.
Qed.

Lemma swap_Permutation {A} (l : list A) : ∀ i j x y,
  l !! i = Some x → l !! j = Some y → <[j := x]> (<[i := y]> l) ≡ₚ l.
Proof.
  induction l as [|a l IH]; intros [|i] [|j] x y Hi Hj; simplify_eq/=.
  - done.
  - by apply insert_head_Permutation.
  - by apply insert_head_Permutation.
  - f_equiv. by apply IH.
Qed.

Lemma rearrange_move_spec
    (R : option Attestation → option Bitlist64 → Prop) keys :
  ∀ atts cands n,
  length atts = n → Forall (λ k, k < n) keys →
  nils_at keys atts → Forall2 R atts cands →
  ∃ atts' cands',
    rearrange_move keys atts cands 0 n = Ok (atts', cands')
    ∧ atts' ≡ₚ atts ∧ nils_at [] atts' ∧ Forall2 R atts' cands'.
Proof.
  induction keys as [|k keys IH]; intros atts cands n Ha Hk Hnil HR.
  { exists atts, cands. by split_and!. }
  apply Forall_cons in Hk as [Hk Hkeys].
  pose proof (Forall2_length _ _ _ HR) as Hc.
  cbn [rearrange_move].
  destruct (skip_nil_spec atts k (length atts - 1))
    as (r & -> & Hkr & Hrn & Hafter & Hr); [lia..|].
  cbn [mbind run_bind]. destruct Hnil as (t & Hge & Hlt).
  destruct (Nat.eqb_spec k r) as [<-|Hne].
  - apply IH; [done..| |done].
    destruct (lookup_lt_is_Some_2 atts k) as [p Hp]; [lia|].
    destruct p as [a|].
    + exists (S k). split.
      * intros j Hj Hj'. apply Hafter; lia.
      * intros j Hj Hj'. destruct (decide (j = k)) as [->|]; [congruence|].
        assert (j < t).
        { destruct (Nat.lt_ge_cases k t) as [?|Hkt]; [lia|].
          specialize (Hge k Hkt). rewrite Hge in Hp; [done|lia]. }
        pose proof (Hlt j ltac:(done) Hj') as [?|?]%elem_of_cons; done.
    + exists (t `min` k). split.
      * intros j Hj Hj'. destruct (Nat.lt_ge_cases j t) as [Hjt|Hjt].
        -- destruct (decide (j = k)) as [->|]; [done|]. apply Hafter; lia.
        -- by apply Hge.
      * intros j Hj Hj'.
        pose proof (Hlt j ltac:(lia) Hj') as [?|?]%elem_of_cons; [lia|done].
  - destruct Hr as [->|[a Hra]]; [done|].
    assert (Hrt : r < t).
    { destruct (Nat.lt_ge_cases r t) as [?|Hrt]; [done|].
      rewrite Hge in Hra; [done|done|lia]. }
    destruct (lookup_lt_is_Some_2 atts k) as [x Hx]; [lia|].
    destruct (Forall2_lookup_l _ _ _ _ _ HR Hx) as (cx & Hcx & HRx).
    destruct (Forall2_lookup_l _ _ _ _ _ HR Hra) as (cr & Hcr & HRr).
    unfold swap_in, swap.
    rewrite (index_Some _ _ _ Hx), (index_Some _ _ _ Hra).
    assert ((k <? n) = true) as -> by (apply Nat.ltb_lt; lia).
    assert ((r <? n) = true) as -> by (apply Nat.ltb_lt; lia).
    cbn [andb Nat.add mbind run_bind].
    rewrite (index_Some _ _ _ Hcx), (index_Some _ _ _ Hcr).
    cbn [mbind run_bind].
    destruct (IH (<[r := x]> (<[k := Some a]> atts))
                 (<[r := cx]> (<[k := cr]> cands)) n)
      as (atts' & cands' & -> & Hperm & Hnil' & HR').
    + by rewrite !length_insert.
    + done.
    + exists (match x with Some _ => S r | None => r end). split.
      * intros j Hj Hj'. rewrite !length_insert in Hj'.
        destruct (decide (j = r)) as [->|Hjr].
        -- destruct x; [lia|].
           rewrite list_lookup_insert_eq; [done|]. rewrite length_insert. lia.
        -- rewrite !list_lookup_insert_ne by (destruct x; lia).
           apply Hafter; destruct x; lia.
      * intros j Hj Hj'.
        destruct (decide (j = r)) as [->|Hjr].
        { rewrite list_lookup_insert_eq in Hj' by (rewrite length_insert; lia).
          destruct x; [done|lia]. }
        rewrite list_lookup_insert_ne in Hj' by done.
        destruct (decide (j = k)) as [->|Hjk].
        { rewrite list_lookup_insert_eq in Hj' by lia. done. }
        rewrite list_lookup_insert_ne in Hj' by done.
        assert (j < t) as Hjt by (destruct x; lia).
        pose proof (Hlt j Hjt Hj') as [?|?]%elem_of_cons; done.
    + by repeat apply Forall2_insert.
    + exists atts', cands'. split_and!; [done| |done..].
      rewrite Hperm. by apply swap_Permutation.
Qed.

Lemma nils_at_cleared keys (atts : list (option Attestation)) :
  nils_last atts → nils_at keys (cleared keys atts).
Proof.
  intros (live & Hlive & Hatts). exists (length live). split.
  - intros j Hj Hj'. rewrite length_cleared in Hj'. rewrite lookup_cleared.
    rewrite Hatts at 1. rewrite lookup_app_r by done.
    rewrite lookup_replicate_2.
    + simpl. by destruct (bool_decide (j ∈ keys)).
    + apply (f_equal length) in Hatts.
      rewrite length_app, length_replicate in Hatts. lia.
  - intros j Hj. rewrite lookup_cleared. rewrite Hatts at 1.
    rewrite lookup_app_l by done.
    destruct (lookup_lt_is_Some_2 live j Hj) as [p Hp]. rewrite Hp. simpl.
    destruct (decide (j ∈ keys)) as [|Hn]; [done|].
    rewrite bool_decide_eq_false_2 by done. intros [= ->].
    eapply Forall_lookup in Hlive; [|done]. by destruct Hlive.
Qed.

Lemma nils_at_nils_last (atts : list (option Attestation)) :
  nils_at [] atts → nils_last atts.
Proof.
  intros (t & Hge & Hlt). exists (take t atts). split.
  - apply Forall_lookup. intros j p Hj.
    apply lookup_take_Some in Hj as [Hj Hjt].
    destruct p as [a|]; [done|]. by apply Hlt, elem_of_nil in Hj.
  - rewrite <-(take_drop t atts) at 1. f_equal.
    apply list_eq. intros j. rewrite lookup_drop, length_take.
    destruct (Nat.lt_ge_cases (t + j) (length atts)) as [Hj|Hj].
    + rewrite Hge by lia. rewrite lookup_replicate_2; [done|lia].
    + rewrite lookup_ge_None_2 by done. symmetry.
      apply lookup_replicate_None. lia.
Qed.

(** X11: on an array of pointers whose nil cells are its last cells, a
    candidates slice of the same length that is in step with it (cell by
    cell related by [R], nil with nil) and processed positions inside the
    array, in any order and with repeats, [rearrangeProcessedAttestations]
    returns; the array is then a rearrangement of the array with the
    processed cells set to nil, its nil cells are again its last cells, and
    the candidates are still in step with it. *)
Theorem rearrangeProcessedAttestations_moves_nils_last
    (R : option Attestation → option Bitlist64 → Prop)
    (atts : list (option Attestation)) (cands : list (option Bitlist64))
    (processedKeys : list nat) :
  Forall (λ k, k < length atts) processedKeys →
  nils_last atts →
  R None None → Forall2 R atts cands →
  ∃ atts' cands',
    rearrangeProcessedAttestations atts cands 0 (length cands) processedKeys
      = Ok (atts', cands')
    ∧ atts' ≡ₚ cleared processedKeys atts
    ∧ nils_last atts'
    ∧ Forall2 R atts' cands'.
Proof.
  intros Hk Hnil HN HR. pose proof (Forall2_length _ _ _ HR) as Hc.
  unfold rearrangeProcessedAttestations.
  rewrite rearrange_clear_spec by (by rewrite <-?Hc).
  cbn [mbind run_bind].
  destruct (rearrange_move_spec R processedKeys (cleared processedKeys atts)
              (cleared processedKeys cands) (length cands))
    as (atts' & cands' & -> & Hperm & Hnil' & HR').
  - by rewrite length_cleared.
  - by rewrite <-Hc.
  - by apply nils_at_cleared.
  - apply Forall2_same_length_lookup. split.
    { by rewrite !length_cleared. }
    intros i x y. rewrite !lookup_cleared.
    destruct (atts !! i) as [p|] eqn:Hp; [|done].
    destruct (cands !! i) as [c|] eqn:Hcc; [|done]. simpl.
    intros [= <-] [= <-]. destruct (bool_decide (i ∈ processedKeys)); [done|].
    by eapply Forall2_lookup_lr.
  - exists atts', cands'. split_and!; [done..| |done].
    by apply nils_at_nils_last.
Qed.

End Rearrange.

Lemma rearrangeProcessedAttestations_moves_nils_last_witness :
  ∃ atts' cands',
    rearrangeProcessedAttestations (Some <$> pair_and_subset)
      ((λ att, Some (bitsOf att)) <$> pair_and_subset) 0
      (length ((λ att, Some (bitsOf att)) <$> pair_and_subset)) [0]
      = Ok (atts', cands')
    ∧ atts' ≡ₚ cleared [0] (Some <$> pair_and_subset)
    ∧ nils_last atts'
    ∧ Forall2 (λ a c, c = bitsOf <$> a) atts' cands'.
Proof.
  apply (@rearrangeProcessedAttestations_moves_nils_last spec_collaborators
           (λ a c, c = bitsOf <$> a) (Some <$> pair_and_subset)
           ((λ att, Some (bitsOf att)) <$> pair_and_subset) [0]).
  - repeat constructor.
  - exists (Some <$> pair_and_subset). split; [|reflexivity].
    repeat constructor; eexists; reflexivity.
  - reflexivity.
  - repeat constructor.
Defined.

(** ** What the straightforward engine returns *)

Section Provenance.
Context `{!Collaborators}.

Lemma selection_Permutation (l : list Attestation) keys :
  NoDup keys → Forall (λ k, k < length l) keys →
  ∃ selected,
    selectUsingKeys l keys = Ok selected
    ∧ length selected = length keys
    ∧ selected ++ cells_not_in keys 0 l ≡ₚ l.
Proof.
  intros Hnd Hkeys.
  destruct (selectUsingKeys_spec l keys Hkeys) as (selected & Hsel & Hl).
  exists selected. split_and!; [done..|].
  apply selectUsingKeys_Forall2, Forall2_lookup_omap in Hsel as <-.
  pose proof (picked_and_cells_not_in l 0 keys Hnd) as Hperm.
  rewrite (omap_ext_elem _ (λ k, l !! k) keys) in Hperm.
  - apply Hperm. intros k Hk. eapply Forall_forall in Hkeys; [|done].
    simpl in Hkeys. lia.
  - intros k _. by rewrite Nat.sub_0_r.
Qed.

Lemma elem_of_selected (l : list Attestation) keys selected x :
  selectUsingKeys l keys = Ok selected →
  x ∈ selected ↔ ∃ k, k ∈ keys ∧ l !! k = Some x.
Proof.
  intros Hsel%selectUsingKeys_Forall2. split.
  - intros [j Hj]%list_elem_of_lookup_1.
    destruct (Forall2_lookup_r _ _ _ _ _ Hsel Hj) as (k & Hk & Hkx).
    exists k. split; [by eapply list_elem_of_lookup_2|done].
  - intros (k & [j Hj]%list_elem_of_lookup_1 & Hkx).
    destruct (Forall2_lookup_l _ _ _ _ _ Hsel Hj) as (y & Hy & Hky).
    simpl in Hky. simplify_eq. by eapply list_elem_of_lookup_2.
Qed.

Lemma hasCoverage_false (al : list Attestation) coverage :
  hasCoverage al coverage = Ok false →
  ∀ x, x ∈ al → bitsOf x ≠ coverage.
Proof.
  induction al as [|att al IH]; simpl.
  { intros _ x Hx. by apply elem_of_nil in Hx. }
  destruct (Xor (bitsOf att) coverage) as [b|] eqn:Hx; [|done]. simpl.
  pose proof (Xor_Count_0 _ _ _ Hx) as Hz.
  destruct (Nat.eqb_spec (Count b) 0) as [Hc|Hc]; [done|].
  intros Hrest x Hin. apply elem_of_cons in Hin as [->|Hin]; [|by apply IH].
  intros E. by apply Hc, Hz.
Qed.

(** One pass that continues keeps the invariant. *)
Lemma round_aggregation L atts n st st' :
  Cover_sound → Cover_distinct →
  Forall (λ att, Len (bitsOf att) = L) atts →
  aggregation_invariant L atts st →
  round n st = Ok (Continue st') →
  aggregation_invariant L atts st'.
Proof.
  intros HC HD HL (Hinv & Hsize & Hbuilt & Hnd) Hr. split.
  { destruct (round_sound L atts n st HC HL Hinv) as (r & Hr' & Hnext).
    rewrite Hr in Hr'. simplify_eq. by apply Hnext. }
  revert Hr. unfold round.
  destruct (Nat.ltb_spec (ulen st) 2) as [|Hu]; [done|].
  destruct (Cover _ n false) as [e|sol] eqn:Hsol; [done|].
  destruct (Nat.ltb_spec (length (Keys sol)) 2) as [|Hk]; [done|].
  pose proof Hinv as (Hlen & Hul & Hin & Hsub & HaL & Hcov).
  pose proof (round_invariant_lengths _ _ _ HL Hinv) as HuL.
  assert (Hulen : length (unaggregated st) = ulen st).
  { apply unaggregated_length. lia. }
  destruct (HC (NewMaxCover (unaggregated st)) n L sol)
    as (HcL & Hkeys & Hc); [|apply NoDup_keys_NewMaxCover| |done|].
  { intros E. apply (f_equal length) in E.
    unfold NewMaxCover in E. rewrite length_imap in E. simpl in E. lia. }
  { apply Forall_forall. intros c Hcin.
    apply elem_of_NewMaxCover in Hcin as (j & att & Hj & ->). simpl.
    eapply Forall_forall in HuL; [done|]. by eapply list_elem_of_lookup_2. }
  pose proof (HD _ _ _ (NoDup_keys_NewMaxCover _) Hsol) as Hdistinct.
  assert (Hrange : Forall (λ k, k < length (unaggregated st)) (Keys sol)).
  { apply Forall_forall. intros j Hj.
    destruct (Hkeys j Hj) as (c & Hcin & <-).
    apply elem_of_NewMaxCover in Hcin as (j' & att & Hj' & ->). simpl.
    by eapply lookup_lt_Some. }
  destruct (selection_Permutation _ _ Hdistinct Hrange)
    as (selected & Hsel & Hsl & Hperm).
  assert (Hrest : length (complement_of (Keys sol) 0 (unaggregated st))
                  + length (Keys sol) = ulen st).
  { rewrite complement_of_0. apply Permutation_length in Hperm.
    rewrite length_app in Hperm. lia. }
  destruct (hasCoverage (aggregated st) (Coverage sol)) as [has|] eqn:Hhas;
    [|done].
  cbn [mbind run_bind]. destruct has.
  - cbn [mbind run_bind]. rewrite selectComplementUsingKeys_spec by lia.
    cbn [mbind run_bind array al_len]. intros [= <-]. simpl.
    change (take (ulen st) (storage st)) with (unaggregated st).
    split_and!; [lia|done..].
  - rewrite Hsel. cbn [mbind run_bind].
    destruct (aggregate selected (Coverage sol)) as [e|att] eqn:Hagg;
      cbn [mbind run_bind]; [done|].
    rewrite selectComplementUsingKeys_spec by lia.
    cbn [mbind run_bind array al_len]. intros [= <-]. simpl.
    change (take (ulen st) (storage st)) with (unaggregated st).
    assert (Hbits : bitsOf att = Coverage sol).
    { unfold bitsOf. by rewrite (aggregate_inr _ _ _ Hagg). }
    split_and!.
    + rewrite length_app. simpl. lia.
    + apply Forall_app. split; [done|]. apply Forall_singleton.
      exists selected. split_and!.
      * lia.
      * etrans; [|by apply sublist_submseteq]. rewrite <-Hperm.
        by apply submseteq_inserts_r.
      * by rewrite Hbits.
      * intros i. rewrite Hbits, Hc. split.
        -- intros (c & Hcin & Hkey & Hbit).
           apply elem_of_NewMaxCover in Hcin as (j & x & Hj & ->).
           simpl in *. exists x. split; [|done].
           eapply elem_of_selected; [done|]. eauto.
        -- intros (x & Hx & Hbit).
           eapply elem_of_selected in Hx as (k & Hkin & Hkx); [|done].
           exists (NewMaxCoverCandidate k (bitsOf x)). split_and!; [|done..].
           apply elem_of_NewMaxCover. eauto.
    + rewrite fmap_app. simpl. apply NoDup_app. split_and!; [done| |].
      * intros b Hb Hb'. apply list_elem_of_singleton in Hb' as ->.
        apply list_elem_of_fmap in Hb as (x & Hx & Hin').
        eapply hasCoverage_false; [done..|]. congruence.
      * apply NoDup_singleton.
Qed.

Lemma rounds_aggregation L atts n r : ∀ st st' e,
  Cover_sound → Cover_distinct →
  Forall (λ att, Len (bitsOf att) = L) atts →
  aggregation_invariant L atts st →
  (rounds r n st).2 = Ok (st', e) →
  aggregation_invariant L atts st'.
Proof.
  induction r as [|r IH]; intros st st' e HC HD HL Hinv; simpl;
    [by intros [= <- _]|].
  destruct (round n st) as [[st1| |e1]|] eqn:Hr; simpl; try done.
  - specialize (IH st1 st' e HC HD HL). destruct (rounds r n st1).
    simpl in *. intros Hout. apply IH; [|done].
    by eapply round_aggregation.
  - by intros [= <- _].
  - by intros [= <- _].
Qed.

Lemma filterContained_submseteq L arr n :
  sort_Slice_sound → n ≤ length arr →
  Forall (λ att, Len (bitsOf att) = L) (take n arr) →
  ∃ al, filterContained {| array := arr; al_len := n |} = Ok al
        ∧ items al ⊆+ take n arr.
Proof.
  intros Hs Hl HL. destruct (Nat.lt_ge_cases n 2) as [Hn|Hn].
  - exists {| array := arr; al_len := n |}.
    by rewrite filterContained_short.
  - destruct (filterContained_long arr n Hs Hn Hl)
      as (kept & sorted & Hsort & ->).
    destruct (Hs (take n arr)) as [Hperm _]. rewrite Hsort in Hperm.
    assert (HL' : Forall (λ att, Len (bitsOf att) = L) (kept :: sorted)).
    { by rewrite Hperm. }
    apply Forall_cons in HL' as [Hk HL'].
    destruct (keep_uncontained_spec L sorted kept Hk HL')
      as (filtered & Hf & Hsub & _).
    rewrite Hf. simpl. eexists. split; [done|].
    unfold items. simpl. rewrite take_app_length.
    rewrite <-Hperm. apply sublist_submseteq. by apply sublist_skip.
Qed.

(** The result of the straightforward engine on a valid batch, with the
    state in which the loop was left. *)
Lemma MaxCoverAttestationAggregation_shape L (atts : list Attestation) :
  Cover_sound → Cover_distinct → sort_Slice_sound →
  2 ≤ length atts → valid_batch L atts →
  ∃ st survivors ret,
    MaxCoverAttestationAggregation (slice_of atts) = Ok ret
    ∧ result ret = slice_of (aggregated st ++ survivors)
    ∧ aggregation_invariant L atts st
    ∧ survivors ⊆+ unaggregated st.
Proof.
  intros HC HD HS Hn Hvalid.
  pose proof (valid_batch_lengths _ _ Hvalid) as HL.
  rewrite MaxCoverAttestationAggregation_validated
    by (by try eapply valid_batch_validate).
  assert (Hinit : aggregation_invariant L atts
            {| aggregated := []; storage := atts; ulen := length atts |}).
  { split; [apply initial_invariant|]. simpl.
    split_and!; [lia|done|apply NoDup_nil_2]. }
  destruct (rounds_sound L atts (length atts) (length atts / 2) _ HC HL
              (initial_invariant L atts)) as (st & e & Hexit & _).
  pose proof (rounds_aggregation _ _ _ _ _ _ _ HC HD HL Hinit Hexit) as Hinv.
  unfold loop_exit. rewrite Hexit. cbn [mbind run_bind].
  destruct e as [e|].
  - eexists st, (unaggregated st), _. by split_and!.
  - pose proof Hinv as ((Hlen & Hul & _) & _).
    destruct (filterContained_submseteq L (storage st) (ulen st))
      as (al & -> & Hsub); [done|lia| |].
    { eapply round_invariant_lengths; [done|]. by destruct Hinv. }
    cbn [mbind run_bind]. eexists st, (items al), _. by split_and!.
Qed.

(** X12: on a valid batch, with a sound solver that lists no key twice and a
    sound sort, the straightforward engine returns aggregates followed by
    survivors; the survivors are attestations of the batch, none of them
    returned twice, and every aggregate stands for two attestations or more
    that are not returned: twice the number of aggregates plus the number
    of survivors is at most the size of the batch, so the result is never
    longer than the input. *)
Theorem result_never_longer L (atts : list Attestation) :
  Cover_sound → Cover_distinct → sort_Slice_sound → valid_batch L atts →
  ∃ ret aggregates survivors,
    MaxCoverAttestationAggregation (slice_of atts) = Ok ret
    ∧ result ret = slice_of (aggregates ++ survivors)
    ∧ survivors ⊆+ atts
    ∧ 2 * length aggregates + length survivors ≤ length atts.
Proof.
  intros HC HD HS Hvalid.
  destruct (Nat.lt_ge_cases (length atts) 2) as [Hn|Hn].
  { exists {| result := slice_of atts; err := None; caller_array := atts |},
      [], atts.
    split_and!; [|done|done|simpl; lia].
    unfold MaxCoverAttestationAggregation. rewrite len_slice_of.
    by destruct (Nat.ltb_spec (length atts) 2); [|lia]. }
  destruct (MaxCoverAttestationAggregation_shape L atts HC HD HS Hn Hvalid)
    as (st & survivors & ret & Hret & Hres & (Hinv & Hsize & _) & Hsub).
  destruct Hinv as (Hlen & Hul & _ & Hunagg & _).
  exists ret, (aggregated st), survivors. split_and!; [done..| |].
  - etrans; [done|]. by apply sublist_submseteq.
  - apply submseteq_length in Hsub.
    rewrite unaggregated_length in Hsub by lia. lia.
Qed.

(** X13: under the same conditions, every aggregate that the straightforward
    engine returns is what [aggregate] builds from two attestations or more
    of the batch, no attestation twice, and its bits are the union of their
    bits; and no two aggregates have the same bits (a selection whose
    coverage is already there is not materialized). *)
Theorem aggregates_built_from_batch L (atts : list Attestation) :
  Cover_sound → Cover_distinct → sort_Slice_sound →
  2 ≤ length atts → valid_batch L atts →
  ∃ ret aggregates survivors,
    MaxCoverAttestationAggregation (slice_of atts) = Ok ret
    ∧ result ret = slice_of (aggregates ++ survivors)
    ∧ survivors ⊆+ atts
    ∧ Forall (built_from atts) aggregates
    ∧ NoDup (bitsOf <$> aggregates).
Proof.
  intros HC HD HS Hn Hvalid.
  destruct (MaxCoverAttestationAggregation_shape L atts HC HD HS Hn Hvalid)
    as (st & survivors & ret & Hret & Hres & (Hinv & _ & Hbuilt & Hnd) & Hsub).
  destruct Hinv as (_ & _ & _ & Hunagg & _).
  exists ret, (aggregated st), survivors. split_and!; [done..| |done|done].
  etrans; [done|]. by apply sublist_submseteq.
Qed.

(** X14: on a valid batch, with a sound solver and a sound sort, what the
    straightforward engine returns is again a valid batch of the same bit
    length, so it can be given to the engine again; and a bit is set in a
    returned attestation exactly when it is set in an attestation of the
    batch. *)
Theorem result_is_valid_batch L (atts : list Attestation) :
  Cover_sound → sort_Slice_sound → valid_batch L atts →
  ∃ ret,
    MaxCoverAttestationAggregation (slice_of atts) = Ok ret
    ∧ valid_batch L (elems (result ret))
    ∧ ∀ i, (∃ x, x ∈ elems (result ret) ∧ BitAt (bitsOf x) i = true)
           ↔ (∃ att, att ∈ atts ∧ BitAt (bitsOf att) i = true).
Proof.
  intros HC HS Hvalid.
  destruct (Nat.lt_ge_cases (length atts) 2) as [Hn|Hn].
  { exists {| result := slice_of atts; err := None; caller_array := atts |}.
    split_and!; [|done..].
    unfold MaxCoverAttestationAggregation. rewrite len_slice_of.
    by destruct (Nat.ltb_spec (length atts) 2); [|lia]. }
  destruct (MaxCoverAttestationAggregation_sound L atts HC HS Hn Hvalid)
    as (st & survivors & ret & Hexit & Hinv & Hret & Hres & Hsub & Hcont
        & _).
  exists ret. split; [done|]. rewrite Hres. simpl.
  destruct Hinv as (_ & _ & _ & Hunagg & HaL & Hcov).
  destruct Hvalid as [HL0 Hvalid]. split.
  - split; [done|]. apply Forall_app. split.
    + eapply Forall_impl; [done|]. intros x Hx. split; [|done].
      intros E. unfold bitsOf in Hx. rewrite E in Hx. simpl in Hx. lia.
    + apply Forall_forall. intros x Hx. apply Hsub in Hx.
      eapply Forall_forall in Hvalid; [done|].
      eapply sublist_subseteq; [done|]. done.
  - intros i. rewrite <-!covers_true, <-Hcov. f_equiv. apply covers_ext.
    + intros x Hx. apply elem_of_app in Hx as [Hx|Hx].
      * exists x. split; [|by unfold subset_bits]. apply elem_of_app. by left.
      * exists x. split; [|by unfold subset_bits]. apply elem_of_app.
        right. by apply Hsub.
    + intros y Hy. apply elem_of_app in Hy as [Hy|Hy].
      * exists y. split; [|by unfold subset_bits]. apply elem_of_app. by left.
      * destruct (Hcont y Hy) as (x & Hx & Hs).
        exists x. split; [|done]. apply elem_of_app. by right.
Qed.

End Provenance.

(** ** The stand-in solver lists no key twice *)

Lemma choose_fresh allowOverlaps covered selected cands : ∀ i best r,
  choose allowOverlaps covered selected i cands best = Some r →
  best = Some r ∨ forallb (λ s, negb (s.1 =? r.1)) selected = true.
Proof.
  induction cands as [|c cands IH]; intros i best r; simpl; [by left|].
  intros Hr. apply IH in Hr as [Hr|Hr]; [|by right].
  destruct (admissible allowOverlaps selected i c) eqn:Ha; simpl in Hr;
    [|by left].
  destruct (match best with Some _ => _ | None => _ end); [|by left].
  simplify_eq. right. simpl. unfold admissible in Ha.
  by apply andb_true_iff in Ha as [Ha _].
Qed.

Lemma greedy_positions p allowOverlaps k : ∀ covered selected,
  NoDup (fst <$> selected) →
  (∀ s, s ∈ selected → p !! s.1 = Some s.2) →
  NoDup (fst <$> (greedy k allowOverlaps p covered selected).2)
  ∧ ∀ s, s ∈ (greedy k allowOverlaps p covered selected).2 →
         p !! s.1 = Some s.2.
Proof.
  induction k as [|k IH]; intros covered selected Hnd Hpos; simpl; [done|].
  destruct (choose _ _ _ _ _ _) as [[i c]|] eqn:Hch; [|done].
  destruct (new_bits covered (bits c) =? 0); [done|].
  apply IH.
  - rewrite fmap_app. simpl. apply NoDup_app. split_and!; [done| |].
    + intros j Hj Hj'. apply list_elem_of_singleton in Hj' as ->.
      apply choose_fresh in Hch as [|Hfresh]; [done|]. simpl in Hfresh.
      apply list_elem_of_fmap in Hj as (s & Hs & Hin).
      rewrite forallb_forall in Hfresh.
      apply list_elem_of_In in Hin. specialize (Hfresh s Hin).
      apply negb_true_iff, Nat.eqb_neq in Hfresh. done.
    + apply NoDup_singleton.
  - intros s Hs. apply elem_of_app in Hs as [Hs|Hs]; [by apply Hpos|].
    apply list_elem_of_singleton in Hs as ->.
    apply choose_Some in Hch as [|(j & Hj & Hi)]; [done|]. simpl in *.
    by subst.
Qed.

Lemma spec_Cover_distinct : @Cover_distinct spec_collaborators.
Proof.
  intros p k sol Hnd. simpl. unfold spec_Cover.
  destruct p as [|c0 p']; [done|].
  destruct (existsb _ _); [done|].
  destruct (greedy_positions (c0 :: p') false k (zeros (Len (bits c0))) [])
    as [Hsel Hpos].
  { apply NoDup_nil_2. }
  { intros s Hs. by apply elem_of_nil in Hs. }
  destruct (greedy _ _ _ _ _) as [covered selected]. simpl in Hsel, Hpos.
  intros [= <-]. simpl.
  apply NoDup_fmap_2_strong; [|by eapply NoDup_fmap_1].
  intros s s' Hs Hs' Hkey.
  pose proof (Hpos s Hs) as Hp. pose proof (Hpos s' Hs') as Hp'.
  assert (s.2 = s'.2) as E2.
  { apply (key_inj_NoDup (c0 :: p')); [done| | |done];
      by eapply list_elem_of_lookup_2. }
  assert (s.1 = s'.1) as E1.
  { apply (NoDup_lookup (c0 :: p') _ _ s.2);
      [by eapply NoDup_fmap_1|done|by rewrite E2]. }
  destruct s, s'. simpl in *. congruence.
Qed.

Lemma result_never_longer_witness :
  ∃ ret aggregates survivors,
    MaxCoverAttestationAggregation (slice_of pair_and_subset) = Ok ret
    ∧ result ret = slice_of (aggregates ++ survivors)
    ∧ survivors ⊆+ pair_and_subset
    ∧ 2 * length aggregates + length survivors ≤ length pair_and_subset.
Proof.
  apply (@result_never_longer spec_collaborators 4 pair_and_subset).
  - exact spec_Cover_sound.
  - exact spec_Cover_distinct.
  - exact spec_sort_Slice_sound.
  - exact valid_batch_pair_and_subset.
Defined.

Lemma aggregates_built_from_batch_witness :
  ∃ ret aggregates survivors,
    MaxCoverAttestationAggregation (slice_of pair_and_subset) = Ok ret
    ∧ result ret = slice_of (aggregates ++ survivors)
    ∧ survivors ⊆+ pair_and_subset
    ∧ Forall (built_from pair_and_subset) aggregates
    ∧ NoDup (bitsOf <$> aggregates).
Proof.
  apply (@aggregates_built_from_batch spec_collaborators 4 pair_and_subset).
  - exact spec_Cover_sound.
  - exact spec_Cover_distinct.
  - exact spec_sort_Slice_sound.
  - simpl. lia.
  - exact valid_batch_pair_and_subset.
Defined.

Lemma result_is_valid_batch_witness :
  ∃ ret,
    MaxCoverAttestationAggregation (slice_of overlapping_batch) = Ok ret
    ∧ valid_batch 4 (elems (result ret))
    ∧ ∀ i, (∃ x, x ∈ elems (result ret) ∧ BitAt (bitsOf x) i = true)
           ↔ (∃ att, att ∈ overlapping_batch ∧ BitAt (bitsOf att) i = true).
Proof.
  apply (@result_is_valid_batch spec_collaborators 4 overlapping_batch).
  - exact spec_Cover_sound.
  - exact spec_sort_Slice_sound.
  - exact valid_batch_overlapping_batch.
Defined.

(** ** Where the two engines agree *)

Section Agreement.
Context `{!Collaborators}.

Lemma deref_all_Some (l : list Attestation) : deref_all (Some <$> l) = Ok l.
Proof.
  induction l as [|att l IH]; [done|].
  rewrite fmap_cons. cbn [deref_all]. by rewrite IH.
Qed.

(** X15: on a validated batch of two attestations or more, when the first
    selection of each entry point of the solver has fewer than two members,
    the two engines do the same: both leave the loop at the first pass and
    return what [filterContained] keeps of the whole batch.  The optimized
    engine returns the pointers to what the straightforward engine returns,
    with the same error, and panics when it panics. *)
Theorem engines_agree_without_aggregation
    (atts : list Attestation) (sol : Aggregation)
    (selectedKeys coverage : Bitlist64) :
  2 ≤ length atts → validate (slice_of atts) = None →
  Cover (NewMaxCover atts) (length atts) false = inr sol →
  length (Keys sol) < 2 →
  MaxCover (candidates (opt_initial atts)) (length atts) false
    = inr (selectedKeys, coverage) →
  Count selectedKeys < 2 →
  optMaxCoverAttestationAggregation (slice_of atts) =
    ret ← MaxCoverAttestationAggregation (slice_of atts);
    Ok {| opt_result := pointers (result ret); opt_err := err ret |}.
Proof.
  intros Hn Hv Hsol Hkeys Hmax Hcount.
  rewrite optMaxCoverAttestationAggregation_validated,
    MaxCoverAttestationAggregation_validated by done.
  unfold opt_loop_exit, loop_exit.
  destruct (length atts / 2) as [|r] eqn:Hr.
  { apply Nat.div_small_iff in Hr; lia. }
  rewrite (opt_rounds_exit_small_selection r (opt_initial atts)
             selectedKeys coverage) by done.
  rewrite (rounds_exit_small_selection r (length atts) _ sol).
  - cbn [snd mbind run_bind].
    unfold opt_unaggregated, opt_aggregated, filterContainedAttestations.
    cbn [opt_initial unagg_len unagg_off agg_len atts_array drop take
         aggregated storage ulen].
    rewrite drop_0, (take_ge _ (length atts)) by (rewrite length_fmap; lia).
    rewrite length_fmap. destruct (Nat.ltb_spec (length atts) 2); [lia|].
    rewrite deref_all_Some. cbn [mbind run_bind].
    destruct (filterContained _) as [al|]; [|done].
    cbn [mbind run_bind]. done.
  - unfold unaggregated. simpl. by rewrite firstn_all.
  - done.
Qed.



End Agreement.

Lemma engines_agree_without_aggregation_witness :
  optMaxCoverAttestationAggregation (slice_of overlapping_batch) =
    ret ← MaxCoverAttestationAggregation (slice_of overlapping_batch);
    Ok {| opt_result := pointers (result ret); opt_err := err ret |}.
Proof.
  apply (@engines_agree_without_aggregation spec_collaborators
           overlapping_batch
           {| Coverage := [true; true; true; false]; Keys := [0] |}
           [true; false; false] [true; true; true; false]).
  - simpl. lia.
  - reflexivity.
  - vm_compute. reflexivity.
  - simpl. lia.
  - vm_compute. reflexivity.
  - simpl. lia.
Defined.

(** ** What the containment filter misses *)

Section LastKept.
Context `{!Collaborators}.

Lemma Contains_not_subset L (kept att : Attestation) :
  Len (bitsOf kept) = L → Len (bitsOf att) = L →
  ¬ subset_bits (bitsOf att) (bitsOf kept) →
  Contains (bitsOf kept) (bitsOf att) = Ok false.
Proof.
  intros Hk Ha Hn.
  destruct (Contains_same_len (bitsOf kept) (bitsOf att)) as [r Hr];
    [congruence|].
  rewrite Hr. apply Contains_Ok in Hr as [_ Hr].
  destruct r; [|done]. destruct Hn. by apply Hr.
Qed.

(** X18: [filterContained] compares each attestation with the last one it
    kept, and with no other.  Take three attestations [a], [b], [c] of one
    length with strictly decreasing popcounts, where [b] is not a subset of
    [a], [c] is not a subset of [b], and [c] is a subset of [a]: given in any
    order, when the first selection of the solver has fewer than two
    members, the engine returns all three, with no error, although [c] is
    a strict subset of [a].  The filter does not remove every attestation
    that is contained within another one. *)
Theorem contained_survivor_returned
    L (a b c : Attestation) (atts : list Attestation) (sol : Aggregation) :
  sort_Slice_sound →
  atts ≡ₚ [a; b; c] → valid_batch L atts →
  Count (bitsOf c) < Count (bitsOf b) →
  Count (bitsOf b) < Count (bitsOf a) →
  ¬ subset_bits (bitsOf b) (bitsOf a) →
  ¬ subset_bits (bitsOf c) (bitsOf b) →
  subset_bits (bitsOf c) (bitsOf a) →
  Cover (NewMaxCover atts) (length atts) false = inr sol →
  length (Keys sol) < 2 →
  ∃ ret,
    MaxCoverAttestationAggregation (slice_of atts) = Ok ret
    ∧ err ret = None
    ∧ result ret = slice_of [a; b; c]
    ∧ strict_subset_bits (bitsOf c) (bitsOf a).
Proof.
  intros HS Hperm Hvalid Hcb Hba Hnba Hncb Hca Hsol Hkeys.
  pose proof (Permutation_length Hperm) as Hlen. simpl in Hlen.
  pose proof (valid_batch_lengths _ _ Hvalid) as HL.
  rewrite Hperm in HL.
  apply Forall_cons in HL as [HLa HL]. apply Forall_cons in HL as [HLb HL].
  apply Forall_cons in HL as [HLc _].
  rewrite MaxCoverAttestationAggregation_validated;
    [|lia|by eapply valid_batch_validate; [|lia]].
  unfold loop_exit. destruct (length atts / 2) as [|r] eqn:Hr.
  { apply Nat.div_small_iff in Hr; lia. }
  rewrite (rounds_exit_small_selection r (length atts) _ sol); [| |done].
  2:{ unfold unaggregated. simpl. by rewrite firstn_all. }
  cbn [snd mbind run_bind aggregated storage ulen].
  destruct (filterContained_long atts (length atts) HS)
    as (kept & sorted & Hsort & ->); [lia|lia|].
  rewrite firstn_all in Hsort.
  assert (Hsorted : kept :: sorted = [a; b; c]).
  { rewrite <-Hsort. symmetry.
    apply (StronglySorted_unique_strong by_count).
    - intros x1 x2 H1 H2 H12 H21.
      apply by_count_le in H12, H21.
      destruct (HS atts) as [Hp _]. rewrite Hp, Hperm in H2.
      repeat (apply elem_of_cons in H1 as [->|H1]);
        repeat (apply elem_of_cons in H2 as [->|H2]);
        try done; try lia;
        first [by apply elem_of_nil in H1|by apply elem_of_nil in H2].
    - repeat constructor; apply by_count_le; lia.
    - by apply sort_Slice_by_count.
    - destruct (HS atts) as [Hp _]. by rewrite Hp. }
  injection Hsorted as -> ->.
  cbn [keep_uncontained].
  rewrite (Contains_not_subset L a b), (Contains_not_subset L b c) by done.
  cbn [mbind run_bind]. eexists. split; [done|]. cbn [err result].
  split_and!; [done..|]. split; [done|].
  intros Hac. apply subset_bits_Count in Hac; [lia|congruence].
Qed.

End LastKept.

Lemma contained_survivor_returned_witness :
  ∃ ret,
    MaxCoverAttestationAggregation (slice_of overlapping_batch) = Ok ret
    ∧ err ret = None
    ∧ result ret = slice_of [att_of [true; true; true; false];
                             att_of [false; false; true; true];
                             att_of [true; false; false; false]]
    ∧ strict_subset_bits (bitsOf (att_of [true; false; false; false]))
        (bitsOf (att_of [true; true; true; false])).
Proof.
  apply (@contained_survivor_returned spec_collaborators 4
           (att_of [true; true; true; false])
           (att_of [false; false; true; true])
           (att_of [true; false; false; false])
           overlapping_batch
           {| Coverage := [true; true; true; false]; Keys := [0] |}).
  - exact spec_sort_Slice_sound.
  - reflexivity.
  - exact valid_batch_overlapping_batch.
  - simpl. lia.
  - simpl. lia.
  - intros Hs. by specialize (Hs 3 eq_refl).
  - intros Hs. by specialize (Hs 0 eq_refl).
  - intros i. by do 4 (destruct i as [|i]; [done|]).
  - vm_compute. reflexivity.
  - simpl. lia.
Defined.
